(** * Binlog IO of the data node: download and upload of segment logs

    A shallow embedding of [internal/datanode/binlog_io.go] and a
    verification of its key scheme, its download path (bounded retry,
    results by index) and its upload path (write batch, unbounded retry
    until cancellation).

    The collaborators of [binlogIO] (chunk manager, allocator, codecs,
    error classifier, log path constants) are interfaces of the Go code;
    they are type classes here.  Tasks submitted to the pool are state
    machines stepped by an explicit schedule, so that every theorem holds
    for every interleaving of the tasks. *)

From Stdlib Require Import ZArith String Ascii List Lia.
From Stdlib Require Import DecimalString DecimalZ.
From stdpp Require Import gmap strings list fin_maps.

Local Open Scope string_scope.
Local Open Scope list_scope.

(** ** Paths: the standard library functions used to build keys *)

Module Path.

Definition is_slash (c : ascii) : bool := Ascii.eqb c "/".

Fixpoint has_slash (s : string) : bool :=
  match s with
  | EmptyString => false
  | String c s' => is_slash c || has_slash s'
  end.

(** The elements of a path between its separators ([strings.Split] on "/"). *)
Fixpoint split_slash (s : string) : list string :=
  match s with
  | EmptyString => [EmptyString]
  | String c s' =>
      if is_slash c then EmptyString :: split_slash s'
      else match split_slash s' with
           | h :: t => String c h :: t
           | [] => [String c EmptyString]
           end
  end.

(** [strings.Join(l, "/")]. *)
Fixpoint join_slash (l : list string) : string :=
  match l with
  | [] => ""
  | x :: rest =>
      match rest with
      | [] => x
      | _ => x +:+ "/" +:+ join_slash rest
      end
  end.

Definition rooted (p : string) : bool :=
  match p with
  | EmptyString => false
  | String c _ => is_slash c
  end.

(** One element of the path seen by [path.Clean]: empty and "." elements
    are dropped, ".." removes the element before it (or is kept at the head
    of a path that is not rooted), any other element is kept.  [out] is the
    output so far, last element first. *)
Definition clean_step (r : bool) (out : list string) (c : string) : list string :=
  if String.eqb c "" || String.eqb c "." then out
  else if String.eqb c ".." then
    match out with
    | top :: rest => if String.eqb top ".." then c :: out else rest
    | [] => if r then [] else [c]
    end
  else c :: out.

Definition clean_comps (r : bool) (p : string) : list string :=
  rev (fold_left (clean_step r) (split_slash p) []).

(** Go's [path.Clean], element by element: the shortest path equivalent to
    [p] by lexical processing. *)
Definition Clean (p : string) : string :=
  match p with
  | EmptyString => "."
  | _ =>
      let body := join_slash (clean_comps (rooted p) p) in
      if rooted p then String "/" body
      else match body with
           | EmptyString => "."
           | _ => body
           end
  end.

(** Go's [path.Join]: empty elements are ignored, the others are joined
    with slashes and the result is cleaned; no element at all gives "". *)
Definition Join (elem : list string) : string :=
  match List.filter (fun e => negb (String.eqb e "")) elem with
  | [] => ""
  | es => Clean (join_slash es)
  end.

(** An element that survives [Clean] as it is. *)
Definition plain (c : string) : bool :=
  negb (String.eqb c "") && negb (String.eqb c ".")
  && negb (String.eqb c "..") && negb (has_slash c).

End Path.

(** [strconv.FormatInt(id, 10)]. *)
Definition FormatInt (id : Z) : string := NilZero.string_of_int (Z.to_int id).

(** Modelled from the spec: [metautil.JoinIDPath] is not under src/; the
    identifiers become path segments, in the order given, each written in
    decimal. *)
Definition JoinIDPath (ids : list Z) : string := Path.Join (map FormatInt ids).

(** The key of every log: [path.Join(root, logPath, JoinIDPath(ids...))]. *)
Definition binlogKey (root logPath : string) (ids : list Z) : string :=
  Path.Join [root; logPath; JoinIDPath ids].

(** ** Data model *)

Abbreviation bytes := (list Byte.byte).

(** [storage.Blob]. *)
Record Blob := { Key : string; Value : bytes; RowNum : Z }.

(** [datapb.Binlog] and [datapb.FieldBinlog], the fields this file sets. *)
Record Binlog := { EntriesNum : Z; LogPath : string; LogSize : Z }.
Record FieldBinlog := { FieldID : Z; Binlogs : list Binlog }.

(** [etcdpb.CollectionMeta]: [GetID()] is all this file reads of it. *)
Record CollectionMeta := { ID : Z }.

(** [storage.DeleteData]. *)
Record DeleteData := { Pks : list Z; Tss : list Z; RowCount : Z }.

(** Errors.  The two sentinels belong to the package; an error of a
    collaborator (store, allocator, codec) is another value, so a write or
    a read never returns a sentinel. *)
Definition ext_error := string.

Inductive error :=
| errStart
| errUploadToBlobStorage
| errExternal (e : ext_error).

Definition is_errStart (e : error) : bool :=
  match e with errStart => true | _ => false end.

Inductive res (E A : Type) := Ok (a : A) | Err (e : E).
Arguments Ok {E A} a.
Arguments Err {E A} e.

(** [strconv.ParseUint(s, 10, 64)] and [strconv.ParseInt(s, 10, 64)].
    [ParseUint] reads the digits from the left into an unsigned number of
    64 bits: a byte that is no digit is a syntax error, with the value 0,
    and a digit that takes the number beyond 64 bits is a range error,
    reported at that digit with the value [maxUint64], whatever follows. *)
Inductive num_error := ErrSyntax | ErrRange.

Definition maxUint64 : N := (2 ^ 64 - 1)%N.

Definition digit_of (c : ascii) : option N :=
  let n := N_of_ascii c in
  if ((48 <=? n) && (n <=? 57))%N then Some (n - 48)%N else None.

Fixpoint parse_digits (s : string) (n : N) : N * option num_error :=
  match s with
  | EmptyString => (n, None)
  | String c s' =>
      match digit_of c with
      | None => (0%N, Some ErrSyntax)
      | Some d =>
          if (maxUint64 / 10 + 1 <=? n)%N then (maxUint64, Some ErrRange)
          else
            let n1 := (n * 10 + d)%N in
            if (maxUint64 <? n1)%N then (maxUint64, Some ErrRange)
            else parse_digits s' n1
      end
  end.

Definition ParseUint (s : string) : N * option num_error :=
  match s with
  | EmptyString => (0%N, Some ErrSyntax)
  | _ => parse_digits s 0
  end.

(** [ParseInt] with its error dropped, as the callers do: 0 on a syntax
    error, the nearest bound of int64 on a range error. *)
Definition ParseInt (s : string) : Z :=
  match s with
  | EmptyString => 0%Z
  | String c rest =>
      let neg := Ascii.eqb c "-" in
      let body := if Ascii.eqb c "+" || neg then rest else s in
      match ParseUint body with
      | (_, Some ErrSyntax) => 0%Z
      | (un, _) =>
          let cutoff := (2 ^ 63)%Z in
          if neg then
            (if (cutoff <? Z.of_N un)%Z then (- cutoff)%Z else (- Z.of_N un)%Z)
          else
            (if (cutoff <=? Z.of_N un)%Z then (cutoff - 1)%Z else Z.of_N un)
      end
  end.

(** ** Collaborators *)

(** [storage.ChunkManager]: the object store, with state [W].  Every call
    receives the context; [done] tells whether it was cancelled. *)
Class ChunkManager (W : Type) := {
  RootPath : string;
  Read : forall (done : bool) (path : string), W -> res ext_error bytes * W;
  Write : forall (done : bool) (path : string) (val : bytes), W -> option ext_error * W
}.

(** [allocator.Allocator], with state [A].  The channel that
    [GetGenerator] returns is the list of the values it will deliver. *)
Class Allocator (A : Type) := {
  AllocOne : A -> res ext_error Z * A;
  GetGenerator : forall (count : nat), A -> res ext_error (list Z) * A
}.

(** [storage.InsertCodec] built from a collection's meta, and
    [storage.DeleteCodec]. *)
Class Codec (InsertData PrimaryKeyStats : Type) := {
  IsEmpty : InsertData -> bool;
  Serialize : CollectionMeta -> forall (partID segID : Z), InsertData -> res ext_error (list Blob);
  SerializePkStats : CollectionMeta -> PrimaryKeyStats -> forall (totRows : Z), res ext_error Blob;
  DeleteSerialize : forall (collID partID segID : Z), DeleteData -> res ext_error Blob
}.

(** [merr.IsRetryableErr]. *)
Class Merr := { IsRetryableErr : ext_error -> bool }.

(** The log path constants of package [common]. *)
Class LogPaths := {
  SegmentInsertLogPath : string;
  SegmentStatslogPath : string;
  SegmentDeltaLogPath : string
}.

(** ** What a run leaves behind *)

Inductive event :=
| EvRead (task : nat) (path : string) (r : res ext_error bytes)
| EvWrite (task : nat) (path : string) (val : bytes) (r : option ext_error)
| EvSleep (task : nat) (ms : Z)
| EvAllocOne (r : res ext_error Z)
| EvGetGenerator (count : nat) (r : res ext_error (list Z)).

(** The state of a [binlogIO]: its store, its allocator, and the calls made
    on them so far. *)
Record state (W A : Type) := {
  store : W;
  ids : A;
  trace : list event
}.
Arguments store {W A} s.
Arguments ids {W A} s.
Arguments trace {W A} s.

(** ** The task pool *)

(** A future holds the task while it runs and its result afterwards. *)
Inductive future (T V : Type) :=
| Pending (t : T)
| Done (r : res error V).
Arguments Pending {T V} t.
Arguments Done {T V} r.

(** What the caller of a blocking function sees after a finite schedule:
    still waiting, or the returned value. *)
Inductive outcome (R : Type) :=
| Blocked
| Returned (r : R).
Arguments Blocked {R}.
Arguments Returned {R} r.

(** One move of the environment: task [i] runs one round of its loop, or
    the context is cancelled. *)
Inductive sched_event :=
| Run (i : nat)
| Cancel.

Record pool (T V S : Type) := {
  ctxDone : bool;
  futures : list (future T V);
  st : S
}.
Arguments ctxDone {T V S} p.
Arguments futures {T V S} p.
Arguments st {T V S} p.

Section Pool.
Context {T V S : Type}.
Variable step : bool -> nat -> T -> S -> future T V * S.

(** Modelled from the spec: the pool of package [conc] is not under src/.
    It runs the submitted tasks in parallel, each with a future for its
    result.  Here a task is a state machine, [step] is one round of it, and
    the rounds of the tasks interleave as the schedule says; a round of a
    task that is done does nothing. *)
Definition pool_step (p : pool T V S) (e : sched_event) : pool T V S :=
    match e with
    | Cancel => {| ctxDone := true; futures := futures p; st := st p |}
    | Run i =>
        match futures p !! i with
        | Some (Pending t) =>
            let '(f, s') := step (ctxDone p) i t (st p) in
            {| ctxDone := ctxDone p; futures := <[i := f]> (futures p); st := s' |}
        | _ => p
        end
    end.

Definition run_pool (sched : list sched_event) (p : pool T V S) : pool T V S :=
  fold_left pool_step sched p.
End Pool.

(** The order of a [range] over a map is not fixed: [choices] picks, one
    after the other, which of the remaining entries comes next. *)
Fixpoint pick_order {X : Type} (choices : list nat) (l : list X) : list X :=
  match choices with
  | [] => l
  | c :: cs =>
      match l !! (c mod length l) with
      | Some x => x :: pick_order cs (delete (c mod length l) l)
      | None => l
      end
  end.

Record schedule := {
  range_order : list nat;
  steps : list sched_event
}.

(** ** binlogIO *)

Section BinlogIO.
Context {W A InsertData PrimaryKeyStats : Type}.
Context {cm : ChunkManager W} {al : Allocator A}.
Context {codec : Codec InsertData PrimaryKeyStats}.
Context {merr : Merr} {lp : LogPaths}.

Abbreviation State := (state W A).

(** *** download *)

(** What [retry.Do] does after a call of its function: call it again, or
    return. *)
Inductive retry_verdict :=
| RetryAgain
| RetryReturn (err : option ext_error).

(** Modelled from the spec: [retry.Do] is not under src/.  It calls the
    function up to [attempts] times, calls it again only after an error
    that [retryErr] accepts, and returns the error of the last call; it
    does not look at the context between two calls.  [retry_round] is what
    its loop does once a call, the one after [tried] earlier calls, has
    returned [err]. *)
Definition retry_round (attempts : nat) (retryErr : ext_error -> bool)
    (tried : nat) (err : option ext_error) : retry_verdict :=
  match err with
  | None => RetryReturn None
  | Some e =>
      if retryErr e && Nat.ltb (S tried) attempts then RetryAgain
      else RetryReturn (Some e)
  end.

(** The task submitted for one path: [retry.Do] around [b.Read] with
    [retry.Attempts(3)] and [retry.RetryErr(merr.IsRetryableErr)];
    [rt_tried] counts the calls of [b.Read] made so far. *)
Record read_task := { rt_path : string; rt_tried : nat }.

(** [retry.Attempts(3)]. *)
Definition Attempts : nat := 3.

(** One round of the task: a call of [b.Read], which sets [val] and
    [err], and the verdict of [retry.Do] on it.  The task returns
    [val, err]; its future is in error when [err] is not nil. *)
Definition read_step (done : bool) (i : nat) (t : read_task) (s : State)
  : future read_task bytes * State :=
  let '(r, w') := Read done (rt_path t) (store s) in
  let s' := {| store := w'; ids := ids s;
               trace := trace s ++ [EvRead i (rt_path t) r] |} in
  let val := match r with Ok v => v | Err _ => [] end in
  let err := match r with Ok _ => None | Err e => Some e end in
  match retry_round Attempts IsRetryableErr (rt_tried t) err with
  | RetryAgain => (Pending {| rt_path := rt_path t; rt_tried := S (rt_tried t) |}, s')
  | RetryReturn None => (Done (Ok val), s')
  | RetryReturn (Some e) => (Done (Err (errExternal e)), s')
  end.

(** The loop over the futures: [futures[i].OK()] waits for task [i]. *)
Fixpoint await_blobs (fs : list (future read_task bytes)) (i : nat)
    (resp : list (option Blob))
  : outcome (option (list (option Blob)) * option error) :=
  match fs with
  | [] => Returned (Some resp, None)
  | Pending _ :: _ => Blocked
  | Done (Err e) :: _ => Returned (None, Some e)
  | Done (Ok val) :: fs' =>
      await_blobs fs' (S i)
        (<[i := Some {| Key := ""; Value := val; RowNum := 0 |}]> resp)
  end.

(** The pool of a download after the schedule [sched]: one task per path,
    in the order of the paths. *)
Definition download_pool (sched : list sched_event) (ctx : bool)
    (paths : list string) (s : State) : pool read_task bytes State :=
  run_pool read_step sched
    {| ctxDone := ctx;
       futures := map (fun path => Pending {| rt_path := path; rt_tried := 0 |}) paths;
       st := s |}.

(** [download]: nil blobs are [None]; [sched] is what the tasks get to do
    before the caller gives up waiting. *)
Definition download (sched : list sched_event) (ctx : bool)
    (paths : list string) (s : State)
  : outcome (option (list (option Blob)) * option error) * State :=
  let resp := replicate (length paths) None in
  if (length paths =? 0)%nat then (Returned (Some resp, None), s)
  else
    let p := download_pool sched ctx paths s in
    (await_blobs (futures p) 0 resp, st p).

(** *** uploadSegmentFiles *)

(** The task submitted for one pair; [wt_err] is its variable [err]. *)
Record write_task := { wt_path : string; wt_val : bytes; wt_err : option error }.

(** One round of the loop [for err != nil]: leave it when [err] is nil;
    else return [errUploadToBlobStorage] when the context is done; else
    sleep 50ms, unless [err] is still [errStart], and write. *)
Definition write_step (done : bool) (i : nat) (t : write_task) (s : State)
  : future write_task unit * State :=
  match wt_err t with
  | None => (Done (Ok tt), s)
  | Some err =>
      if done then (Done (Err errUploadToBlobStorage), s)
      else
        let sleep := if is_errStart err then [] else [EvSleep i 50] in
        let '(r, w') := Write done (wt_path t) (wt_val t) (store s) in
        (Pending {| wt_path := wt_path t; wt_val := wt_val t;
                    wt_err := option_map errExternal r |},
         {| store := w'; ids := ids s;
            trace := trace s ++ sleep ++ [EvWrite i (wt_path t) (wt_val t) r] |})
  end.

Definition is_pending {T V} (f : future T V) : bool :=
  match f with Pending _ => true | Done _ => false end.

Fixpoint first_error {T V} (fs : list (future T V)) : option error :=
  match fs with
  | [] => None
  | Done (Err e) :: _ => Some e
  | _ :: fs' => first_error fs'
  end.

(** Modelled from the spec: [conc.AwaitAll] is not under src/.  The call
    blocks until every task has completed; if a task reports an error the
    call fails with that error. *)
Definition AwaitAll {T V} (fs : list (future T V)) : outcome (option error) :=
  if existsb is_pending fs then Blocked else Returned (first_error fs).

(** The tasks of an upload, one per pair, in the order in which the
    [range] over [kvs] meets the pairs; each starts with [err := errStart]. *)
Definition upload_tasks (order : list nat) (kvs : gmap string bytes)
  : list (future write_task unit) :=
  map (fun kv => Pending {| wt_path := kv.1; wt_val := kv.2; wt_err := Some errStart |})
      (pick_order order (map_to_list kvs)).

Definition upload_pool (sch : schedule) (ctx : bool) (kvs : gmap string bytes)
    (s : State) : pool write_task unit State :=
  run_pool write_step (steps sch)
    {| ctxDone := ctx; futures := upload_tasks (range_order sch) kvs; st := s |}.

Definition uploadSegmentFiles (sch : schedule) (ctx : bool)
    (CollectionID segID : Z) (kvs : gmap string bytes) (s : State)
  : outcome (option error) * State :=
  if (size kvs =? 0)%nat then (Returned None, s)
  else
    let p := upload_pool sch ctx kvs s in
    (AwaitAll (futures p), st p).

(** *** Blobs and their keys *)

(** [b.AllocOne()] and [b.GetGenerator(count, done)], with the call kept
    in the trace. *)
Definition allocOne (s : State) : res error Z * State :=
  let '(r, a') := AllocOne (ids s) in
  let s' := {| store := store s; ids := a'; trace := trace s ++ [EvAllocOne r] |} in
  match r with
  | Ok idx => (Ok idx, s')
  | Err e => (Err (errExternal e), s')
  end.

Definition getGenerator (count : nat) (s : State) : res error (list Z) * State :=
  let '(r, a') := GetGenerator count (ids s) in
  let s' := {| store := store s; ids := a';
               trace := trace s ++ [EvGetGenerator count r] |} in
  match r with
  | Ok g => (Ok g, s')
  | Err e => (Err (errExternal e), s')
  end.

(** [<-generator]: the next value, or the zero value of a closed channel. *)
Definition recv (generator : list Z) : Z * list Z :=
  match generator with
  | x :: rest => (x, rest)
  | [] => (0%Z, [])
  end.

Definition genDeltaBlobs (data : DeleteData) (collID partID segID : Z) (s : State)
  : res error (string * bytes) * State :=
  match DeleteSerialize collID partID segID data with
  | Err e => (Err (errExternal e), s)
  | Ok blob =>
      let '(r, s1) := allocOne s in
      match r with
      | Err e => (Err e, s1)
      | Ok idx =>
          let k := JoinIDPath [collID; partID; segID; idx] in
          let key := Path.Join [RootPath; SegmentDeltaLogPath; k] in
          (Ok (key, Value blob), s1)
      end
  end.

(** The loop of [genInsertBlobs] over the blobs of the codec. *)
Fixpoint insert_loop (meta : CollectionMeta) (partID segID : Z)
    (inlogs : list Blob) (generator : list Z)
    (kvs : gmap string bytes) (inpaths : gmap Z FieldBinlog)
  : gmap string bytes * gmap Z FieldBinlog :=
  match inlogs with
  | [] => (kvs, inpaths)
  | blob :: rest =>
      let fID := ParseInt (Key blob) in
      let '(idx, generator') := recv generator in
      let k := JoinIDPath [ID meta; partID; segID; fID; idx] in
      let key := Path.Join [RootPath; SegmentInsertLogPath; k] in
      let value := Value blob in
      let fileLen := length value in
      insert_loop meta partID segID rest generator'
        (<[key := value]> kvs)
        (<[fID := {| FieldID := fID;
                     Binlogs := [{| EntriesNum := RowNum blob; LogPath := key;
                                    LogSize := Z.of_nat fileLen |}] |}]> inpaths)
  end.

Definition genInsertBlobs (data : InsertData) (partID segID : Z)
    (meta : CollectionMeta) (kvs : gmap string bytes) (s : State)
  : res error (gmap Z FieldBinlog) * gmap string bytes * State :=
  match Serialize meta partID segID data with
  | Err e => (Err (errExternal e), kvs, s)
  | Ok inlogs =>
      let '(r, s1) := getGenerator (length inlogs) s in
      match r with
      | Err e => (Err e, kvs, s1)
      | Ok generator =>
          let '(kvs', inpaths) :=
            insert_loop meta partID segID inlogs generator kvs ∅ in
          (Ok inpaths, kvs', s1)
      end
  end.

Definition genStatBlobs (stats : PrimaryKeyStats) (partID segID : Z)
    (meta : CollectionMeta) (kvs : gmap string bytes) (totRows : Z) (s : State)
  : res error (gmap Z FieldBinlog) * gmap string bytes * State :=
  match SerializePkStats meta stats totRows with
  | Err e => (Err (errExternal e), kvs, s)
  | Ok statBlob =>
      let '(r, s1) := allocOne s in
      match r with
      | Err e => (Err e, kvs, s1)
      | Ok idx =>
          let fID := ParseInt (Key statBlob) in
          let k := JoinIDPath [ID meta; partID; segID; fID; idx] in
          let key := Path.Join [RootPath; SegmentStatslogPath; k] in
          let value := Value statBlob in
          let fileLen := length value in
          (Ok {[ fID := {| FieldID := fID;
                           Binlogs := [{| EntriesNum := totRows; LogPath := key;
                                          LogSize := Z.of_nat fileLen |}] |} ]},
           <[key := value]> kvs, s1)
      end
  end.

(** *** The three uploads *)

Definition uploadStatsLog (sch : schedule) (ctx : bool) (segID partID : Z)
    (iData : InsertData) (stats : PrimaryKeyStats) (totRows : Z)
    (meta : CollectionMeta) (s : State)
  : outcome (option (gmap Z FieldBinlog) * option (gmap Z FieldBinlog) * option error)
    * State :=
  let kvs : gmap string bytes := ∅ in
  let '(r, kvs1, s1) :=
    if negb (IsEmpty iData) then
      let '(r, kvs1, s1) := genInsertBlobs iData partID segID meta kvs s in
      match r with
      | Ok inPaths => (Ok (Some inPaths), kvs1, s1)
      | Err e => (Err e, kvs1, s1)
      end
    else (Ok None, kvs, s) in
  match r with
  | Err e => (Returned (None, None, Some e), s1)
  | Ok inPaths =>
      let '(r2, kvs2, s2) := genStatBlobs stats partID segID meta kvs1 totRows s1 in
      match r2 with
      | Err e => (Returned (None, None, Some e), s2)
      | Ok statPaths =>
          let '(o, s3) := uploadSegmentFiles sch ctx (ID meta) segID kvs2 s2 in
          match o with
          | Blocked => (Blocked, s3)
          | Returned (Some e) => (Returned (None, None, Some e), s3)
          | Returned None => (Returned (inPaths, Some statPaths, None), s3)
          end
      end
  end.

Definition uploadInsertLog (sch : schedule) (ctx : bool) (segID partID : Z)
    (iData : InsertData) (meta : CollectionMeta) (s : State)
  : outcome (option (gmap Z FieldBinlog) * option error) * State :=
  let kvs : gmap string bytes := ∅ in
  if IsEmpty iData then (Returned (None, None), s)
  else
    let '(r, kvs1, s1) := genInsertBlobs iData partID segID meta kvs s in
    match r with
    | Err e => (Returned (None, Some e), s1)
    | Ok inpaths =>
        let '(o, s2) := uploadSegmentFiles sch ctx (ID meta) segID kvs1 s1 in
        match o with
        | Blocked => (Blocked, s2)
        | Returned (Some e) => (Returned (None, Some e), s2)
        | Returned None => (Returned (Some inpaths, None), s2)
        end
    end.

Definition uploadDeltaLog (sch : schedule) (ctx : bool) (segID partID : Z)
    (dData : DeleteData) (meta : CollectionMeta) (s : State)
  : outcome (option (list FieldBinlog) * option error) * State :=
  let deltaInfo : list FieldBinlog := [] in
  let kvs : gmap string bytes := ∅ in
  if (0 <? RowCount dData)%Z then
    let '(r, s1) := genDeltaBlobs dData (ID meta) partID segID s in
    match r with
    | Err e => (Returned (None, Some e), s1)
    | Ok (k, v) =>
        let kvs := <[k := v]> kvs in
        let deltaInfo :=
          deltaInfo ++ [{| FieldID := 0;
                           Binlogs := [{| EntriesNum := RowCount dData; LogPath := k;
                                          LogSize := Z.of_nat (length v) |}] |}] in
        let '(o, s2) := uploadSegmentFiles sch ctx (ID meta) segID kvs s1 in
        match o with
        | Blocked => (Blocked, s2)
        | Returned (Some e) => (Returned (None, Some e), s2)
        | Returned None => (Returned (Some deltaInfo, None), s2)
        end
    end
  else (Returned (None, None), s).

End BinlogIO.

(** ** The vocabulary of the statements *)

(** Neither a separator nor a dot: the characters of a decimal number. *)
Fixpoint idchars (s : string) : bool :=
  match s with
  | EmptyString => true
  | String c s' =>
      negb (Path.is_slash c) && negb (Ascii.eqb c ".") && idchars s'
  end.

(** The cleaned root followed by the given segments. *)
Definition key_of_segments (root : string) (segs : list string) : string :=
  (if Path.rooted root then "/" else "")
  +:+ Path.join_slash (Path.clean_comps (Path.rooted root) root ++ segs).

(** [&Blob{Value: val}]. *)
Definition blob_of (val : bytes) : Blob := {| Key := ""; Value := val; RowNum := 0 |}.

(** The calls of [b.Read] that task [i] made, in order. *)
Fixpoint reads_of (i : nat) (evs : list event) : list (string * res ext_error bytes) :=
  match evs with
  | [] => []
  | EvRead j path r :: evs' =>
      if (j =? i)%nat then (path, r) :: reads_of i evs' else reads_of i evs'
  | _ :: evs' => reads_of i evs'
  end.

(** The calls of [b.Write] that task [i] made, in order. *)
Fixpoint writes_of (i : nat) (evs : list event) : list (string * bytes * option ext_error) :=
  match evs with
  | [] => []
  | EvWrite j path val r :: evs' =>
      if (j =? i)%nat then (path, val, r) :: writes_of i evs' else writes_of i evs'
  | _ :: evs' => writes_of i evs'
  end.

(** The size recorded in every entry of [fb] is the length of the payload
    that [kvs] holds under the path of the entry. *)
Definition sized_in (kvs : gmap string bytes) (fb : FieldBinlog) : Prop :=
  forall bl, bl ∈ Binlogs fb ->
    exists v, kvs !! LogPath bl = Some v /\ LogSize bl = Z.of_nat (length v).

Section Vocabulary.
Context {W A : Type} {cm : ChunkManager W} {merr : Merr} {lp : LogPaths}.

(** The events that a call added to the trace. *)
Definition since (s s' : state W A) : list event :=
  drop (length (trace s)) (trace s').

(** A call of [b.Read] on [path] that failed with a retryable error. *)
Definition retryable_failure (path : string) (x : string * res ext_error bytes) : Prop :=
  exists e, x = (path, Err e) /\ IsRetryableErr e = true.

(** What the future of task [i] and the calls it made have to do with
    each other, at every moment of a download. *)
Definition read_task_inv (path : string)
    (f : future read_task bytes) (rs : list (string * res ext_error bytes)) : Prop :=
  match f with
  | Pending t =>
      rt_path t = path /\ rt_tried t = length rs /\ (length rs < Attempts)%nat
      /\ Forall (retryable_failure path) rs
  | Done (Ok val) =>
      exists rs', rs = rs' ++ [(path, Ok val)]
                  /\ Forall (retryable_failure path) rs'
                  /\ (length rs <= Attempts)%nat
  | Done (Err err) =>
      exists rs' e, err = errExternal e /\ rs = rs' ++ [(path, Err e)]
                    /\ Forall (retryable_failure path) rs'
                    /\ (length rs <= Attempts)%nat
                    /\ (IsRetryableErr e = false \/ length rs = Attempts)
  end.

Definition download_inv (paths : list string) (s : state W A)
    (p : pool read_task bytes (state W A)) : Prop :=
  length (futures p) = length paths
  /\ (exists evs, trace (st p) = trace s ++ evs)
  /\ ids (st p) = ids s
  /\ forall i path, paths !! i = Some path ->
       exists f, futures p !! i = Some f
                 /\ read_task_inv path f (reads_of i (since s (st p))).

(** What holds of the pool of an upload whose context was cancelled before
    the call: nothing was written, and a task either has not run or has
    returned [errUploadToBlobStorage]. *)
Definition cancelled_inv (s : state W A) (n : nat)
    (p : pool write_task unit (state W A)) : Prop :=
  ctxDone p = true /\ st p = s /\ length (futures p) = n
  /\ forall i f, futures p !! i = Some f ->
       (exists t, f = Pending t /\ wt_err t = Some errStart)
       \/ f = Done (Err errUploadToBlobStorage).

(** What the loop of [genInsertBlobs] keeps: the log of field [f] has one
    entry, its path is an insert key of [f], and the batch holds under
    that path a payload of the recorded size. *)
Definition insert_inv (meta : CollectionMeta) (partID segID : Z)
    (kvs : gmap string bytes) (inpaths : gmap Z FieldBinlog) : Prop :=
  forall f fb, inpaths !! f = Some fb ->
    exists idx n v,
      fb = {| FieldID := f;
              Binlogs := [{| EntriesNum := n;
                             LogPath := binlogKey RootPath SegmentInsertLogPath
                                          [ID meta; partID; segID; f; idx];
                             LogSize := Z.of_nat (length v) |}] |}
      /\ kvs !! binlogKey RootPath SegmentInsertLogPath [ID meta; partID; segID; f; idx]
         = Some v.

End Vocabulary.

(** ** More vocabulary: schedules, stores that keep what is written, and
    what every moment of an upload has in common *)

(** The value of the digits [d] read after digits worth [acc]. *)
Fixpoint digits_value (d : Decimal.uint) (acc : N) : N :=
  match d with
  | Decimal.Nil => acc
  | Decimal.D0 d => digits_value d (acc * 10 + 0)
  | Decimal.D1 d => digits_value d (acc * 10 + 1)
  | Decimal.D2 d => digits_value d (acc * 10 + 2)
  | Decimal.D3 d => digits_value d (acc * 10 + 3)
  | Decimal.D4 d => digits_value d (acc * 10 + 4)
  | Decimal.D5 d => digits_value d (acc * 10 + 5)
  | Decimal.D6 d => digits_value d (acc * 10 + 6)
  | Decimal.D7 d => digits_value d (acc * 10 + 7)
  | Decimal.D8 d => digits_value d (acc * 10 + 8)
  | Decimal.D9 d => digits_value d (acc * 10 + 9)
  end%N.

(** How many rounds the schedule gives to task [i]. *)
Fixpoint count_run (i : nat) (sched : list sched_event) : nat :=
  match sched with
  | [] => 0
  | Run j :: rest => (if (j =? i)%nat then 1 else 0) + count_run i rest
  | Cancel :: rest => count_run i rest
  end.

Definition is_cancel (e : sched_event) : bool :=
  match e with Cancel => true | Run _ => false end.

(** A task that has written its pair: it is about to leave its loop, or
    has returned nil. *)
Definition succeeded (f : future write_task unit) : Prop :=
  match f with
  | Pending t => wt_err t = None
  | Done (Ok _) => True
  | Done (Err _) => False
  end.

(** An event of an upload of [pairs]: a write of the pair of the task, or
    its sleep of 50ms. *)
Definition upload_event (pairs : list (string * bytes)) (ev : event) : Prop :=
  match ev with
  | EvWrite i k v _ => pairs !! i = Some (k, v)
  | EvSleep i ms => ms = 50%Z /\ (i < length pairs)%nat
  | _ => False
  end.

(** An event of a download of [paths]: a read, by task [i], of the path
    at index [i]. *)
Definition download_event (paths : list string) (ev : event) : Prop :=
  match ev with
  | EvRead i path _ => paths !! i = Some path
  | _ => False
  end.

(** What the future of the task of the pair [(k, v)] and the writes it
    made have to do with each other. *)
Definition write_task_inv (k : string) (v : bytes)
    (f : future write_task unit) (ws : list (string * bytes * option ext_error)) : Prop :=
  match f with
  | Pending t =>
      wt_path t = k /\ wt_val t = v
      /\ match wt_err t with
         | Some errStart => ws = []
         | Some (errExternal e) => exists ws', ws = ws' ++ [(k, v, Some e)]
         | Some errUploadToBlobStorage => False
         | None => exists ws', ws = ws' ++ [(k, v, None)]
         end
  | Done (Ok _) => exists ws', ws = ws' ++ [(k, v, None)]
  | Done (Err e) => e = errUploadToBlobStorage
  end.

Section Vocabulary2.
Context {W A : Type} {cm : ChunkManager W}.

(** [contents] tells what the store holds under each path, and the calls
    of the store respect it: a write that succeeds puts its value, a write
    that fails and a read change nothing, and a read that succeeds returns
    what is held. *)
Definition lawful (contents : W -> gmap string bytes) : Prop :=
  (forall d k v w w', Write d k v w = (None, w') -> contents w' = <[k := v]> (contents w))
  /\ (forall d k v w e w', Write d k v w = (Some e, w') -> contents w' = contents w)
  /\ (forall d k w v w', Read d k w = (Ok v, w') ->
        contents w !! k = Some v /\ contents w' = contents w)
  /\ (forall d k w e w', Read d k w = (Err e, w') -> contents w' = contents w).

(** What holds of the pool of an upload of [pairs] at every moment. *)
Definition upload_inv (pairs : list (string * bytes)) (s : state W A)
    (p : pool write_task unit (state W A)) : Prop :=
  length (futures p) = length pairs
  /\ ids (st p) = ids s
  /\ (ctxDone p = false -> forall i e, futures p !! i <> Some (Done (Err e)))
  /\ exists evs,
       trace (st p) = trace s ++ evs
       /\ Forall (upload_event pairs) evs
       /\ forall i k v, pairs !! i = Some (k, v) ->
            exists f, futures p !! i = Some f
                      /\ write_task_inv k v f (writes_of i evs).

(** What the store holds during an upload of [pairs]: under every path
    what it held before or the value of the pair of that path, and the
    value of the pair once its task has succeeded. *)
Definition contents_inv (contents : W -> gmap string bytes)
    (pairs : list (string * bytes)) (s : state W A)
    (p : pool write_task unit (state W A)) : Prop :=
  (forall key,
      contents (store (st p)) !! key = contents (store s) !! key
      \/ exists i v, pairs !! i = Some (key, v)
                     /\ contents (store (st p)) !! key = Some v)
  /\ forall i k v f, pairs !! i = Some (k, v) -> futures p !! i = Some f ->
       succeeded f -> contents (store (st p)) !! k = Some v.

(** What the store holds under the path of every pair, by the writes of
    the task of that pair so far: the value of the pair once a write of it
    has succeeded, and until then what it held when the upload began. *)
Definition written_inv (contents : W -> gmap string bytes)
    (pairs : list (string * bytes)) (s : state W A)
    (p : pool write_task unit (state W A)) : Prop :=
  exists evs,
    trace (st p) = trace s ++ evs
    /\ forall i k v, pairs !! i = Some (k, v) ->
         (In (k, v, None) (writes_of i evs) ->
            contents (store (st p)) !! k = Some v)
         /\ (~ In (k, v, None) (writes_of i evs) ->
            contents (store (st p)) !! k = contents (store s) !! k).

(** What holds of the pool of a download of [paths] at every moment, on a
    store with [contents]: only reads were made, of the listed paths, what
    they returned is what the store held, and the store holds the same. *)
Definition reading_inv (contents : W -> gmap string bytes)
    (paths : list string) (s : state W A)
    (p : pool read_task bytes (state W A)) : Prop :=
  contents (store (st p)) = contents (store s)
  /\ forall i path val, In (EvRead i path (Ok val)) (since s (st p)) ->
       contents (store s) !! path = Some val.

(** Nothing was written between [s] and [s1]: the store is the same and
    no event in between is a write. *)
Definition quiet (s s1 : state W A) : Prop :=
  store s1 = store s
  /\ exists evs, trace s1 = trace s ++ evs /\ forall i, writes_of i evs = [].

(** What the loop of [genInsertBlobs] keeps, with the blob behind every
    log: the log of field [f] has one entry, made of the last blob of that
    field, and the batch holds the payload of that blob under the path of
    the entry. *)
Definition insert_blob_inv {lp : LogPaths} (blobs : list Blob)
    (meta : CollectionMeta) (partID segID : Z)
    (kvs : gmap string bytes) (inpaths : gmap Z FieldBinlog) : Prop :=
  forall f fb, inpaths !! f = Some fb ->
    exists blob idx,
      blob ∈ blobs /\ ParseInt (Key blob) = f
      /\ fb = {| FieldID := f;
                 Binlogs := [{| EntriesNum := RowNum blob;
                                LogPath := binlogKey RootPath SegmentInsertLogPath
                                             [ID meta; partID; segID; f; idx];
                                LogSize := Z.of_nat (length (Value blob)) |}] |}
      /\ kvs !! binlogKey RootPath SegmentInsertLogPath [ID meta; partID; segID; f; idx]
         = Some (Value blob).

End Vocabulary2.

(** ** A store in memory, a counter and a codec, to run the code on *)

Module Demo.

(** An object store in memory.  [faults] are the errors of the calls to
    come: a call takes the head, and [None] lets it through. *)
Record mem := { objects : gmap string bytes; faults : list (option ext_error) }.

Definition next_fault (m : mem) : option ext_error * mem :=
  match faults m with
  | [] => (None, m)
  | f :: rest => (f, {| objects := objects m; faults := rest |})
  end.

Definition mem_read (path : string) (m : mem) : res ext_error bytes * mem :=
  let '(f, m') := next_fault m in
  match f with
  | Some e => (Err e, m')
  | None =>
      match objects m' !! path with
      | Some v => (Ok v, m')
      | None => (Err "not found", m')
      end
  end.

Definition mem_write (path : string) (val : bytes) (m : mem) : option ext_error * mem :=
  let '(f, m') := next_fault m in
  match f with
  | Some e => (Some e, m')
  | None => (None, {| objects := <[path := val]> (objects m'); faults := faults m' |})
  end.

#[export] Instance mem_store : ChunkManager mem :=
  {| RootPath := "files";
     Read := fun _ => mem_read;
     Write := fun _ => mem_write |}.

(** A store that rejects every write. *)
Inductive sealed := Sealed.

#[export] Instance sealed_store : ChunkManager sealed :=
  {| RootPath := "files";
     Read := fun _ _ w => (Err "not found", w);
     Write := fun _ _ _ w => (Some "read-only", w) |}.

(** An allocator that counts, unless it is broken. *)
Record counter := { next_id : Z; broken : bool }.

#[export] Instance counter_alloc : Allocator counter :=
  {| AllocOne := fun a =>
       if broken a then (Err "no id", a)
       else (Ok (next_id a), {| next_id := next_id a + 1; broken := false |});
     GetGenerator := fun count a =>
       if broken a then (Err "no id", a)
       else (Ok (map (fun k => (next_id a + Z.of_nat k)%Z) (seq 0 count)),
             {| next_id := next_id a + Z.of_nat count; broken := false |}) |}.

(** A codec: a batch is a list of columns, each the identifier of its
    field and its bytes; statistics are bytes, or nothing when they cannot
    be serialized. *)
Definition columns := list (Z * bytes).

#[export] Instance column_codec : Codec columns (option bytes) :=
  {| IsEmpty := fun data => forallb (fun col => (length col.2 =? 0)%nat) data;
     Serialize := fun _ _ _ data =>
       Ok (map (fun col => {| Key := FormatInt col.1; Value := col.2;
                              RowNum := Z.of_nat (length col.2) |}) data);
     SerializePkStats := fun _ stats totRows =>
       match stats with
       | Some v => Ok {| Key := "100"; Value := v; RowNum := totRows |}
       | None => Err "no stats"
       end;
     DeleteSerialize := fun _ _ _ data =>
       Ok {| Key := ""; Value := map (fun _ => Byte.x01) (Pks data);
             RowNum := RowCount data |} |}.

#[export] Instance timeouts : Merr :=
  {| IsRetryableErr := fun e => String.eqb e "timeout" |}.

#[export] Instance log_paths : LogPaths :=
  {| SegmentInsertLogPath := "insert_log";
     SegmentStatslogPath := "stats_log";
     SegmentDeltaLogPath := "delta_log" |}.

Definition store0 : mem :=
  {| objects := {[ "a" := [Byte.x0a]; "b" := [Byte.x0b; Byte.x0b] ]}; faults := [] |}.

Definition state0 (m : mem) : state mem counter :=
  {| store := m; ids := {| next_id := 7; broken := false |}; trace := [] |}.

Definition sealed0 : state sealed counter :=
  {| store := Sealed; ids := {| next_id := 7; broken := false |}; trace := [] |}.

Definition meta0 : CollectionMeta := {| ID := 1 |}.

Definition delete0 : DeleteData := {| Pks := [5; 6]%Z; Tss := [1; 1]%Z; RowCount := 2 |}.

Definition batch0 : columns := [(100%Z, [Byte.x01; Byte.x02]); (101%Z, [Byte.x03])].

(** Inputs of the runs. *)

Definition paths0 : list string := ["b"; "a"].

(** Task 1 runs before task 0. *)
Definition sched0 : list sched_event := [Run 1; Run 0].

(** A store whose next three calls fail: twice with a timeout, then for
    good. *)
Definition flaky : mem :=
  {| objects := objects store0;
     faults := [Some "timeout"; Some "timeout"; Some "boom"] |}.

Definition sched3 : list sched_event := [Run 0; Run 0; Run 0; Run 0; Run 0].

Definition paths2 : list string := ["a"; "missing"; "b"].
Definition sched2 : list sched_event := [Run 2; Run 1; Run 0].

(** A task on the store that rejects every write, after a first write. *)
Definition task0 : write_task :=
  {| wt_path := "k"; wt_val := [Byte.x01]; wt_err := Some (errExternal "read-only") |}.

Definition pool0 : pool write_task unit (state sealed counter) :=
  {| ctxDone := false; futures := [Pending task0]; st := sealed0 |}.

Definition batch1 : gmap string bytes := {[ "k" := [Byte.x01] ]}.

Definition sch0 : schedule :=
  {| range_order := [1%nat]; steps := [Run 1; Run 0; Run 0; Run 1; Run 2; Run 2] |}.

Definition no_rows : DeleteData := {| Pks := []; Tss := []; RowCount := 0 |}.

Definition sch1 : schedule := {| range_order := []; steps := [Run 0; Run 0] |}.

(** A schedule that cancels the context after a first round. *)
Definition sch_cancel : schedule :=
  {| range_order := []; steps := [Run 0; Cancel; Run 0] |}.

(** Five rounds for the one task of a batch of one pair. *)
Definition sch_five : schedule :=
  {| range_order := []; steps := [Run 0; Run 0; Run 0; Run 0; Run 0] |}.

(** A store whose first call goes through and whose next three calls time
    out, and a download of two paths in which the task of the second path
    runs first. *)
Definition slow : mem :=
  {| objects := objects store0;
     faults := [None; Some "timeout"; Some "timeout"; Some "timeout"] |}.

Definition paths_late : list string := ["a"; "missing"].
Definition sched_late : list sched_event := [Run 1; Run 0; Run 0; Run 0].

(** A batch of two pairs, a store whose second call fails, and a schedule
    that cancels the context once each task has written once. *)
Definition batch3 : gmap string bytes := {[ "k" := [Byte.x01]; "m" := [Byte.x02] ]}.

Definition half : mem := {| objects := objects store0; faults := [None; Some "boom"] |}.

Definition sch_half : schedule :=
  {| range_order := []; steps := [Run 0; Run 1; Cancel; Run 0; Run 1] |}.

(** A field given twice by the codec. *)
Definition batch2 : columns := [(100%Z, [Byte.x01]); (100%Z, [Byte.x02; Byte.x03])].

End Demo.

(** ** Facts on paths *)

Section PathFacts.
Import Path.

Lemma split_slash_not_nil s : split_slash s <> [].
Proof.
  destruct s as [|c s]; simpl; [discriminate|].
  destruct (is_slash c); [discriminate|].
  destruct (split_slash s); discriminate.
Qed.

Lemma split_slash_app a b :
  split_slash (a +:+ "/" +:+ b) = split_slash a ++ split_slash b.
Proof.
  induction a as [|c a IH]; simpl; [reflexivity|].
  destruct (is_slash c); [now rewrite IH|].
  rewrite IH. pose proof (split_slash_not_nil a) as Hn.
  destruct (split_slash a); [contradiction|reflexivity].
Qed.

Lemma split_slash_free s : has_slash s = false -> split_slash s = [s].
Proof.
  induction s as [|c s IH]; simpl; [reflexivity|].
  intros H. apply orb_false_iff in H as [Hc Hs].
  rewrite Hc, (IH Hs). reflexivity.
Qed.

Lemma split_slash_comps s : Forall (fun c => has_slash c = false) (split_slash s).
Proof.
  induction s as [|c s IH]; simpl; [repeat constructor|].
  destruct (is_slash c) eqn:Hc; [constructor; [reflexivity|exact IH]|].
  destruct (split_slash s) as [|h t]; [repeat constructor; simpl; now rewrite Hc|].
  inversion IH; subst. constructor; [simpl; now rewrite Hc|assumption].
Qed.

Lemma split_join l :
  l <> [] -> Forall (fun c => has_slash c = false) l ->
  split_slash (join_slash l) = l.
Proof.
  induction l as [|x l IH]; [congruence|].
  intros _ H. inversion H as [|? ? Hx Hl]; subst.
  destruct l as [|y l].
  - simpl. now apply split_slash_free.
  - change (join_slash (x :: y :: l)) with (x +:+ "/" +:+ join_slash (y :: l)).
    rewrite split_slash_app, split_slash_free by assumption.
    rewrite IH by (congruence || assumption). reflexivity.
Qed.

Lemma join_slash_cons x l :
  l <> [] -> join_slash (x :: l) = x +:+ "/" +:+ join_slash l.
Proof. destruct l; [congruence|reflexivity]. Qed.

Lemma join_slash_inj l1 l2 :
  l1 <> [] -> l2 <> [] ->
  Forall (fun c => has_slash c = false) l1 ->
  Forall (fun c => has_slash c = false) l2 ->
  join_slash l1 = join_slash l2 -> l1 = l2.
Proof.
  intros N1 N2 F1 F2 E.
  rewrite <- (split_join l1 N1 F1), <- (split_join l2 N2 F2). now rewrite E.
Qed.

Lemma plain_spec c :
  plain c = true ->
  c <> "" /\ c <> "." /\ c <> ".." /\ has_slash c = false.
Proof.
  unfold plain. rewrite !andb_true_iff, !negb_true_iff.
  intros [[[H1 H2] H3] H4].
  apply String.eqb_neq in H1, H2, H3. auto.
Qed.

Lemma plain_no_slash l :
  Forall (fun c => plain c = true) l -> Forall (fun c => has_slash c = false) l.
Proof.
  intros H. eapply Forall_impl; [exact H|].
  intros c Hc. now apply plain_spec in Hc.
Qed.

Lemma clean_step_plain r out c : plain c = true -> clean_step r out c = c :: out.
Proof.
  intros H. apply plain_spec in H as (H1 & H2 & H3 & _).
  apply String.eqb_neq in H1, H2, H3.
  unfold clean_step. now rewrite H1, H2, H3.
Qed.

Lemma clean_fold_plain r ps out :
  Forall (fun c => plain c = true) ps ->
  fold_left (clean_step r) ps out = rev ps ++ out.
Proof.
  revert out. induction ps as [|p ps IH]; intros out H; [reflexivity|].
  inversion H; subst. simpl. rewrite clean_step_plain by assumption.
  rewrite IH by assumption. now rewrite <- app_assoc.
Qed.

Lemma clean_step_no_slash r out c :
  has_slash c = false ->
  Forall (fun c => has_slash c = false) out ->
  Forall (fun c => has_slash c = false) (clean_step r out c).
Proof.
  intros Hc Ho. unfold clean_step.
  destruct (String.eqb c "" || String.eqb c "."); [assumption|].
  destruct (String.eqb c "..").
  - destruct out as [|top rest].
    + destruct r; repeat constructor; assumption.
    + destruct (String.eqb top ".."); [now constructor|now inversion Ho].
  - now constructor.
Qed.

Lemma clean_fold_no_slash r cs out :
  Forall (fun c => has_slash c = false) cs ->
  Forall (fun c => has_slash c = false) out ->
  Forall (fun c => has_slash c = false) (fold_left (clean_step r) cs out).
Proof.
  revert out. induction cs as [|c cs IH]; intros out Hc Ho; [assumption|].
  inversion Hc; subst. simpl. apply IH; [assumption|].
  now apply clean_step_no_slash.
Qed.

Lemma clean_comps_no_slash r p :
  Forall (fun c => has_slash c = false) (clean_comps r p).
Proof.
  unfold clean_comps. apply Forall_rev.
  apply clean_fold_no_slash; [apply split_slash_comps|constructor].
Qed.

End PathFacts.

(** ** Facts on decimal identifiers and on keys *)

Section KeyFacts.
Import Path.

Lemma idchars_plain s : s <> "" -> idchars s = true -> plain s = true.
Proof.
  assert (Hs : forall t, idchars t = true -> has_slash t = false).
  { induction t as [|c t IH]; simpl; [reflexivity|].
    rewrite !andb_true_iff, !negb_true_iff. intros [[Hc _] Ht].
    now rewrite Hc, IH. }
  intros Hne Hid. unfold plain. rewrite (Hs s Hid).
  destruct s as [|c s]; [congruence|].
  simpl in Hid. rewrite !andb_true_iff, !negb_true_iff in Hid.
  destruct Hid as [[_ Hdot] _].
  assert (c <> "."%char) by (now apply Ascii.eqb_neq).
  assert (String.eqb (String c s) "." = false) as ->
    by (apply String.eqb_neq; congruence).
  assert (String.eqb (String c s) ".." = false) as ->
    by (apply String.eqb_neq; congruence).
  reflexivity.
Qed.

Lemma idchars_uint d : idchars (NilEmpty.string_of_uint d) = true.
Proof. induction d; simpl; auto. Qed.

Lemma FormatInt_plain id : plain (FormatInt id) = true.
Proof.
  unfold FormatInt. apply idchars_plain.
  - destruct (Z.to_int id) as [d|d]; simpl; [|discriminate].
    destruct d; simpl; discriminate.
  - destruct (Z.to_int id) as [d|d]; simpl.
    + destruct d; try reflexivity; apply (idchars_uint (_ d)) || apply idchars_uint.
    + destruct d; try reflexivity; apply idchars_uint.
Qed.

Lemma FormatInt_inj a b : FormatInt a = FormatInt b -> a = b.
Proof.
  unfold FormatInt. intros E.
  assert (Hn : forall z, Z.to_int z <> Decimal.Pos Decimal.Nil
                         /\ Z.to_int z <> Decimal.Neg Decimal.Nil).
  { intros z. split; intros H; pose proof (f_equal Z.of_int H) as H2;
      rewrite DecimalZ.of_to in H2; simpl in H2; subst z; discriminate H. }
  apply (f_equal NilZero.int_of_string) in E.
  rewrite !NilZero.isi in E by apply Hn.
  injection E as E. apply (f_equal Z.of_int) in E.
  now rewrite !DecimalZ.of_to in E.
Qed.

Lemma FormatInt_map_inj l1 l2 : map FormatInt l1 = map FormatInt l2 -> l1 = l2.
Proof.
  revert l2. induction l1 as [|a l1 IH]; destruct l2 as [|b l2]; simpl;
    try congruence.
  intros E. injection E as E1 E2. f_equal; [now apply FormatInt_inj|now apply IH].
Qed.

Lemma FormatInt_map_plain ids : Forall (fun c => plain c = true) (map FormatInt ids).
Proof. induction ids; simpl; constructor; [apply FormatInt_plain|assumption]. Qed.

Lemma join_slash_not_empty x l : x <> "" -> join_slash (x :: l) <> "".
Proof.
  destruct l; simpl; [auto|]. destruct x; [congruence|]. discriminate.
Qed.

Lemma rooted_app p q : p <> "" -> rooted (p +:+ q) = rooted p.
Proof. destruct p; [congruence|reflexivity]. Qed.

Lemma rooted_plain c : plain c = true -> rooted c = false.
Proof.
  intros H. apply plain_spec in H as (Hne & _ & _ & Hs).
  destruct c; [congruence|]. simpl in *. now apply orb_false_iff in Hs.
Qed.

Lemma Clean_not_empty p :
  p <> "" ->
  Clean p =
    let body := join_slash (clean_comps (rooted p) p) in
    if rooted p then String "/" body
    else match body with
         | EmptyString => "."
         | _ => body
         end.
Proof. destruct p; [congruence|reflexivity]. Qed.

(** [Clean] leaves a path of plain elements as it is. *)
Lemma Clean_plain ps :
  ps <> [] -> Forall (fun c => plain c = true) ps ->
  Clean (join_slash ps) = join_slash ps.
Proof.
  intros Hne Hp. destruct ps as [|x ps]; [congruence|].
  inversion Hp as [|? ? Hx Hps]; subst.
  pose proof (plain_spec _ Hx) as (Hx0 & _).
  pose proof (join_slash_not_empty x ps Hx0) as Hj.
  rewrite Clean_not_empty by assumption. cbv zeta.
  assert (Hr : rooted (join_slash (x :: ps)) = false).
  { destruct ps; [now apply rooted_plain|].
    rewrite join_slash_cons by congruence.
    rewrite rooted_app by assumption. now apply rooted_plain. }
  rewrite Hr. unfold clean_comps.
  rewrite split_join by (congruence || now apply plain_no_slash).
  rewrite clean_fold_plain by assumption.
  rewrite app_nil_r, rev_involutive.
  destruct (join_slash (x :: ps)); [congruence|reflexivity].
Qed.

(** [Clean] of a path that ends in plain elements keeps them, after the
    cleaned elements of what comes before. *)
Lemma Clean_plain_suffix pre ps :
  pre <> "" -> ps <> [] -> Forall (fun c => plain c = true) ps ->
  Clean (pre +:+ "/" +:+ join_slash ps) =
    (if rooted pre then "/" else "")
    +:+ join_slash (clean_comps (rooted pre) pre ++ ps).
Proof.
  intros Hpre Hne Hp.
  assert (Hs : pre +:+ "/" +:+ join_slash ps <> "") by (destruct pre; [congruence|discriminate]).
  rewrite Clean_not_empty by assumption. cbv zeta.
  rewrite rooted_app by assumption.
  assert (Hc : clean_comps (rooted pre) (pre +:+ "/" +:+ join_slash ps)
               = clean_comps (rooted pre) pre ++ ps).
  { unfold clean_comps.
    rewrite split_slash_app, split_join by (assumption || now apply plain_no_slash).
    rewrite fold_left_app, clean_fold_plain by assumption.
    now rewrite rev_app_distr, rev_involutive. }
  rewrite Hc. clear Hc.
  destruct ps as [|x ps]; [congruence|].
  inversion Hp as [|? ? Hx _]; subst.
  pose proof (plain_spec _ Hx) as (Hx0 & _).
  assert (Hb : join_slash (clean_comps (rooted pre) pre ++ x :: ps) <> "").
  { induction (clean_comps (rooted pre) pre) as [|c cs IH].
    - now apply join_slash_not_empty.
    - simpl app. rewrite join_slash_cons by (destruct cs; discriminate).
      destruct c; simpl; [discriminate|discriminate]. }
  destruct (rooted pre); [reflexivity|].
  change ("" +:+ ?s) with s.
  destruct (join_slash (clean_comps false pre ++ x :: ps)); [congruence|reflexivity].
Qed.

Lemma JoinIDPath_eq ids :
  ids <> [] -> JoinIDPath ids = join_slash (map FormatInt ids).
Proof.
  intros Hne. unfold JoinIDPath, Join.
  assert (Hf : List.filter (fun e => negb (String.eqb e "")) (map FormatInt ids)
               = map FormatInt ids).
  { induction ids as [|a l IH]; [reflexivity|]. simpl.
    pose proof (plain_spec _ (FormatInt_plain a)) as (H0 & _).
    apply String.eqb_neq in H0.
    rewrite H0. simpl. f_equal.
    destruct l; [reflexivity|]. apply IH. congruence. }
  rewrite Hf. destruct ids as [|a l]; [congruence|].
  simpl map. rewrite <- (Clean_plain (FormatInt a :: map FormatInt l));
    [reflexivity|congruence|apply (FormatInt_map_plain (a :: l))].
Qed.

(** The shape of every key: the cleaned root, the log path, then the
    identifiers in decimal, separated by slashes. *)
Lemma binlogKey_eq root logPath ids :
  plain logPath = true -> ids <> [] ->
  binlogKey root logPath ids =
    (if rooted root then "/" else "")
    +:+ join_slash (clean_comps (rooted root) root
                    ++ logPath :: map FormatInt ids).
Proof.
  intros HL Hne. unfold binlogKey. rewrite JoinIDPath_eq by assumption.
  pose proof (plain_spec _ HL) as (HL0 & _).
  assert (Hk : join_slash (map FormatInt ids) <> "").
  { destruct ids as [|a l]; [congruence|]. simpl map.
    apply join_slash_not_empty.
    now pose proof (plain_spec _ (FormatInt_plain a)) as (H0 & _). }
  assert (Hps : Forall (fun c => plain c = true) (logPath :: map FormatInt ids))
    by (constructor; [assumption|apply FormatInt_map_plain]).
  assert (Hm : map FormatInt ids <> []) by (destruct ids; [congruence|discriminate]).
  unfold Join. simpl List.filter.
  apply String.eqb_neq in HL0, Hk. rewrite HL0, Hk. simpl.
  destruct (String.eqb root "") eqn:Hroot; simpl.
  - apply String.eqb_eq in Hroot. subst root. simpl.
    rewrite <- join_slash_cons by assumption.
    rewrite Clean_plain by (congruence || assumption). destruct (map FormatInt ids); [congruence|reflexivity].
  - apply String.eqb_neq in Hroot.
    rewrite <- (join_slash_cons logPath) by assumption.
    now rewrite Clean_plain_suffix by (congruence || assumption).
Qed.

(** Two keys under one root are equal only for the same log path and the
    same identifiers. *)
Lemma binlogKey_inj root l1 l2 ids1 ids2 :
  plain l1 = true -> plain l2 = true -> ids1 <> [] -> ids2 <> [] ->
  binlogKey root l1 ids1 = binlogKey root l2 ids2 ->
  l1 = l2 /\ ids1 = ids2.
Proof.
  intros H1 H2 N1 N2 E. rewrite !binlogKey_eq in E by assumption.
  assert (E' : join_slash (clean_comps (rooted root) root ++ l1 :: map FormatInt ids1)
             = join_slash (clean_comps (rooted root) root ++ l2 :: map FormatInt ids2)).
  { destruct (rooted root); cbn [String.append] in E; [injection E as E|]; exact E. }
  apply join_slash_inj in E'.
  - apply app_inv_head in E'. injection E' as -> E'.
    split; [reflexivity|now apply FormatInt_map_inj].
  - destruct (clean_comps _ _); discriminate.
  - destruct (clean_comps _ _); discriminate.
  - apply Forall_app; split; [apply clean_comps_no_slash|].
    apply plain_no_slash. constructor; [assumption|apply FormatInt_map_plain].
  - apply Forall_app; split; [apply clean_comps_no_slash|].
    apply plain_no_slash. constructor; [assumption|apply FormatInt_map_plain].
Qed.

End KeyFacts.

Example key1 : binlogKey "files" "insert_log" [1;2;3;100;7]%Z = "files/insert_log/1/2/3/100/7".
Proof. reflexivity. Qed.
Example key2 : binlogKey "/a//b/../c/" "delta_log" [1;-2;3;0]%Z = "/a/c/delta_log/1/-2/3/0".
Proof. reflexivity. Qed.
Example key3 : binlogKey "" "stats_log" [1;2]%Z = "stats_log/1/2".
Proof. reflexivity. Qed.

(** ** The pool, whatever the tasks *)

Section PoolFacts.
Context {T V S : Type}.
Variable step : bool -> nat -> T -> S -> future T V * S.

Lemma run_pool_app s1 s2 (p : pool T V S) :
  run_pool step (s1 ++ s2) p = run_pool step s2 (run_pool step s1 p).
Proof. apply fold_left_app. Qed.

(** What one move keeps, every schedule keeps. *)
Lemma run_pool_ind (P : pool T V S -> Prop) :
  (forall p e, P p -> P (pool_step step p e)) ->
  forall sched p, P p -> P (run_pool step sched p).
Proof.
  intros Hstep sched. induction sched as [|e sched IH]; intros p Hp; [exact Hp|].
  simpl. apply IH, Hstep, Hp.
Qed.

Lemma run_pool_length sched (p : pool T V S) :
  length (futures (run_pool step sched p)) = length (futures p).
Proof.
  apply (run_pool_ind (fun q => length (futures q) = length (futures p)));
    [|reflexivity].
  intros q e Hq. destruct e as [i|]; simpl; [|exact Hq].
  destruct (futures q !! i) as [[t|r]|]; try exact Hq.
  destruct (step (ctxDone q) i t (st q)). simpl. now rewrite length_insert.
Qed.

(** A cancelled context stays cancelled. *)
Lemma run_pool_ctxDone sched (p : pool T V S) :
  ctxDone p = true -> ctxDone (run_pool step sched p) = true.
Proof.
  intros Hp. apply (run_pool_ind (fun q => ctxDone q = true)); [|exact Hp].
  intros q e Hq. destruct e as [i|]; simpl; [|reflexivity].
  destruct (futures q !! i) as [[t|r]|]; try exact Hq.
  now destruct (step (ctxDone q) i t (st q)).
Qed.
End PoolFacts.

(** ** download *)

Section DownloadFacts.
Context {W A : Type} {cm : ChunkManager W} {merr : Merr}.

Lemma reads_of_app i e1 e2 : reads_of i (e1 ++ e2) = reads_of i e1 ++ reads_of i e2.
Proof.
  induction e1 as [|ev e1 IH]; [reflexivity|]. simpl.
  destruct ev; try exact IH. destruct (task =? i)%nat; [|exact IH].
  simpl. now rewrite IH.
Qed.

Lemma since_app (s s' : state W A) evs :
  trace s' = trace s ++ evs -> since s s' = evs.
Proof. intros H. unfold since. rewrite H. apply drop_app_length. Qed.

Lemma read_step_inv done i path t (s : state W A) rs :
  read_task_inv path (Pending t) rs ->
  exists r, (read_step done i t s).2
            = {| store := (Read done path (store s)).2; ids := ids s;
                 trace := trace s ++ [EvRead i path r] |}
            /\ read_task_inv path (read_step done i t s).1 (rs ++ [(path, r)]).
Proof.
  intros (Hp & Ht & Hlt & Hall). unfold read_step. rewrite Hp.
  destruct (Read done path (store s)) as [r w'] eqn:HR.
  exists r. unfold read_task_inv, retry_round, Attempts in *.
  destruct r as [val|e]; simpl.
  - split; [reflexivity|]. exists rs. split; [reflexivity|]. split; [assumption|].
    rewrite length_app. simpl. lia.
  - destruct (IsRetryableErr e) eqn:He; simpl.
    + destruct (Nat.ltb_spec (S (rt_tried t)) 3) as [Hlt3|Hge3]; simpl.
      * split; [reflexivity|]. rewrite length_app. simpl.
        repeat split; try lia.
        apply Forall_app. split; [assumption|]. repeat constructor. now exists e.
      * split; [reflexivity|]. exists rs, e. rewrite length_app. simpl.
        split; [reflexivity|]. split; [reflexivity|]. split; [assumption|].
        split; lia.
    + split; [reflexivity|]. exists rs, e. rewrite length_app. simpl.
      split; [reflexivity|]. split; [reflexivity|]. split; [assumption|].
      split; [lia|now left].
Qed.

Lemma download_inv_step paths (s : state W A) p e :
  download_inv paths s p -> download_inv paths s (pool_step read_step p e).
Proof.
  intros (Hlen & [evs Hevs] & Hids & Htasks).
  destruct e as [i|]; simpl; [|repeat split; eauto].
  destruct (futures p !! i) as [[t|r]|] eqn:Hfi; try (repeat split; eauto; fail).
  assert (Hi : (i < length paths)%nat)
    by (rewrite <- Hlen; eapply lookup_lt_Some; eassumption).
  destruct (lookup_lt_is_Some_2 paths i Hi) as [path Hpath].
  destruct (Htasks i path Hpath) as (f & Hf & Hinv).
  rewrite Hfi in Hf. injection Hf as <-.
  destruct (read_step_inv (ctxDone p) i path t (st p) _ Hinv) as (r & Hst & Hinv').
  destruct (read_step (ctxDone p) i t (st p)) as [f' s'] eqn:Hstep.
  simpl in Hst, Hinv'. subst s'. simpl.
  assert (Hsince : since s {| store := (Read (ctxDone p) path (store (st p))).2;
                              ids := ids (st p);
                              trace := trace (st p) ++ [EvRead i path r] |}
                   = since s (st p) ++ [EvRead i path r]).
  { rewrite (since_app s (st p) evs Hevs).
    apply since_app. simpl. rewrite Hevs. now rewrite <- app_assoc. }
  unfold download_inv. simpl.
  split; [now rewrite length_insert|].
  split; [exists (evs ++ [EvRead i path r]); rewrite Hevs; now rewrite <- app_assoc|].
  split; [exact Hids|].
  intros j pj Hj. rewrite Hsince, reads_of_app. simpl.
  destruct (Nat.eqb_spec i j) as [->|Hne].
  - rewrite Hpath in Hj. injection Hj as <-.
    exists f'. split; [|exact Hinv'].
    apply list_lookup_insert_eq. rewrite Hlen. exact Hi.
  - rewrite app_nil_r. destruct (Htasks j pj Hj) as (fj & Hfj & Hinvj).
    exists fj. split; [|exact Hinvj]. now rewrite list_lookup_insert_ne.
Qed.

Lemma download_inv_run sched ctx paths (s : state W A) :
  download_inv paths s (download_pool sched ctx paths s).
Proof.
  unfold download_pool. apply run_pool_ind; [apply download_inv_step|].
  split; [simpl; now rewrite length_map|].
  split; [exists []; simpl; now rewrite app_nil_r|].
  split; [reflexivity|].
  intros i path Hi. simpl. rewrite list_lookup_fmap, Hi. simpl.
  eexists. split; [reflexivity|].
  unfold since. simpl. rewrite drop_all. simpl.
  unfold Attempts. repeat split; [lia|constructor].
Qed.
End DownloadFacts.

Section DownloadTheorems.
Context {W A : Type} {cm : ChunkManager W} {merr : Merr}.

(** When the loop over the futures returns blobs, every future held a
    value, and the value of future [k] is at index [i + k]. *)
Lemma await_blobs_ok (fs : list (future read_task bytes)) :
  forall i resp out err,
  await_blobs fs i resp = Returned (Some out, err) ->
  err = None /\ length out = length resp
  /\ (forall j, (j < i)%nat -> out !! j = resp !! j)
  /\ (forall k f, fs !! k = Some f ->
        exists val, f = Done (Ok val)
                    /\ ((i + k < length resp)%nat ->
                        out !! (i + k)%nat = Some (Some (blob_of val)))).
Proof.
  induction fs as [|f fs IH]; intros i resp out err H; simpl in H.
  - injection H as <- <-. repeat split; try reflexivity.
    intros k f Hk. now rewrite lookup_nil in Hk.
  - destruct f as [t|[val|e]]; try discriminate.
    apply IH in H as (-> & Hlen & Hlow & Hfs).
    rewrite length_insert in Hlen.
    split; [reflexivity|]. split; [exact Hlen|]. split.
    + intros j Hj. rewrite Hlow by lia. apply list_lookup_insert_ne. lia.
    + intros [|k] g Hk; simpl in Hk.
      * injection Hk as <-. exists val. split; [reflexivity|]. intros Hi.
        rewrite Nat.add_0_r in *. rewrite Hlow by lia.
        now apply list_lookup_insert_eq.
      * destruct (Hfs k g Hk) as (v & -> & Hv). exists v. split; [reflexivity|].
        intros Hi. rewrite length_insert in Hv.
        replace (i + S k)%nat with (S i + k)%nat by lia. apply Hv. lia.
Qed.

(** The loop returns the error of the first future that failed, once the
    futures before it hold values. *)
Lemma await_blobs_err (fs : list (future read_task bytes)) :
  forall j e i resp,
  fs !! j = Some (Done (Err e)) ->
  (forall k, (k < j)%nat -> exists val, fs !! k = Some (Done (Ok val))) ->
  await_blobs fs i resp = Returned (None, Some e).
Proof.
  induction fs as [|f fs IH]; intros j e i resp Hj Hbefore.
  - now rewrite lookup_nil in Hj.
  - destruct j as [|j]; simpl in Hj.
    + injection Hj as ->. reflexivity.
    + destruct (Hbefore 0%nat ltac:(lia)) as (val & Hval). simpl in Hval.
      injection Hval as ->. simpl. apply (IH j); [exact Hj|].
      intros k Hk. apply (Hbefore (S k)). lia.
Qed.

(** Among futures that are all done up to [j], where [j] failed, there is
    a first one that failed. *)
Lemma first_failure (fs : list (future read_task bytes)) :
  forall j e,
  fs !! j = Some (Done (Err e)) ->
  (forall k, (k < j)%nat -> exists r, fs !! k = Some (Done r)) ->
  exists i e', (i <= j)%nat /\ fs !! i = Some (Done (Err e'))
               /\ forall k, (k < i)%nat -> exists val, fs !! k = Some (Done (Ok val)).
Proof.
  induction fs as [|f fs IH]; intros j e Hj Hdone.
  - now rewrite lookup_nil in Hj.
  - destruct j as [|j]; simpl in Hj.
    + exists 0%nat, e. split; [lia|]. split; [simpl; now rewrite Hj|]. intros k Hk. lia.
    + destruct (Hdone 0%nat ltac:(lia)) as (r & Hr). simpl in Hr. injection Hr as ->.
      destruct r as [val|e0].
      * destruct (IH j e Hj) as (i & e' & Hi & Hfi & Hlow).
        { intros k Hk. apply (Hdone (S k)). lia. }
        exists (S i), e'. split; [lia|]. split; [exact Hfi|].
        intros [|k] Hk; [now exists val|]. apply Hlow. lia.
      * exists 0%nat, e0. split; [lia|]. split; [reflexivity|]. intros k Hk. lia.
Qed.

Lemma download_state sched ctx paths (s : state W A) :
  paths <> [] ->
  download sched ctx paths s
  = (await_blobs (futures (download_pool sched ctx paths s)) 0
       (replicate (length paths) None),
     st (download_pool sched ctx paths s)).
Proof. destruct paths; [congruence|reflexivity]. Qed.

(** C1: a successful download returns as many blobs as there were paths,
    and the blob at index [i] holds the bytes that the last read of task
    [i], a read of the path at index [i], returned; this for every
    schedule of the tasks. *)
Theorem download_keeps_order sched ctx (paths : list string) (s s' : state W A) resp :
  download sched ctx paths s = (Returned (Some resp, None), s') ->
  length resp = length paths
  /\ forall i path, paths !! i = Some path ->
       exists val, resp !! i = Some (Some (blob_of val))
                   /\ last (reads_of i (since s s')) = Some (path, Ok val).
Proof.
  intros H. destruct (decide (paths = [])) as [->|Hne].
  - injection H as <- <-. split; [reflexivity|].
    intros i path Hi. now rewrite lookup_nil in Hi.
  - rewrite download_state in H by exact Hne.
    injection H as Hres <-.
    apply await_blobs_ok in Hres as (_ & Hlen & _ & Hfs).
    rewrite length_replicate in Hlen, Hfs. split; [exact Hlen|].
    intros i path Hi.
    destruct (download_inv_run sched ctx paths s) as (_ & _ & _ & Htasks).
    destruct (Htasks i path Hi) as (f & Hf & Hinv).
    destruct (Hfs i f Hf) as (val & -> & Hout). exists val. split.
    + apply Hout. simpl. now apply lookup_lt_Some in Hi.
    + destruct Hinv as (rs' & -> & _). apply last_snoc.
Qed.

(** C6: in a download, whatever the schedule, the path at index [i] is
    read at most three times; every read but the last failed with a
    retryable error; and once a read failed with an error that is not
    retryable, it is the last read of that path and the error is the result
    of the task. *)
Theorem download_attempts sched ctx (paths : list string) (s : state W A) i path :
  paths !! i = Some path ->
  let p := download_pool sched ctx paths s in
  let rs := reads_of i (since s (download sched ctx paths s).2) in
  (length rs <= 3)%nat
  /\ (forall k x, rs !! k = Some x -> (S k < length rs)%nat ->
        exists e, x = (path, Err e) /\ IsRetryableErr e = true)
  /\ (forall k e, rs !! k = Some (path, Err e) -> IsRetryableErr e = false ->
        S k = length rs /\ futures p !! i = Some (Done (Err (errExternal e)))).
Proof.
  intros Hi p rs. subst p rs.
  assert (Hne : paths <> []) by (intros ->; now rewrite lookup_nil in Hi).
  rewrite download_state by exact Hne. simpl.
  destruct (download_inv_run sched ctx paths s) as (_ & _ & _ & Htasks).
  destruct (Htasks i path Hi) as (f & Hf & Hinv). rewrite Hf.
  set (rs := reads_of i (since s (st (download_pool sched ctx paths s)))) in *.
  assert (Hretry : forall (l : list (string * res ext_error bytes)) k e,
             Forall (retryable_failure path) l ->
             l !! k = Some (path, Err e) -> IsRetryableErr e = false -> False).
  { intros l k e Hall Hk He. rewrite Forall_lookup in Hall.
    destruct (Hall k _ Hk) as (e' & Heq & He'). congruence. }
  destruct f as [t|[val|err]]; simpl in Hinv.
  - destruct Hinv as (_ & _ & Hlt & Hall). unfold Attempts in Hlt.
    split; [lia|]. split.
    + intros k x Hk _. rewrite Forall_lookup in Hall. exact (Hall k x Hk).
    + intros k e Hk He. destruct (Hretry rs k e Hall Hk He).
  - destruct Hinv as (rs' & Hrs & Hall & Hle). unfold Attempts in Hle.
    split; [lia|]. rewrite Hrs. rewrite length_app. simpl. split.
    + intros k x Hk Hlt. rewrite lookup_app_l in Hk by lia.
      rewrite Forall_lookup in Hall. exact (Hall k x Hk).
    + intros k e Hk He.
      destruct (Nat.lt_ge_cases k (length rs')) as [Hlt|Hge].
      * rewrite lookup_app_l in Hk by lia. destruct (Hretry rs' k e Hall Hk He).
      * rewrite lookup_app_r in Hk by lia.
        destruct (k - length rs')%nat; simpl in Hk; [discriminate|].
        now rewrite lookup_nil in Hk.
  - destruct Hinv as (rs' & e0 & -> & Hrs & Hall & Hle & _). unfold Attempts in Hle.
    split; [lia|]. rewrite Hrs. rewrite length_app. simpl. split.
    + intros k x Hk Hlt. rewrite lookup_app_l in Hk by lia.
      rewrite Forall_lookup in Hall. exact (Hall k x Hk).
    + intros k e Hk He.
      destruct (Nat.lt_ge_cases k (length rs')) as [Hlt|Hge].
      * rewrite lookup_app_l in Hk by lia. destruct (Hretry rs' k e Hall Hk He).
      * rewrite lookup_app_r in Hk by lia.
        destruct (k - length rs')%nat as [|d] eqn:Hd; simpl in Hk.
        -- injection Hk as <-. split; [lia|reflexivity].
        -- now rewrite lookup_nil in Hk.
Qed.

(** C7: when a task of a download has failed, the download returns no
    blob at all; once the tasks before it are done, the download returns
    nil and the error of the first task that failed, in the order of the
    paths: every task before that one succeeded; and that is the error of
    this task when the tasks before it succeeded. *)
Theorem download_fails_whole sched ctx (paths : list string) (s : state W A) j e :
  let fs := futures (download_pool sched ctx paths s) in
  let result := (download sched ctx paths s).1 in
  fs !! j = Some (Done (Err e)) ->
  (forall blobs err, result <> Returned (Some blobs, err))
  /\ ((forall k, (k < j)%nat -> exists r, fs !! k = Some (Done r)) ->
      exists i e', (i <= j)%nat /\ fs !! i = Some (Done (Err e'))
                   /\ (forall k, (k < i)%nat ->
                         exists val, fs !! k = Some (Done (Ok val)))
                   /\ result = Returned (None, Some e'))
  /\ ((forall k, (k < j)%nat -> exists val, fs !! k = Some (Done (Ok val))) ->
      result = Returned (None, Some e)).
Proof.
  intros fs result Hj. subst fs result.
  assert (Hne : paths <> []).
  { intros ->. unfold download_pool in Hj.
    pose proof (run_pool_length read_step sched
                  {| ctxDone := ctx; futures := []; st := s |}) as Hl.
    simpl in Hj, Hl. apply lookup_lt_Some in Hj. lia. }
  rewrite download_state by exact Hne. simpl.
  split; [|split].
  - intros blobs err H. apply await_blobs_ok in H as (_ & _ & _ & Hfs).
    destruct (Hfs j _ Hj) as (val & Hval & _). discriminate.
  - intros Hdone. destruct (first_failure _ j e Hj Hdone) as (i & e' & Hi & Hfi & Hlow).
    exists i, e'. split; [exact Hi|]. split; [exact Hfi|]. split; [exact Hlow|].
    now apply (await_blobs_err _ i).
  - intros Hok. now apply (await_blobs_err _ j).
Qed.

End DownloadTheorems.

(** ** uploadSegmentFiles *)

Section PoolStable.
Context {T V S : Type}.
Variable step : bool -> nat -> T -> S -> future T V * S.

(** A future that is done keeps its result. *)
Lemma done_stable sched (p : pool T V S) i r :
  futures p !! i = Some (Done r) ->
  futures (run_pool step sched p) !! i = Some (Done r).
Proof.
  intros Hp. apply (run_pool_ind step (fun q => futures q !! i = Some (Done r)));
    [|exact Hp].
  intros q e Hq. destruct e as [j|]; simpl; [|exact Hq].
  destruct (futures q !! j) as [[t|r']|] eqn:Hj; try exact Hq.
  destruct (step (ctxDone q) j t (st q)). simpl.
  rewrite list_lookup_insert_ne; [exact Hq|]. intros ->. congruence.
Qed.

(** Running a task that is done changes nothing. *)
Lemma done_no_step (p : pool T V S) i r :
  futures p !! i = Some (Done r) -> pool_step step p (Run i) = p.
Proof. intros Hp. simpl. now rewrite Hp. Qed.
End PoolStable.

Section UploadFacts.
Context {W A : Type} {cm : ChunkManager W}.

Lemma writes_of_app i e1 e2 : writes_of i (e1 ++ e2) = writes_of i e1 ++ writes_of i e2.
Proof.
  induction e1 as [|ev e1 IH]; [reflexivity|]. simpl.
  destruct ev; try exact IH. destruct (task =? i)%nat; [|exact IH].
  simpl. now rewrite IH.
Qed.

Lemma pick_order_perm {X} (choices : list nat) :
  forall l : list X, pick_order choices l ≡ₚ l.
Proof.
  induction choices as [|c cs IH]; intros l; [reflexivity|]. simpl.
  destruct (l !! (c mod length l)%nat) as [x|] eqn:Hx; [|reflexivity].
  rewrite IH. symmetry. now apply delete_Permutation.
Qed.

Lemma upload_tasks_length order (kvs : gmap string bytes) :
  length (upload_tasks order kvs) = size kvs.
Proof.
  unfold upload_tasks. rewrite length_map.
  rewrite (Permutation_length (pick_order_perm order _)).
  apply length_map_to_list.
Qed.

(** Before it runs, a task holds a pair of the batch and [errStart]. *)
Lemma upload_tasks_lookup order (kvs : gmap string bytes) i :
  (i < size kvs)%nat ->
  exists path val, kvs !! path = Some val
    /\ upload_tasks order kvs !! i
       = Some (Pending {| wt_path := path; wt_val := val; wt_err := Some errStart |}).
Proof.
  intros Hi. unfold upload_tasks. rewrite list_lookup_fmap.
  assert (Hlen : length (pick_order order (map_to_list kvs)) = size kvs).
  { rewrite (Permutation_length (pick_order_perm order _)). apply length_map_to_list. }
  destruct (lookup_lt_is_Some_2 (pick_order order (map_to_list kvs)) i) as [[path val] Hkv];
    [lia|].
  exists path, val. rewrite Hkv. split; [|reflexivity].
  apply elem_of_map_to_list.
  eapply elem_of_Permutation_proper; [symmetry; apply (pick_order_perm order)|].
  eapply list_elem_of_lookup_2. exact Hkv.
Qed.

Lemma AwaitAll_all_failed {T V} (fs : list (future T V)) e :
  fs <> [] -> (forall i f, fs !! i = Some f -> f = Done (Err e)) ->
  AwaitAll fs = Returned (Some e).
Proof.
  intros Hne Hall. unfold AwaitAll.
  assert (Hp : existsb is_pending fs = false).
  { apply not_true_is_false. intros H. apply existsb_exists in H as (f & Hin & Hf).
    apply list_elem_of_In, list_elem_of_lookup in Hin as [i Hi].
    rewrite (Hall i f Hi) in Hf. discriminate. }
  rewrite Hp. destruct fs as [|f fs]; [congruence|].
  rewrite (Hall 0%nat f eq_refl). reflexivity.
Qed.

Lemma AwaitAll_success {T V} (fs : list (future T V)) :
  AwaitAll fs = Returned None ->
  forall i f, fs !! i = Some f -> exists v, f = Done (Ok v).
Proof.
  unfold AwaitAll. destruct (existsb is_pending fs) eqn:Hp; [discriminate|].
  intros H. injection H as H.
  induction fs as [|g fs IH]; intros i f Hi; [now rewrite lookup_nil in Hi|].
  simpl in Hp. apply orb_false_iff in Hp as [Hg Hp].
  destruct g as [t|[v|e]]; simpl in *; try discriminate.
  destruct i as [|i]; simpl in Hi; [injection Hi as <-; eauto|].
  now apply (IH Hp H i).
Qed.

Lemma AwaitAll_error {T V} (fs : list (future T V)) e :
  AwaitAll fs = Returned (Some e) -> exists i, fs !! i = Some (Done (Err e)).
Proof.
  unfold AwaitAll. destruct (existsb is_pending fs); [discriminate|].
  intros H. injection H as H.
  induction fs as [|g fs IH]; simpl in H; [discriminate|].
  destruct g as [t|[v|e']].
  - destruct (IH H) as [i Hi]. now exists (S i).
  - destruct (IH H) as [i Hi]. now exists (S i).
  - injection H as ->. now exists 0%nat.
Qed.

Lemma cancelled_inv_step (s : state W A) n p e :
  cancelled_inv s n p -> cancelled_inv s n (pool_step write_step p e).
Proof.
  intros (Hc & Hst & Hlen & Hfs).
  destruct e as [i|]; simpl; [|repeat split; assumption].
  destruct (futures p !! i) as [[t|r]|] eqn:Hi; try (repeat split; assumption).
  destruct (Hfs i _ Hi) as [(t' & Ht' & Herr)|Hd]; [|discriminate].
  injection Ht' as <-. unfold write_step. rewrite Herr, Hc.
  unfold cancelled_inv. simpl.
  split; [reflexivity|]. split; [exact Hst|]. split; [now rewrite length_insert|].
  intros j f Hj. destruct (decide (i = j)) as [->|Hne].
  - rewrite list_lookup_insert_eq in Hj by (eapply lookup_lt_Some; eassumption).
    injection Hj as <-. now right.
  - rewrite list_lookup_insert_ne in Hj by assumption. exact (Hfs j f Hj).
Qed.

Lemma cancelled_inv_run sch (kvs : gmap string bytes) (s : state W A) :
  cancelled_inv s (size kvs) (upload_pool sch true kvs s).
Proof.
  unfold upload_pool. apply run_pool_ind; [apply cancelled_inv_step|].
  split; [reflexivity|]. split; [reflexivity|].
  split; [apply upload_tasks_length|].
  intros i f Hi. simpl in Hi. left.
  destruct (upload_tasks_lookup (range_order sch) kvs i) as (path & val & _ & Hl).
  { rewrite <- (upload_tasks_length (range_order sch)). eapply lookup_lt_Some. exact Hi. }
  rewrite Hl in Hi. injection Hi as <-. eauto.
Qed.

(** Under a cancelled context a task that was scheduled is done. *)
Lemma cancelled_ran (s : state W A) n sched :
  forall p i, cancelled_inv s n p -> (i < n)%nat -> In (Run i) sched ->
  futures (run_pool write_step sched p) !! i
  = Some (Done (Err errUploadToBlobStorage)).
Proof.
  induction sched as [|e sched IH]; intros p i Hinv Hi Hin; [destruct Hin|].
  simpl. destruct Hin as [->|Hin].
  - apply done_stable.
    pose proof (cancelled_inv_step s n p (Run i) Hinv) as Hinv'.
    destruct Hinv as (Hc & _ & Hlen & Hfs).
    destruct (lookup_lt_is_Some_2 (futures p) i) as [f Hf]; [lia|].
    simpl. rewrite Hf.
    destruct (Hfs i f Hf) as [(t & -> & Herr) | ->]; [|exact Hf].
    unfold write_step. rewrite Herr, Hc. simpl.
    apply list_lookup_insert_eq. lia.
  - apply IH; [now apply cancelled_inv_step|exact Hi|exact Hin].
Qed.

End UploadFacts.

Section UploadTheorems.
Context {W A : Type} {cm : ChunkManager W}.

(** A task that is done makes no further call of [b.Write]. *)
Lemma done_no_write sched (p : pool write_task unit (state W A)) i r :
  futures p !! i = Some (Done r) ->
  writes_of i (trace (st (run_pool write_step sched p))) = writes_of i (trace (st p)).
Proof.
  intros Hp.
  apply (run_pool_ind write_step
           (fun q => futures q !! i = Some (Done r)
                     /\ writes_of i (trace (st q)) = writes_of i (trace (st p))));
    [|now split].
  intros q e [Hq Hw]. destruct e as [j|]; simpl; [|now split].
  destruct (futures q !! j) as [[t|r']|] eqn:Hj; try (now split).
  assert (Hne : j <> i) by (intros ->; congruence).
  unfold write_step. destruct (wt_err t) as [err|]; simpl.
  - destruct (ctxDone q); simpl.
    + split; [now rewrite list_lookup_insert_ne|exact Hw].
    + destruct (Write false (wt_path t) (wt_val t) (store (st q))) as [r0 w'].
      simpl. split; [now rewrite list_lookup_insert_ne|].
      rewrite !writes_of_app. simpl.
      apply Nat.eqb_neq in Hne. rewrite Hne.
      destruct (is_errStart err); simpl; now rewrite app_nil_r.
  - split; [now rewrite list_lookup_insert_ne|exact Hw].
Qed.

(** Rounds of a task whose every write is rejected, under a context that
    is not cancelled: the task is still running and has written once per
    round. *)
Lemma rejected_rounds order (kvs : gmap string bytes) (s : state W A) j n :
  (j < size kvs)%nat ->
  (forall d path val w, (Write d path val w).1 <> None) ->
  let q := upload_pool {| range_order := order; steps := replicate n (Run j) |}
             false kvs s in
  ctxDone q = false
  /\ length (futures q) = size kvs
  /\ (exists t, futures q !! j = Some (Pending t) /\ wt_err t <> None)
  /\ exists evs, trace (st q) = trace s ++ evs /\ length (writes_of j evs) = n.
Proof.
  intros Hj Hrej. induction n as [|n IH]; unfold upload_pool; cbn [steps range_order].
  - simpl. split; [reflexivity|]. split; [apply upload_tasks_length|]. split.
    + destruct (upload_tasks_lookup order kvs j Hj) as (path & val & _ & Hl).
      rewrite Hl. eexists. split; [reflexivity|]. simpl. discriminate.
    + exists []. now rewrite app_nil_r.
  - rewrite replicate_S_end, run_pool_app.
    unfold upload_pool in IH. cbn [steps range_order] in IH.
    destruct IH as (Hc & Hlen & (t & Ht & Herr) & evs & Hevs & Hn).
    set (q := run_pool write_step (replicate n (Run j)) _) in *.
    simpl. rewrite Ht. unfold write_step.
    destruct (wt_err t) as [err|]; [|congruence]. rewrite Hc.
    destruct (Write false (wt_path t) (wt_val t) (store (st q))) as [r w'] eqn:HW.
    simpl. split; [reflexivity|]. split; [now rewrite length_insert|]. split.
    + eexists. split; [apply list_lookup_insert_eq; lia|]. simpl.
      specialize (Hrej false (wt_path t) (wt_val t) (store (st q))).
      rewrite HW in Hrej. simpl in Hrej. destruct r; [discriminate|congruence].
    + exists (evs ++ (if is_errStart err then [] else [EvSleep j 50])
                  ++ [EvWrite j (wt_path t) (wt_val t) r]).
      split; [rewrite Hevs; now rewrite <- app_assoc|].
      rewrite !writes_of_app, !length_app, Hn. simpl. rewrite Nat.eqb_refl.
      destruct (is_errStart err); simpl; lia.
Qed.

(** C4: a write task whose last write failed, with whatever error [e].
    Its next round looks at the context first.  If the context is
    cancelled the task returns [errUploadToBlobStorage] and never writes
    again, whatever runs afterwards.  If it is not, the task sleeps 50ms
    and writes the same pair again, and the result of that write is its
    new error.  And no number of rounds is the last: as long as the store
    rejects the writes and the context is not cancelled, a task of an
    upload has, after [n] rounds, written [n] times and is still running. *)
Theorem write_task_retries (p : pool write_task unit (state W A)) i t e :
  futures p !! i = Some (Pending t) ->
  wt_err t = Some (errExternal e) ->
  (ctxDone p = true ->
   pool_step write_step p (Run i)
   = {| ctxDone := true;
        futures := <[i := Done (Err errUploadToBlobStorage)]> (futures p);
        st := st p |}
   /\ forall sched,
        let q := run_pool write_step sched (pool_step write_step p (Run i)) in
        futures q !! i = Some (Done (Err errUploadToBlobStorage))
        /\ writes_of i (trace (st q)) = writes_of i (trace (st p)))
  /\ (ctxDone p = false ->
      pool_step write_step p (Run i)
      = {| ctxDone := false;
           futures :=
             <[i := Pending
                      {| wt_path := wt_path t; wt_val := wt_val t;
                         wt_err := option_map errExternal
                                     (Write false (wt_path t) (wt_val t) (store (st p))).1 |}]>
               (futures p);
           st := {| store := (Write false (wt_path t) (wt_val t) (store (st p))).2;
                    ids := ids (st p);
                    trace := trace (st p)
                             ++ [EvSleep i 50;
                                 EvWrite i (wt_path t) (wt_val t)
                                   (Write false (wt_path t) (wt_val t) (store (st p))).1] |} |})
  /\ (forall n order (kvs : gmap string bytes) (s : state W A) j,
        (j < size kvs)%nat ->
        (forall d path val w, (Write d path val w).1 <> None) ->
        let q := upload_pool {| range_order := order; steps := replicate n (Run j) |}
                   false kvs s in
        (exists t', futures q !! j = Some (Pending t'))
        /\ length (writes_of j (since s (st q))) = n).
Proof.
  intros Hi Herr. split; [|split].
  - intros Hc.
    assert (Hstep : pool_step write_step p (Run i)
                    = {| ctxDone := true;
                         futures := <[i := Done (Err errUploadToBlobStorage)]> (futures p);
                         st := st p |}).
    { simpl. rewrite Hi. unfold write_step. rewrite Herr, Hc. reflexivity. }
    split; [exact Hstep|]. intros sched q. subst q. rewrite Hstep.
    assert (Hd : futures {| ctxDone := true;
                            futures := <[i := Done (Err errUploadToBlobStorage)]> (futures p);
                            st := st p |} !! i
                 = Some (Done (Err errUploadToBlobStorage))).
    { simpl. apply list_lookup_insert_eq. eapply lookup_lt_Some. exact Hi. }
    split; [now apply done_stable|].
    now rewrite (done_no_write sched _ i _ Hd).
  - intros Hc. simpl. rewrite Hi. unfold write_step. rewrite Herr, Hc. simpl.
    now destruct (Write false (wt_path t) (wt_val t) (store (st p))).
  - intros n order kvs s j Hj Hrej q.
    destruct (rejected_rounds order kvs s j n Hj Hrej) as (_ & _ & (t' & Ht' & _) & evs & Hevs & Hn).
    fold q in Ht', Hevs. split; [now exists t'|].
    now rewrite (since_app s (st q) evs Hevs).
Qed.

(** C10: a write task that has not run yet, under a context that is
    already cancelled, returns [errUploadToBlobStorage] in its first round
    and leaves the state as it is: the context is looked at before the
    first write.  So an upload of a batch that is not empty, called with a
    cancelled context, leaves store, allocator and trace unchanged, never
    returns success, returns no other error than [errUploadToBlobStorage],
    and returns it once every task has been scheduled. *)
Theorem upload_cancelled_before_start sch CollectionID segID
    (kvs : gmap string bytes) (s : state W A) :
  kvs <> ∅ ->
  (forall (p : pool write_task unit (state W A)) i t,
      ctxDone p = true -> futures p !! i = Some (Pending t) ->
      wt_err t = Some errStart ->
      pool_step write_step p (Run i)
      = {| ctxDone := true;
           futures := <[i := Done (Err errUploadToBlobStorage)]> (futures p);
           st := st p |})
  /\ let r := uploadSegmentFiles sch true CollectionID segID kvs s in
     r.2 = s
     /\ r.1 <> Returned None
     /\ (forall e, r.1 = Returned (Some e) -> e = errUploadToBlobStorage)
     /\ ((forall i, (i < size kvs)%nat -> In (Run i) (steps sch)) ->
         r.1 = Returned (Some errUploadToBlobStorage)).
Proof.
  intros Hne. split.
  { intros p i t Hc Hi Herr. simpl. rewrite Hi. unfold write_step.
    now rewrite Herr, Hc. }
  assert (Hsz : size kvs <> 0%nat) by now apply map_size_non_empty_iff.
  unfold uploadSegmentFiles. apply Nat.eqb_neq in Hsz as Hsz'. rewrite Hsz'. simpl.
  pose proof (cancelled_inv_run sch kvs s) as Hinv.
  destruct Hinv as (Hc & Hst & Hlen & Hfs).
  assert (H0 : exists f, futures (upload_pool sch true kvs s) !! 0%nat = Some f)
    by (apply lookup_lt_is_Some_2; lia).
  destruct H0 as [f0 Hf0].
  split; [exact Hst|]. split; [|split].
  - intros H. destruct (AwaitAll_success _ H 0%nat f0 Hf0) as [v ->].
    destruct (Hfs 0%nat _ Hf0) as [(t & Ht & _)|Hd]; discriminate.
  - intros e H. apply AwaitAll_error in H as [i Hi].
    destruct (Hfs i _ Hi) as [(t & Ht & _)|Hd]; [discriminate|congruence].
  - intros Hall. apply AwaitAll_all_failed.
    + intros Hnil. rewrite Hnil in Hf0. now rewrite lookup_nil in Hf0.
    + intros i f Hi. assert (Hlt : (i < size kvs)%nat)
        by (rewrite <- Hlen; eapply lookup_lt_Some; exact Hi).
      unfold upload_pool in Hi.
      rewrite (cancelled_ran s (size kvs) (steps sch) _ i) in Hi.
      * now injection Hi as <-.
      * apply (cancelled_inv_run {| range_order := range_order sch; steps := [] |} kvs s).
      * exact Hlt.
      * now apply Hall.
Qed.

End UploadTheorems.

(** ** The three uploads *)

Section UploadLogFacts.
Context {W A InsertData PrimaryKeyStats : Type}.
Context {cm : ChunkManager W} {al : Allocator A}.
Context {codec : Codec InsertData PrimaryKeyStats} {lp : LogPaths}.

Lemma insert_loop_inv meta partID segID :
  Path.plain SegmentInsertLogPath = true ->
  forall inlogs generator kvs inpaths,
  insert_inv meta partID segID kvs inpaths ->
  insert_inv meta partID segID
    (insert_loop meta partID segID inlogs generator kvs inpaths).1
    (insert_loop meta partID segID inlogs generator kvs inpaths).2.
Proof.
  intros Hplain. induction inlogs as [|blob rest IH]; intros generator kvs inpaths Hinv;
    [exact Hinv|].
  simpl. destruct (recv generator) as [idx generator'].
  apply IH. intros f fb Hf.
  fold (binlogKey RootPath SegmentInsertLogPath
          [ID meta; partID; segID; ParseInt (Key blob); idx]) in *.
  destruct (decide (ParseInt (Key blob) = f)) as [<-|Hne].
  - rewrite lookup_insert_eq in Hf. injection Hf as <-.
    exists idx, (RowNum blob), (Value blob). split; [reflexivity|].
    apply lookup_insert_eq.
  - rewrite lookup_insert_ne in Hf by exact Hne.
    destruct (Hinv f fb Hf) as (idx' & n & v & -> & Hv).
    exists idx', n, v. split; [reflexivity|].
    rewrite lookup_insert_ne; [exact Hv|].
    intros E. apply binlogKey_inj in E as [_ E]; try assumption; try discriminate.
    congruence.
Qed.

(** Every key that the loop adds is an insert key, of the field of one of
    the blobs. *)
Lemma insert_loop_keys meta partID segID :
  forall inlogs generator kvs inpaths key,
  is_Some ((insert_loop meta partID segID inlogs generator kvs inpaths).1 !! key) ->
  is_Some (kvs !! key)
  \/ exists blob idx, blob ∈ inlogs
       /\ key = binlogKey RootPath SegmentInsertLogPath
                  [ID meta; partID; segID; ParseInt (Key blob); idx].
Proof.
  induction inlogs as [|blob rest IH]; intros generator kvs inpaths key Hk;
    [now left|].
  simpl in Hk. destruct (recv generator) as [idx generator'].
  apply IH in Hk as [Hk|(b & i & Hb & ->)].
  - fold (binlogKey RootPath SegmentInsertLogPath
            [ID meta; partID; segID; ParseInt (Key blob); idx]) in Hk.
    destruct (decide (binlogKey RootPath SegmentInsertLogPath
                        [ID meta; partID; segID; ParseInt (Key blob); idx] = key))
      as [<-|Hne].
    + right. exists blob, idx. split; [apply list_elem_of_here|reflexivity].
    + rewrite lookup_insert_ne in Hk by exact Hne. now left.
  - right. exists b, i. split; [now apply list_elem_of_further|reflexivity].
Qed.

Lemma sized_in_insert kvs key (v : bytes) fb :
  sized_in kvs fb -> (forall bl, bl ∈ Binlogs fb -> LogPath bl <> key) ->
  sized_in (<[key := v]> kvs) fb.
Proof.
  intros Hs Hne bl Hbl. destruct (Hs bl Hbl) as (v' & Hv' & Hsz).
  exists v'. split; [|exact Hsz]. rewrite lookup_insert_ne; [exact Hv'|].
  intros E. now apply (Hne bl Hbl).
Qed.

Lemma insert_inv_sized meta partID segID kvs inpaths f fb :
  insert_inv meta partID segID kvs inpaths -> inpaths !! f = Some fb ->
  sized_in kvs fb.
Proof.
  intros Hinv Hf. destruct (Hinv f fb Hf) as (idx & n & v & -> & Hv).
  intros bl Hbl. simpl in Hbl. apply list_elem_of_singleton in Hbl as ->.
  simpl. now exists v.
Qed.

(** What [genInsertBlobs] returns when it succeeds. *)
Lemma genInsertBlobs_ok data partID segID meta kvs (s : state W A) inpaths kvs' s1 :
  genInsertBlobs data partID segID meta kvs s = (Ok inpaths, kvs', s1) ->
  exists inlogs generator,
    Serialize meta partID segID data = Ok inlogs
    /\ (getGenerator (length inlogs) s) = (Ok generator, s1)
    /\ insert_loop meta partID segID inlogs generator kvs ∅ = (kvs', inpaths).
Proof.
  unfold genInsertBlobs. destruct (Serialize meta partID segID data) as [inlogs|e];
    [|discriminate].
  destruct (getGenerator (length inlogs) s) as [[generator|e] s1'] eqn:Hg; [|discriminate].
  destruct (insert_loop meta partID segID inlogs generator kvs ∅) as [k i] eqn:Hl.
  intros H. injection H as <- <- <-. now exists inlogs, generator.
Qed.

(** What [genStatBlobs] returns when it succeeds. *)
Lemma genStatBlobs_ok stats partID segID meta kvs totRows (s : state W A) statPaths kvs' s1 :
  genStatBlobs stats partID segID meta kvs totRows s = (Ok statPaths, kvs', s1) ->
  exists statBlob idx a',
    SerializePkStats meta stats totRows = Ok statBlob
    /\ AllocOne (ids s) = (Ok idx, a')
    /\ s1 = {| store := store s; ids := a'; trace := trace s ++ [EvAllocOne (Ok idx)] |}
    /\ kvs' = <[binlogKey RootPath SegmentStatslogPath
                  [ID meta; partID; segID; ParseInt (Key statBlob); idx]
                := Value statBlob]> kvs
    /\ statPaths
       = {[ ParseInt (Key statBlob)
            := {| FieldID := ParseInt (Key statBlob);
                  Binlogs := [{| EntriesNum := totRows;
                                 LogPath := binlogKey RootPath SegmentStatslogPath
                                              [ID meta; partID; segID;
                                               ParseInt (Key statBlob); idx];
                                 LogSize := Z.of_nat (length (Value statBlob)) |}] |} ]}.
Proof.
  unfold genStatBlobs, allocOne.
  destruct (SerializePkStats meta stats totRows) as [statBlob|e]; [|discriminate].
  destruct (AllocOne (ids s)) as [[idx|e] a'] eqn:Ha; [|discriminate].
  intros H. injection H as <- <- <-. exists statBlob, idx, a'. repeat split.
Qed.

(** What [genDeltaBlobs] returns when it succeeds. *)
Lemma genDeltaBlobs_ok data collID partID segID (s : state W A) key v s1 :
  genDeltaBlobs data collID partID segID s = (Ok (key, v), s1) ->
  exists blob idx a',
    DeleteSerialize collID partID segID data = Ok blob
    /\ AllocOne (ids s) = (Ok idx, a')
    /\ s1 = {| store := store s; ids := a'; trace := trace s ++ [EvAllocOne (Ok idx)] |}
    /\ key = binlogKey RootPath SegmentDeltaLogPath [collID; partID; segID; idx]
    /\ v = Value blob.
Proof.
  unfold genDeltaBlobs, allocOne.
  destruct (DeleteSerialize collID partID segID data) as [blob|e]; [|discriminate].
  destruct (AllocOne (ids s)) as [[idx|e] a'] eqn:Ha; [|discriminate].
  intros H. injection H as <- <- <-. exists blob, idx, a'. repeat split.
Qed.

End UploadLogFacts.

Section UploadLogTheorems.
Context {W A InsertData PrimaryKeyStats : Type}.
Context {cm : ChunkManager W} {al : Allocator A}.
Context {codec : Codec InsertData PrimaryKeyStats} {lp : LogPaths}.

(** C8: [uploadInsertLog] of an empty batch returns (nil, nil) and leaves
    the state as it was: no identifier was asked of the allocator, nothing
    was written to the store, and no call was added to the trace. *)
Theorem uploadInsertLog_empty sch ctx segID partID (iData : InsertData) meta
    (s : state W A) :
  IsEmpty iData = true ->
  let r := uploadInsertLog sch ctx segID partID iData meta s in
  r = (Returned (None, None), s)
  /\ ids r.2 = ids s /\ store r.2 = store s /\ trace r.2 = trace s.
Proof.
  intros He r. subst r. unfold uploadInsertLog. rewrite He. repeat split.
Qed.

(** C9: [uploadDeltaLog] of a batch whose row count is 0 returns
    (nil, nil) and leaves the state as it was: no identifier was asked of
    the allocator and nothing was written. *)
Theorem uploadDeltaLog_empty sch ctx segID partID (dData : DeleteData) meta
    (s : state W A) :
  RowCount dData = 0%Z ->
  let r := uploadDeltaLog (codec := codec) sch ctx segID partID dData meta s in
  r = (Returned (None, None), s)
  /\ ids r.2 = ids s /\ store r.2 = store s /\ trace r.2 = trace s.
Proof.
  intros He r. subst r. unfold uploadDeltaLog. rewrite He. repeat split.
Qed.

(** C2: whenever an upload returns logs, it has handed a batch to
    [uploadSegmentFiles], which wrote it, and the size recorded in every
    entry of every returned log is the length of the payload that the
    batch holds under the path of the entry. *)
Theorem binlog_sizes :
  Path.plain SegmentInsertLogPath = true ->
  Path.plain SegmentStatslogPath = true ->
  SegmentInsertLogPath <> SegmentStatslogPath ->
  (forall sch ctx segID partID (iData : InsertData) meta (s s' : state W A) inpaths err,
      uploadInsertLog sch ctx segID partID iData meta s
      = (Returned (Some inpaths, err), s') ->
      exists kvs s1,
        genInsertBlobs iData partID segID meta ∅ s = (Ok inpaths, kvs, s1)
        /\ uploadSegmentFiles sch ctx (ID meta) segID kvs s1 = (Returned None, s')
        /\ forall f fb, inpaths !! f = Some fb -> sized_in kvs fb)
  /\ (forall sch ctx segID partID (iData : InsertData) (stats : PrimaryKeyStats)
        totRows meta (s s' : state W A) inPaths statPaths err,
      uploadStatsLog sch ctx segID partID iData stats totRows meta s
      = (Returned (inPaths, statPaths, err), s') ->
      is_Some inPaths \/ is_Some statPaths ->
      exists kvs1 s1 sp kvs s2,
        ((IsEmpty iData = true /\ inPaths = None /\ kvs1 = ∅ /\ s1 = s)
         \/ (IsEmpty iData = false
             /\ exists m, genInsertBlobs iData partID segID meta ∅ s = (Ok m, kvs1, s1)
                          /\ inPaths = Some m))
        /\ genStatBlobs stats partID segID meta kvs1 totRows s1 = (Ok sp, kvs, s2)
        /\ statPaths = Some sp
        /\ uploadSegmentFiles sch ctx (ID meta) segID kvs s2 = (Returned None, s')
        /\ forall m f fb, inPaths = Some m \/ statPaths = Some m ->
             m !! f = Some fb -> sized_in kvs fb)
  /\ (forall sch ctx segID partID (dData : DeleteData) meta (s s' : state W A)
        deltaInfo err,
      uploadDeltaLog (codec := codec) sch ctx segID partID dData meta s
      = (Returned (Some deltaInfo, err), s') ->
      exists k v s1,
        genDeltaBlobs (codec := codec) dData (ID meta) partID segID s = (Ok (k, v), s1)
        /\ uploadSegmentFiles sch ctx (ID meta) segID {[ k := v ]} s1 = (Returned None, s')
        /\ forall fb, fb ∈ deltaInfo -> sized_in {[ k := v ]} fb).
Proof.
  intros Hi Hs Hne. split; [|split].
  - intros sch ctx segID partID iData meta s s' inpaths err. unfold uploadInsertLog.
    destruct (IsEmpty iData); [discriminate|].
    destruct (genInsertBlobs iData partID segID meta ∅ s) as [[[m|e] kvs1] s1] eqn:Hg;
      [|discriminate].
    destruct (uploadSegmentFiles sch ctx (ID meta) segID kvs1 s1) as [[|[e|]] s2] eqn:Hu;
      try discriminate.
    intros H. injection H as <- <- <-. exists kvs1, s1.
    split; [reflexivity|]. split; [exact Hu|].
    apply genInsertBlobs_ok in Hg as (inlogs & generator & _ & _ & Hl).
    pose proof (insert_loop_inv meta partID segID Hi inlogs generator ∅ ∅) as Hinv.
    rewrite Hl in Hinv. simpl in Hinv.
    intros f fb Hf. eapply insert_inv_sized; [apply Hinv|exact Hf].
    intros f' fb' H'. now rewrite lookup_empty in H'.
  - intros sch ctx segID partID iData stats totRows meta s s' inPaths statPaths err.
    unfold uploadStatsLog. cbv zeta.
    assert (Hphase :
      forall r kvs1 s1,
        (if negb (IsEmpty iData)
         then let '(r, kvs1, s1) := genInsertBlobs iData partID segID meta ∅ s in
              match r with
              | Ok inPaths => (Ok (Some inPaths), kvs1, s1)
              | Err e => (Err e, kvs1, s1)
              end
         else (Ok None, ∅, s)) = (Ok r, kvs1, s1) ->
        ((IsEmpty iData = true /\ r = None /\ kvs1 = ∅ /\ s1 = s)
         \/ (IsEmpty iData = false
             /\ exists m, genInsertBlobs iData partID segID meta ∅ s = (Ok m, kvs1, s1)
                          /\ r = Some m))
        /\ forall m f fb, r = Some m -> m !! f = Some fb ->
          exists idx n v,
            fb = {| FieldID := f;
                    Binlogs := [{| EntriesNum := n;
                                   LogPath := binlogKey RootPath SegmentInsertLogPath
                                                [ID meta; partID; segID; f; idx];
                                   LogSize := Z.of_nat (length v) |}] |}
            /\ kvs1 !! binlogKey RootPath SegmentInsertLogPath
                         [ID meta; partID; segID; f; idx] = Some v).
    { intros r kvs1 s1. destruct (IsEmpty iData); simpl.
      - intros H. injection H as <- <- <-. split; [now left|]. discriminate.
      - destruct (genInsertBlobs iData partID segID meta ∅ s) as [[[m0|e] k] s0] eqn:Hg;
          [|discriminate].
        intros H. injection H as <- <- <-.
        split; [right; split; [reflexivity|]; now exists m0|].
        intros m f fb Hm Hf. injection Hm as <-.
        apply genInsertBlobs_ok in Hg as (inlogs & generator & _ & _ & Hl).
        pose proof (insert_loop_inv meta partID segID Hi inlogs generator ∅ ∅) as Hinv.
        rewrite Hl in Hinv. simpl in Hinv. apply Hinv; [|exact Hf].
        intros f' fb' H'. now rewrite lookup_empty in H'. }
    destruct (if negb (IsEmpty iData) then _ else _) as [[[r|e] kvs1] s1] eqn:Hp;
      [|intros H; injection H as <- <- <- <-; intros [[? [=]]|[? [=]]]].
    destruct (Hphase r kvs1 s1 eq_refl) as [Hcase Hins].
    destruct (genStatBlobs stats partID segID meta kvs1 totRows s1) as [[[sp|e] kvs2] s2] eqn:Hg;
      [|intros H; injection H as <- <- <- <-; intros [[? [=]]|[? [=]]]].
    destruct (uploadSegmentFiles sch ctx (ID meta) segID kvs2 s2) as [[|[e|]] s3] eqn:Hu;
      [discriminate|intros H; injection H as <- <- <- <-; intros [[? [=]]|[? [=]]]|].
    intros H _. injection H as <- <- <- <-. exists kvs1, s1, sp, kvs2, s2.
    split; [exact Hcase|]. split; [exact Hg|]. split; [reflexivity|].
    split; [exact Hu|].
    apply genStatBlobs_ok in Hg as (statBlob & idx & a' & _ & _ & _ & -> & ->).
    intros m f fb [Hm|Hm] Hf.
    + destruct (Hins m f fb Hm Hf) as (idx' & n & v & -> & Hv).
      intros bl Hbl. simpl in Hbl. apply list_elem_of_singleton in Hbl as ->. simpl.
      exists v. split; [|reflexivity]. rewrite lookup_insert_ne; [exact Hv|].
      intros E. apply binlogKey_inj in E as [E _]; try assumption; try discriminate.
      congruence.
    + injection Hm as <-. apply lookup_singleton_Some in Hf as [<- <-].
      intros bl Hbl. simpl in Hbl. apply list_elem_of_singleton in Hbl as ->. simpl.
      exists (Value statBlob). split; [apply lookup_insert_eq|reflexivity].
  - intros sch ctx segID partID dData meta s s' deltaInfo err. unfold uploadDeltaLog.
    destruct (0 <? RowCount dData)%Z; [|discriminate].
    destruct (genDeltaBlobs dData (ID meta) partID segID s) as [[[k v]|e] s1] eqn:Hg;
      [|discriminate].
    cbv zeta. rewrite insert_empty.
    destruct (uploadSegmentFiles sch ctx (ID meta) segID {[ k := v ]} s1) as [[|[e|]] s2] eqn:Hu;
      try discriminate.
    intros H. injection H as <- <- <-. exists k, v, s1.
    split; [reflexivity|]. split; [exact Hu|].
    intros fb Hfb. simpl in Hfb. apply list_elem_of_singleton in Hfb as ->.
    intros bl Hbl. simpl in Hbl. apply list_elem_of_singleton in Hbl as ->. simpl.
    exists v. split; [apply lookup_singleton_eq|reflexivity].
Qed.

End UploadLogTheorems.

Section KeyTheorems.
Context {W A InsertData PrimaryKeyStats : Type}.
Context {cm : ChunkManager W} {al : Allocator A}.
Context {codec : Codec InsertData PrimaryKeyStats} {lp : LogPaths}.

Lemma binlogKey_segments root logPath ids :
  Path.plain logPath = true -> ids <> [] ->
  binlogKey root logPath ids = key_of_segments root (logPath :: map FormatInt ids).
Proof. apply binlogKey_eq. Qed.

(** C3, as the code has it: a key of an insert log or of a stats log is the
    root, the path constant of its kind of log, then the identifiers of
    collection, partition, segment and field and the allocated identifier,
    in this order; a key of a delta log is the root, the delta path
    constant, then the identifiers of collection, partition and segment and
    the allocated identifier, with no segment for a field. *)
Theorem key_composition :
  Path.plain SegmentInsertLogPath = true ->
  Path.plain SegmentStatslogPath = true ->
  Path.plain SegmentDeltaLogPath = true ->
  (forall (data : InsertData) partID segID meta kvs (s s1 : state W A) inpaths kvs',
      genInsertBlobs data partID segID meta kvs s = (Ok inpaths, kvs', s1) ->
      (forall key, is_Some (kvs' !! key) ->
         is_Some (kvs !! key)
         \/ exists fID idx,
              key = key_of_segments RootPath
                      [SegmentInsertLogPath; FormatInt (ID meta); FormatInt partID;
                       FormatInt segID; FormatInt fID; FormatInt idx])
      /\ (forall f fb bl, inpaths !! f = Some fb -> bl ∈ Binlogs fb ->
            exists idx,
              LogPath bl = key_of_segments RootPath
                             [SegmentInsertLogPath; FormatInt (ID meta); FormatInt partID;
                              FormatInt segID; FormatInt f; FormatInt idx]))
  /\ (forall (stats : PrimaryKeyStats) partID segID meta kvs totRows (s s1 : state W A)
        statPaths kvs',
      genStatBlobs stats partID segID meta kvs totRows s = (Ok statPaths, kvs', s1) ->
      exists fID idx a' v,
        AllocOne (ids s) = (Ok idx, a')
        /\ kvs' = <[key_of_segments RootPath
                      [SegmentStatslogPath; FormatInt (ID meta); FormatInt partID;
                       FormatInt segID; FormatInt fID; FormatInt idx] := v]> kvs
        /\ forall f fb bl, statPaths !! f = Some fb -> bl ∈ Binlogs fb ->
             f = fID
             /\ LogPath bl = key_of_segments RootPath
                               [SegmentStatslogPath; FormatInt (ID meta); FormatInt partID;
                                FormatInt segID; FormatInt fID; FormatInt idx])
  /\ (forall (data : DeleteData) collID partID segID (s s1 : state W A) key v,
      genDeltaBlobs (codec := codec) data collID partID segID s = (Ok (key, v), s1) ->
      exists idx a',
        AllocOne (ids s) = (Ok idx, a')
        /\ key = key_of_segments RootPath
                   [SegmentDeltaLogPath; FormatInt collID; FormatInt partID;
                    FormatInt segID; FormatInt idx]).
Proof.
  intros Hi Hs Hd. split; [|split].
  - intros data partID segID meta kvs s s1 inpaths kvs' Hg.
    apply genInsertBlobs_ok in Hg as (inlogs & generator & _ & _ & Hl). split.
    + intros key Hk.
      pose proof (insert_loop_keys meta partID segID inlogs generator kvs ∅ key) as Hkeys.
      rewrite Hl in Hkeys. destruct (Hkeys Hk) as [H|(blob & idx & _ & ->)]; [now left|].
      right. exists (ParseInt (Key blob)), idx.
      now rewrite binlogKey_segments by (assumption || discriminate).
    + intros f fb bl Hf Hbl.
      pose proof (insert_loop_inv meta partID segID Hi inlogs generator kvs ∅) as Hinv.
      rewrite Hl in Hinv. simpl in Hinv.
      destruct (Hinv ltac:(intros ? ? H'; now rewrite lookup_empty in H') f fb Hf)
        as (idx & n & v & -> & _).
      simpl in Hbl. apply list_elem_of_singleton in Hbl as ->. simpl.
      exists idx. now rewrite binlogKey_segments by (assumption || discriminate).
  - intros stats partID segID meta kvs totRows s s1 statPaths kvs' Hg.
    apply genStatBlobs_ok in Hg as (statBlob & idx & a' & _ & Ha & _ & -> & ->).
    exists (ParseInt (Key statBlob)), idx, a', (Value statBlob).
    rewrite binlogKey_segments by (assumption || discriminate).
    split; [exact Ha|]. split; [reflexivity|].
    intros f fb bl Hf Hbl. apply lookup_singleton_Some in Hf as [<- <-].
    simpl in Hbl. apply list_elem_of_singleton in Hbl as ->. now split.
  - intros data collID partID segID s s1 key v Hg.
    apply genDeltaBlobs_ok in Hg as (blob & idx & a' & _ & Ha & _ & -> & _).
    exists idx, a'. split; [exact Ha|].
    now rewrite binlogKey_segments by (assumption || discriminate).
Qed.

(** C5, as the code has it: when the codec serializes the statistics, the
    insert blobs (if the batch is not empty) are generated, and the
    allocator gives an identifier, the call is the upload of a batch that
    holds the one stats blob under a key made with that identifier, the
    only identifier asked for the statistics; this whether the insert batch
    is empty or not.  The stats logs are then not empty, and for an empty
    insert batch the insert logs are nil and the stats blob is the whole
    batch; the call returns them when the upload succeeds and
    (nil, nil, error) when it fails. *)
Theorem uploadStatsLog_one_stats_blob sch ctx segID partID (iData : InsertData)
    (stats : PrimaryKeyStats) totRows meta (s s1 : state W A)
    statBlob inPaths kvs1 idx a' :
  SerializePkStats meta stats totRows = Ok statBlob ->
  (IsEmpty iData = true /\ inPaths = None /\ kvs1 = ∅ /\ s1 = s)
  \/ (IsEmpty iData = false
      /\ exists m, genInsertBlobs iData partID segID meta ∅ s = (Ok m, kvs1, s1)
                   /\ inPaths = Some m) ->
  AllocOne (ids s1) = (Ok idx, a') ->
  let fID := ParseInt (Key statBlob) in
  let key := binlogKey RootPath SegmentStatslogPath [ID meta; partID; segID; fID; idx] in
  let kvs2 := <[key := Value statBlob]> kvs1 in
  let s2 := {| store := store s1; ids := a';
               trace := trace s1 ++ [EvAllocOne (Ok idx)] |} in
  let statPaths : gmap Z FieldBinlog :=
    {[ fID := {| FieldID := fID;
                 Binlogs := [{| EntriesNum := totRows; LogPath := key;
                                LogSize := Z.of_nat (length (Value statBlob)) |}] |} ]} in
  uploadStatsLog sch ctx segID partID iData stats totRows meta s
  = (match uploadSegmentFiles sch ctx (ID meta) segID kvs2 s2 with
     | (Blocked, s3) => (Blocked, s3)
     | (Returned (Some e), s3) => (Returned (None, None, Some e), s3)
     | (Returned None, s3) => (Returned (inPaths, Some statPaths, None), s3)
     end)
  /\ kvs2 !! key = Some (Value statBlob)
  /\ statPaths <> ∅
  /\ (IsEmpty iData = true -> inPaths = None /\ kvs2 = {[ key := Value statBlob ]}).
Proof.
  intros Hstat Hphase Halloc fID key kvs2 s2 statPaths.
  split; [|split; [|split]].
  - unfold uploadStatsLog.
    assert (Hp : (if negb (IsEmpty iData)
                  then let '(r, kvs1, s1) := genInsertBlobs iData partID segID meta ∅ s in
                       match r with
                       | Ok inPaths => (Ok (Some inPaths), kvs1, s1)
                       | Err e => (Err e, kvs1, s1)
                       end
                  else (Ok None, ∅, s)) = (Ok inPaths, kvs1, s1)).
    { destruct Hphase as [(-> & -> & -> & ->)|(-> & m & -> & ->)]; reflexivity. }
    cbv zeta. rewrite Hp. unfold genStatBlobs, allocOne. rewrite Hstat, Halloc.
    subst statPaths s2 kvs2 key fID. unfold binlogKey.
    destruct (uploadSegmentFiles sch ctx (ID meta) segID _ _) as [[|[e|]] s3];
      reflexivity.
  - apply lookup_insert_eq.
  - apply insert_non_empty.
  - intros He. destruct Hphase as [(_ & -> & -> & _)|(Hf & _)]; [|congruence].
    split; [reflexivity|]. unfold kvs2. apply insert_empty.
Qed.

End KeyTheorems.

(** ** More on uploadSegmentFiles *)

Section UploadMore.
Context {W A : Type} {cm : ChunkManager W}.

Lemma batch_pairs_lookup order (kvs : gmap string bytes) i k v :
  pick_order order (map_to_list kvs) !! i = Some (k, v) -> kvs !! k = Some v.
Proof.
  intros H. apply elem_of_map_to_list.
  eapply elem_of_Permutation_proper; [symmetry; apply (pick_order_perm order)|].
  eapply list_elem_of_lookup_2. exact H.
Qed.

Lemma batch_pairs_complete order (kvs : gmap string bytes) k v :
  kvs !! k = Some v -> exists i, pick_order order (map_to_list kvs) !! i = Some (k, v).
Proof.
  intros H. apply list_elem_of_lookup_1.
  eapply elem_of_Permutation_proper; [apply (pick_order_perm order)|].
  now apply elem_of_map_to_list.
Qed.

(** A path is the path of one task only. *)
Lemma batch_pairs_nodup order (kvs : gmap string bytes) i j k v v' :
  pick_order order (map_to_list kvs) !! i = Some (k, v) ->
  pick_order order (map_to_list kvs) !! j = Some (k, v') -> i = j.
Proof.
  intros Hi Hj.
  assert (Hnd : NoDup ((pick_order order (map_to_list kvs)).*1)).
  { eapply NoDup_Permutation_proper;
      [apply fmap_Permutation, (pick_order_perm order)|apply NoDup_fst_map_to_list]. }
  apply (NoDup_lookup _ i j k Hnd); rewrite list_lookup_fmap.
  - now rewrite Hi.
  - now rewrite Hj.
Qed.

Lemma upload_tasks_pairs order (kvs : gmap string bytes) i k v :
  pick_order order (map_to_list kvs) !! i = Some (k, v) ->
  upload_tasks order kvs !! i
  = Some (Pending {| wt_path := k; wt_val := v; wt_err := Some errStart |}).
Proof. intros H. unfold upload_tasks. now rewrite list_lookup_fmap, H. Qed.

Lemma upload_inv_step pairs (s : state W A) p e :
  upload_inv pairs s p -> upload_inv pairs s (pool_step write_step p e).
Proof.
  intros (Hlen & Hids & Hnoerr & evs & Hevs & Hall & Htasks).
  destruct e as [i|]; simpl.
  2:{ split; [exact Hlen|]. split; [exact Hids|]. split; [discriminate|].
      exists evs. auto. }
  destruct (futures p !! i) as [[t|r]|] eqn:Hfi;
    try (split; [exact Hlen|]; split; [exact Hids|]; split; [exact Hnoerr|];
         exists evs; auto; fail).
  assert (Hi : (i < length pairs)%nat)
    by (rewrite <- Hlen; eapply lookup_lt_Some; eassumption).
  destruct (lookup_lt_is_Some_2 pairs i Hi) as [[k v] Hkv].
  destruct (Htasks i k v Hkv) as (f & Hf & Hinv).
  rewrite Hfi in Hf. injection Hf as <-. destruct Hinv as (Hk & Hv & Herr).
  unfold write_step. destruct (wt_err t) as [err|] eqn:Hterr.
  - destruct (ctxDone p) eqn:Hc.
    + (* the context is done *)
      unfold upload_inv. simpl.
      split; [now rewrite length_insert|]. split; [exact Hids|].
      split; [discriminate|].
      exists evs. split; [exact Hevs|]. split; [exact Hall|].
      intros j kj vj Hj. destruct (decide (i = j)) as [<-|Hne].
      * eexists. split; [apply list_lookup_insert_eq; lia|]. reflexivity.
      * destruct (Htasks j kj vj Hj) as (fj & Hfj & Hinvj).
        exists fj. rewrite list_lookup_insert_ne by exact Hne. now split.
    + (* one more write *)
      destruct (Write false (wt_path t) (wt_val t) (store (st p))) as [r w'] eqn:HW.
      unfold upload_inv. simpl.
      split; [now rewrite length_insert|]. split; [exact Hids|].
      split.
      { intros _ j e Hj. destruct (decide (i = j)) as [<-|Hne].
        - rewrite list_lookup_insert_eq in Hj by lia. discriminate.
        - rewrite list_lookup_insert_ne in Hj by exact Hne.
          now apply (Hnoerr eq_refl j e). }
      set (new := (if is_errStart err then [] else [EvSleep i 50])
                  ++ [EvWrite i (wt_path t) (wt_val t) r]).
      exists (evs ++ new). split; [rewrite Hevs; now rewrite <- app_assoc|].
      split.
      { apply Forall_app. split; [exact Hall|]. subst new. apply Forall_app. split.
        - destruct (is_errStart err); repeat constructor. exact Hi.
        - repeat constructor. simpl. now rewrite Hk, Hv. }
      assert (Hw : forall j', writes_of j' new
                              = if (i =? j')%nat then [(wt_path t, wt_val t, r)] else []).
      { intros j'. subst new. rewrite writes_of_app. simpl.
        destruct (is_errStart err); simpl; destruct (i =? j')%nat; reflexivity. }
      intros j kj vj Hj. destruct (decide (i = j)) as [<-|Hne].
      * rewrite Hkv in Hj. injection Hj as <- <-.
        eexists. split; [apply list_lookup_insert_eq; lia|].
        rewrite writes_of_app, Hw, Nat.eqb_refl. simpl.
        split; [exact Hk|]. split; [exact Hv|]. rewrite Hk, Hv.
        destruct r as [e|]; simpl; eauto.
      * destruct (Htasks j kj vj Hj) as (fj & Hfj & Hinvj).
        exists fj. rewrite list_lookup_insert_ne by exact Hne. split; [exact Hfj|].
        rewrite writes_of_app, Hw. apply Nat.eqb_neq in Hne. rewrite Hne.
        now rewrite app_nil_r.
  - (* the loop is left *)
    unfold upload_inv. simpl.
    split; [now rewrite length_insert|]. split; [exact Hids|].
    split.
    { intros Hc j e Hj. destruct (decide (i = j)) as [<-|Hne].
      - rewrite list_lookup_insert_eq in Hj by lia. discriminate.
      - rewrite list_lookup_insert_ne in Hj by exact Hne. now apply (Hnoerr Hc j e). }
    exists evs. split; [exact Hevs|]. split; [exact Hall|].
    intros j kj vj Hj. destruct (decide (i = j)) as [<-|Hne].
    + rewrite Hkv in Hj. injection Hj as <- <-.
      eexists. split; [apply list_lookup_insert_eq; lia|]. exact Herr.
    + destruct (Htasks j kj vj Hj) as (fj & Hfj & Hinvj).
      exists fj. rewrite list_lookup_insert_ne by exact Hne. now split.
Qed.

Lemma upload_inv_run sch ctx (kvs : gmap string bytes) (s : state W A) :
  upload_inv (pick_order (range_order sch) (map_to_list kvs)) s
    (upload_pool sch ctx kvs s).
Proof.
  unfold upload_pool. apply run_pool_ind; [apply upload_inv_step|].
  split; [simpl; unfold upload_tasks; now rewrite length_map|].
  split; [reflexivity|]. split.
  { intros _ i e Hi. simpl in Hi. unfold upload_tasks in Hi.
    rewrite list_lookup_fmap in Hi.
    destruct (pick_order (range_order sch) (map_to_list kvs) !! i); discriminate. }
  exists []. split; [simpl; now rewrite app_nil_r|]. split; [constructor|].
  intros i k v Hi. simpl. rewrite (upload_tasks_pairs _ _ _ _ _ Hi).
  eexists. split; [reflexivity|]. simpl. auto.
Qed.

(** The context of a pool is done only if it was or the schedule cancels
    it. *)
Lemma ctxDone_cause {T V S} (step : bool -> nat -> T -> S -> future T V * S)
    sched (p : pool T V S) :
  ctxDone (run_pool step sched p) = true ->
  ctxDone p = true \/ existsb is_cancel sched = true.
Proof.
  revert p. induction sched as [|e sched IH]; intros p H; [now left|].
  simpl in H. apply IH in H as [H|H]; [|right; simpl; rewrite H; apply orb_true_r].
  destruct e as [i|]; [|now right]. left. simpl in H.
  destruct (futures p !! i) as [[t|r]|]; try exact H.
  now destruct (step (ctxDone p) i t (st p)).
Qed.

End UploadMore.

Section UploadMoreTheorems.
Context {W A : Type} {cm : ChunkManager W}.

Lemma upload_result sch ctx CollectionID segID (kvs : gmap string bytes) (s : state W A) :
  kvs <> ∅ ->
  uploadSegmentFiles sch ctx CollectionID segID kvs s
  = (AwaitAll (futures (upload_pool sch ctx kvs s)), st (upload_pool sch ctx kvs s)).
Proof.
  intros Hne. unfold uploadSegmentFiles.
  assert (Hsz : size kvs <> 0%nat) by now apply map_size_non_empty_iff.
  apply Nat.eqb_neq in Hsz. now rewrite Hsz.
Qed.

Lemma upload_empty sch ctx CollectionID segID (s : state W A) :
  uploadSegmentFiles sch ctx CollectionID segID ∅ s = (Returned None, s).
Proof. reflexivity. Qed.

Lemma upload_error_cause sch ctx CollectionID segID
    (kvs : gmap string bytes) (s : state W A) e :
  (uploadSegmentFiles sch ctx CollectionID segID kvs s).1 = Returned (Some e) ->
  e = errUploadToBlobStorage
  /\ (ctx = true \/ In Cancel (steps sch)).
Proof.
  destruct (decide (kvs = ∅)) as [->|Hne]; [discriminate|].
  rewrite upload_result by exact Hne. simpl. intros H.
  apply AwaitAll_error in H as [i Hi].
  destruct (upload_inv_run sch ctx kvs s) as (Hlen & _ & Hnoerr & evs & _ & _ & Htasks).
  split.
  - assert (Hlt : (i < length (pick_order (range_order sch) (map_to_list kvs)))%nat)
      by (rewrite <- Hlen; eapply lookup_lt_Some; exact Hi).
    destruct (lookup_lt_is_Some_2 _ i Hlt) as [[k v] Hkv].
    destruct (Htasks i k v Hkv) as (f & Hf & Hinv).
    rewrite Hi in Hf. injection Hf as <-. exact Hinv.
  - destruct (ctxDone (upload_pool sch ctx kvs s)) eqn:Hc.
    + unfold upload_pool in Hc. apply ctxDone_cause in Hc as [Hc|Hc]; [now left|].
      right. apply existsb_exists in Hc as (ev & Hin & Hev).
      destruct ev; [discriminate|exact Hin].
    + destruct (Hnoerr eq_refl i e Hi).
Qed.

(** X1: The only error of an upload is [errUploadToBlobStorage], and it takes a
    cancelled context: an error of the store is never returned. *)
Theorem upload_fails_only_when_cancelled sch ctx CollectionID segID
    (kvs : gmap string bytes) (s : state W A) e :
  (uploadSegmentFiles sch ctx CollectionID segID kvs s).1 = Returned (Some e) ->
  e = errUploadToBlobStorage
  /\ (ctx = true \/ In Cancel (steps sch)).
Proof. apply upload_error_cause. Qed.

(** X2: When an upload returns nil, every pair of the batch was written, and
    the last write of its pair by its task succeeded. *)
Theorem upload_success_wrote_batch sch ctx CollectionID segID
    (kvs : gmap string bytes) (s s' : state W A) :
  uploadSegmentFiles sch ctx CollectionID segID kvs s = (Returned None, s') ->
  forall k v, kvs !! k = Some v ->
    exists i, last (writes_of i (since s s')) = Some (k, v, None).
Proof.
  destruct (decide (kvs = ∅)) as [->|Hne].
  { intros _ k v Hk. now rewrite lookup_empty in Hk. }
  rewrite upload_result by exact Hne. intros H. injection H as Hres <-.
  intros k v Hk.
  destruct (batch_pairs_complete (range_order sch) kvs k v Hk) as [i Hi].
  destruct (upload_inv_run sch ctx kvs s) as (_ & _ & _ & evs & Hevs & _ & Htasks).
  destruct (Htasks i k v Hi) as (f & Hf & Hinv).
  destruct (AwaitAll_success _ Hres i f Hf) as [u ->].
  destruct Hinv as (ws' & Hws). exists i.
  rewrite (since_app s _ evs Hevs), Hws. apply last_snoc.
Qed.

(** X3: An upload, whatever it returns, asks nothing of the allocator, reads
    nothing, and writes nothing but pairs of the batch, between sleeps of
    50ms. *)
Theorem upload_touches_only_batch sch ctx CollectionID segID
    (kvs : gmap string bytes) (s : state W A) :
  let s' := (uploadSegmentFiles sch ctx CollectionID segID kvs s).2 in
  ids s' = ids s
  /\ exists evs,
       trace s' = trace s ++ evs
       /\ forall ev, In ev evs ->
            (exists i k v r, ev = EvWrite i k v r /\ kvs !! k = Some v)
            \/ (exists i, ev = EvSleep i 50).
Proof.
  destruct (decide (kvs = ∅)) as [->|Hne].
  { simpl. split; [reflexivity|]. exists []. split; [now rewrite app_nil_r|].
    intros ev []. }
  rewrite upload_result by exact Hne. simpl.
  destruct (upload_inv_run sch ctx kvs s) as (_ & Hids & _ & evs & Hevs & Hall & _).
  split; [exact Hids|]. exists evs. split; [exact Hevs|].
  intros ev Hin. rewrite Forall_forall in Hall.
  specialize (Hall ev). rewrite list_elem_of_In in Hall. specialize (Hall Hin).
  destruct ev as [| i k v r | i ms | |]; simpl in Hall; try contradiction.
  - left. exists i, k, v, r. split; [reflexivity|].
    eapply batch_pairs_lookup. exact Hall.
  - right. exists i. destruct Hall as [-> _]. reflexivity.
Qed.

Lemma AwaitAll_all_done {T V} (fs : list (future T V)) :
  (forall i f, fs !! i = Some f -> exists r, f = Done r) ->
  exists r, AwaitAll fs = Returned r.
Proof.
  intros Hall. unfold AwaitAll.
  destruct (existsb is_pending fs) eqn:Hp; [|eauto].
  apply existsb_exists in Hp as (f & Hin & Hf).
  apply list_elem_of_In, list_elem_of_lookup in Hin as [i Hi].
  destruct (Hall i f Hi) as [r ->]. discriminate.
Qed.

(** Under a context that is done, one round ends a write task. *)
Lemma cancelled_round_ends sched :
  forall (p : pool write_task unit (state W A)) i,
  ctxDone p = true -> (i < length (futures p))%nat -> In (Run i) sched ->
  exists r, futures (run_pool write_step sched p) !! i = Some (Done r).
Proof.
  induction sched as [|e sched IH]; intros p i Hc Hi Hin; [destruct Hin|].
  simpl. destruct Hin as [->|Hin].
  - destruct (lookup_lt_is_Some_2 (futures p) i Hi) as [f Hf].
    assert (Hd : exists r, futures (pool_step write_step p (Run i)) !! i = Some (Done r)).
    { simpl. rewrite Hf. destruct f as [t|r]; [|eauto].
      unfold write_step. destruct (wt_err t); [rewrite Hc|]; simpl;
        eexists; apply list_lookup_insert_eq; exact Hi. }
    destruct Hd as [r Hd]. exists r. now apply done_stable.
  - change (pool_step write_step p e) with (run_pool write_step [e] p).
    apply IH; [| |exact Hin].
    + now apply run_pool_ctxDone.
    + now rewrite run_pool_length.
Qed.

(** X4: Once the context is cancelled, an upload returns as soon as every task
    has had one more round: no task is left waiting. *)
Theorem upload_returns_after_cancel sch ctx CollectionID segID
    (kvs : gmap string bytes) (s : state W A) before after :
  steps sch = before ++ after ->
  ctx = true \/ In Cancel before ->
  (forall i, (i < size kvs)%nat -> In (Run i) after) ->
  exists r, (uploadSegmentFiles sch ctx CollectionID segID kvs s).1 = Returned r.
Proof.
  intros Hsteps Hcancel Hran.
  destruct (decide (kvs = ∅)) as [->|Hne]; [now exists None|].
  rewrite upload_result by exact Hne. simpl. apply AwaitAll_all_done.
  intros i f Hi. unfold upload_pool in *. rewrite Hsteps, run_pool_app in *.
  set (p0 := {| ctxDone := ctx; futures := upload_tasks (range_order sch) kvs; st := s |}) in *.
  assert (Hc : ctxDone (run_pool write_step before p0) = true).
  { destruct Hcancel as [->|Hin]; [now apply run_pool_ctxDone|].
    apply in_split in Hin as (b1 & b2 & ->). rewrite run_pool_app. simpl.
    now apply run_pool_ctxDone. }
  assert (Hlen : length (futures (run_pool write_step before p0)) = size kvs)
    by (rewrite run_pool_length; apply upload_tasks_length).
  assert (Hlt : (i < size kvs)%nat).
  { rewrite <- Hlen, <- (run_pool_length write_step after). eapply lookup_lt_Some. exact Hi. }
  destruct (cancelled_round_ends after _ i Hc ltac:(lia) (Hran i Hlt)) as [r Hr].
  rewrite Hr in Hi. injection Hi as <-. eauto.
Qed.

End UploadMoreTheorems.

(** ** Stores that keep what is written *)

Section StoreFacts.
Context {W A : Type} {cm : ChunkManager W} {merr : Merr}.
Variable contents : W -> gmap string bytes.
Hypothesis Hlaw : lawful contents.

Lemma contents_inv_step pairs (s : state W A) p e :
  (forall i j k v v', pairs !! i = Some (k, v) -> pairs !! j = Some (k, v') -> i = j) ->
  upload_inv pairs s p ->
  contents_inv contents pairs s p ->
  contents_inv contents pairs s (pool_step write_step p e).
Proof.
  intros Hnd (Hlen & _ & _ & evs & _ & _ & Htasks) [Hkeys Hdone].
  destruct Hlaw as (Hwok & Hwerr & _ & _).
  destruct e as [i|]; simpl; [|now split].
  destruct (futures p !! i) as [[t|r]|] eqn:Hfi; try (now split).
  assert (Hi : (i < length pairs)%nat)
    by (rewrite <- Hlen; eapply lookup_lt_Some; eassumption).
  destruct (lookup_lt_is_Some_2 pairs i Hi) as [[k v] Hkv].
  destruct (Htasks i k v Hkv) as (f & Hf & Hinv).
  rewrite Hfi in Hf. injection Hf as <-. destruct Hinv as (Hk & Hv & _).
  unfold write_step. destruct (wt_err t) as [err|] eqn:Hterr.
  - destruct (ctxDone p).
    + split; [exact Hkeys|]. simpl. intros j kj vj fj Hj Hfj Hs.
      destruct (decide (i = j)) as [<-|Hne].
      * rewrite list_lookup_insert_eq in Hfj by lia. injection Hfj as <-. destruct Hs.
      * rewrite list_lookup_insert_ne in Hfj by exact Hne. now apply (Hdone j kj vj fj).
    + destruct (Write false (wt_path t) (wt_val t) (store (st p))) as [[e|] w'] eqn:HW;
        simpl.
      * apply Hwerr in HW. split; simpl; rewrite HW; [exact Hkeys|].
        intros j kj vj fj Hj Hfj Hs. destruct (decide (i = j)) as [<-|Hne].
        -- rewrite list_lookup_insert_eq in Hfj by lia. injection Hfj as <-. discriminate Hs.
        -- rewrite list_lookup_insert_ne in Hfj by exact Hne. now apply (Hdone j kj vj fj).
      * apply Hwok in HW. rewrite Hk, Hv in HW. split; simpl; rewrite HW.
        -- intros key. destruct (decide (k = key)) as [<-|Hne].
           ++ right. exists i, v. split; [exact Hkv|apply lookup_insert_eq].
           ++ rewrite lookup_insert_ne by exact Hne. apply Hkeys.
        -- intros j kj vj fj Hj Hfj Hs. destruct (decide (i = j)) as [<-|Hne].
           ++ rewrite Hkv in Hj. injection Hj as <- <-. apply lookup_insert_eq.
           ++ rewrite list_lookup_insert_ne in Hfj by exact Hne.
              rewrite lookup_insert_ne; [now apply (Hdone j kj vj fj)|].
              intros <-. apply Hne. now apply (Hnd i j k v vj).
  - split; [exact Hkeys|]. simpl. intros j kj vj fj Hj Hfj Hs.
    destruct (decide (i = j)) as [<-|Hne].
    + rewrite Hkv in Hj. injection Hj as <- <-.
      apply (Hdone i k v (Pending t) Hkv Hfi). exact Hterr.
    + rewrite list_lookup_insert_ne in Hfj by exact Hne. now apply (Hdone j kj vj fj).
Qed.

Lemma contents_inv_run sch ctx (kvs : gmap string bytes) (s : state W A) :
  contents_inv contents (pick_order (range_order sch) (map_to_list kvs)) s
    (upload_pool sch ctx kvs s).
Proof.
  set (pairs := pick_order (range_order sch) (map_to_list kvs)).
  assert (H : upload_inv pairs s (upload_pool sch ctx kvs s)
              /\ contents_inv contents pairs s (upload_pool sch ctx kvs s)); [|apply H].
  unfold upload_pool. apply run_pool_ind.
  - intros p e [Hu Hc]. split; [now apply upload_inv_step|].
    apply contents_inv_step; try assumption.
    intros i j k v v'. apply batch_pairs_nodup.
  - split; [apply (upload_inv_run {| range_order := range_order sch; steps := [] |})|].
    split; [now left|]. simpl. intros i k v f Hi Hf Hs.
    rewrite (upload_tasks_pairs _ _ _ _ _ Hi) in Hf. injection Hf as <-. discriminate Hs.
Qed.

(** What the store holds after an upload, whatever the upload returned. *)
Lemma upload_contents_any sch ctx CollectionID segID (kvs : gmap string bytes)
    (s : state W A) key :
  let s' := (uploadSegmentFiles sch ctx CollectionID segID kvs s).2 in
  contents (store s') !! key = contents (store s) !! key
  \/ exists v, kvs !! key = Some v /\ contents (store s') !! key = Some v.
Proof.
  destruct (decide (kvs = ∅)) as [->|Hne]; [now left|].
  rewrite upload_result by exact Hne. simpl.
  destruct (contents_inv_run sch ctx kvs s) as [Hkeys _].
  destruct (Hkeys key) as [H|(i & v & Hi & Hv)]; [now left|].
  right. exists v. split; [|exact Hv]. eapply batch_pairs_lookup. exact Hi.
Qed.

(** What the store holds after an upload that returned nil. *)
Lemma upload_contents_ok sch ctx CollectionID segID (kvs : gmap string bytes)
    (s s' : state W A) :
  uploadSegmentFiles sch ctx CollectionID segID kvs s = (Returned None, s') ->
  contents (store s') = kvs ∪ contents (store s).
Proof.
  destruct (decide (kvs = ∅)) as [->|Hne].
  { intros H. injection H as <-. now rewrite (left_id_L ∅ (∪)). }
  rewrite upload_result by exact Hne. intros H. injection H as Hres <-.
  destruct (contents_inv_run sch ctx kvs s) as [Hkeys Hdone].
  apply map_eq. intros key. destruct (kvs !! key) as [v|] eqn:Hk.
  - rewrite (lookup_union_Some_l kvs _ key v Hk).
    destruct (batch_pairs_complete (range_order sch) kvs key v Hk) as [i Hi].
    assert (Hlt : (i < length (futures (upload_pool sch ctx kvs s)))%nat).
    { unfold upload_pool. rewrite run_pool_length. simpl.
      unfold upload_tasks. rewrite length_map. eapply lookup_lt_Some. exact Hi. }
    destruct (lookup_lt_is_Some_2 _ i Hlt) as [f Hf].
    destruct (AwaitAll_success _ Hres i f Hf) as [u ->].
    now apply (Hdone i key v (Done (Ok u)) Hi Hf).
  - rewrite lookup_union_r by exact Hk.
    destruct (Hkeys key) as [H|(i & v & Hi & _)]; [exact H|].
    apply batch_pairs_lookup in Hi. congruence.
Qed.

Lemma writes_of_In i x evs : In x (writes_of i evs) -> In (EvWrite i x.1.1 x.1.2 x.2) evs.
Proof.
  induction evs as [|ev evs IH]; simpl; [auto|].
  destruct ev as [| j path val r | | |]; try (intros H; right; now apply IH).
  destruct (Nat.eqb_spec j i) as [->|Hne]; [|intros H; right; now apply IH].
  intros [<-|H]; [now left|right; now apply IH].
Qed.

Lemma written_inv_step pairs (s : state W A) p e :
  (forall i j k v v', pairs !! i = Some (k, v) -> pairs !! j = Some (k, v') -> i = j) ->
  upload_inv pairs s p ->
  written_inv contents pairs s p ->
  written_inv contents pairs s (pool_step write_step p e).
Proof.
  intros Hnd (Hlen & _ & _ & evs0 & _ & _ & Htasks) (evs & Hevs & Hw).
  destruct Hlaw as (Hwok & Hwerr & _ & _).
  destruct e as [i|]; simpl; [|exists evs; now split].
  destruct (futures p !! i) as [[t|r]|] eqn:Hfi; try (exists evs; now split).
  assert (Hi : (i < length pairs)%nat)
    by (rewrite <- Hlen; eapply lookup_lt_Some; eassumption).
  destruct (lookup_lt_is_Some_2 pairs i Hi) as [[k v] Hkv].
  destruct (Htasks i k v Hkv) as (f & Hf & Hinv).
  rewrite Hfi in Hf. injection Hf as <-. destruct Hinv as (Hk & Hv & _).
  unfold write_step. destruct (wt_err t) as [err|] eqn:Hterr; [|exists evs; now split].
  destruct (ctxDone p); [exists evs; now split|].
  destruct (Write false (wt_path t) (wt_val t) (store (st p))) as [r w'] eqn:HW.
  set (new := (if is_errStart err then [] else [EvSleep i 50])
              ++ [EvWrite i (wt_path t) (wt_val t) r]).
  exists (evs ++ new). simpl. split; [rewrite Hevs; now rewrite <- app_assoc|].
  assert (Hwn : forall j', writes_of j' new
                           = if (i =? j')%nat then [(wt_path t, wt_val t, r)] else []).
  { intros j'. subst new. rewrite writes_of_app. simpl.
    destruct (is_errStart err); simpl; destruct (i =? j')%nat; reflexivity. }
  intros j kj vj Hj. rewrite writes_of_app, Hwn.
  destruct (Hw j kj vj Hj) as [Hyes Hno].
  destruct (decide (i = j)) as [<-|Hne].
  - rewrite Nat.eqb_refl. rewrite Hkv in Hj. injection Hj as <- <-.
    rewrite Hk, Hv in *. destruct r as [e|].
    + apply Hwerr in HW. rewrite HW. split.
      * intros Hin. apply in_app_or in Hin as [Hin|[Hin|[]]];
          [now apply Hyes|discriminate].
      * intros Hnin. apply Hno. intros Hin. apply Hnin. apply in_or_app. now left.
    + apply Hwok in HW. rewrite HW. split.
      * intros _. apply lookup_insert_eq.
      * intros Hnin. exfalso. apply Hnin. apply in_or_app. right. now left.
  - assert (Hne' : (i =? j)%nat = false) by now apply Nat.eqb_neq.
    rewrite Hne', app_nil_r.
    assert (Hsame : contents w' !! kj = contents (store (st p)) !! kj).
    { destruct r as [e|]; [apply Hwerr in HW; now rewrite HW|].
      apply Hwok in HW. rewrite HW. apply lookup_insert_ne.
      rewrite Hk. intros <-. apply Hne. apply (Hnd i j k v vj Hkv Hj). }
    rewrite Hsame. now split.
Qed.

Lemma written_inv_run sch ctx (kvs : gmap string bytes) (s : state W A) :
  written_inv contents (pick_order (range_order sch) (map_to_list kvs)) s
    (upload_pool sch ctx kvs s).
Proof.
  set (pairs := pick_order (range_order sch) (map_to_list kvs)).
  assert (H : upload_inv pairs s (upload_pool sch ctx kvs s)
              /\ written_inv contents pairs s (upload_pool sch ctx kvs s)); [|apply H].
  unfold upload_pool. apply run_pool_ind.
  - intros p e [Hu Hc]. split; [now apply upload_inv_step|].
    apply written_inv_step; try assumption.
    intros i j k v v'. apply batch_pairs_nodup.
  - split; [apply (upload_inv_run {| range_order := range_order sch; steps := [] |})|].
    exists []. simpl. split; [now rewrite app_nil_r|].
    intros i k v _. split; [intros []|reflexivity].
Qed.

(** What the store holds after an upload, whatever the upload returned, by
    the writes that succeeded. *)
Lemma upload_contents_written sch ctx CollectionID segID (kvs : gmap string bytes)
    (s : state W A) :
  let s' := (uploadSegmentFiles sch ctx CollectionID segID kvs s).2 in
  (forall i k v, In (k, v, None) (writes_of i (since s s')) ->
     kvs !! k = Some v /\ contents (store s') !! k = Some v)
  /\ (forall k v, kvs !! k = Some v ->
        (forall i, ~ In (k, v, None) (writes_of i (since s s'))) ->
        contents (store s') !! k = contents (store s) !! k).
Proof.
  destruct (decide (kvs = ∅)) as [->|Hne].
  { simpl. unfold since. rewrite drop_all. split.
    - intros i k v [].
    - intros k v Hk. now rewrite lookup_empty in Hk. }
  rewrite upload_result by exact Hne. simpl.
  destruct (written_inv_run sch ctx kvs s) as (evs & Hevs & Hw).
  destruct (upload_inv_run sch ctx kvs s) as (_ & _ & _ & evs' & Hevs' & Hall & _).
  rewrite (since_app s _ evs Hevs).
  assert (evs' = evs) as -> by (rewrite Hevs in Hevs'; now apply app_inv_head in Hevs').
  split.
  - intros i k v Hin.
    assert (Hi : pick_order (range_order sch) (map_to_list kvs) !! i = Some (k, v)).
    { apply writes_of_In in Hin. rewrite Forall_forall in Hall.
      apply list_elem_of_In in Hin. exact (Hall _ Hin). }
    split; [eapply batch_pairs_lookup; exact Hi|]. now apply (Hw i k v Hi).
  - intros k v Hk Hnone.
    destruct (batch_pairs_complete (range_order sch) kvs k v Hk) as [i Hi].
    apply (Hw i k v Hi). apply Hnone.
Qed.

Lemma read_step_state done i t (s : state W A) :
  (read_step done i t s).2
  = {| store := (Read done (rt_path t) (store s)).2; ids := ids s;
       trace := trace s ++ [EvRead i (rt_path t) (Read done (rt_path t) (store s)).1] |}.
Proof.
  unfold read_step. destruct (Read done (rt_path t) (store s)) as [r w'].
  destruct (retry_round _ _ _ _) as [|[e|]]; reflexivity.
Qed.

Lemma reading_inv_step paths (s : state W A) p e :
  download_inv paths s p ->
  reading_inv contents paths s p ->
  reading_inv contents paths s (pool_step read_step p e).
Proof.
  intros (_ & [evs Hevs] & _ & _) [Hsame Hreads].
  destruct Hlaw as (_ & _ & Hrok & Hrerr).
  destruct e as [i|]; simpl; [|now split].
  destruct (futures p !! i) as [[t|r]|] eqn:Hfi; try (now split).
  pose proof (read_step_state (ctxDone p) i t (st p)) as Hst.
  destruct (read_step (ctxDone p) i t (st p)) as [f' s'']. simpl in Hst. subst s''.
  destruct (Read (ctxDone p) (rt_path t) (store (st p))) as [r w'] eqn:HR. simpl.
  assert (Hc : contents w' = contents (store s)).
  { rewrite <- Hsame. destruct r as [val|e0]; [now apply Hrok in HR|now apply Hrerr in HR]. }
  split; [exact Hc|]. intros j path val Hin.
  erewrite since_app in Hin by (simpl; rewrite Hevs, <- app_assoc; reflexivity).
  apply in_app_or in Hin as [Hin|[Hin|[]]].
  - apply (Hreads j path val). now rewrite (since_app s (st p) evs Hevs).
  - injection Hin as <- <- ->. apply Hrok in HR as [HR _]. now rewrite <- Hsame.
Qed.

Lemma reading_inv_run sched ctx paths (s : state W A) :
  reading_inv contents paths s (download_pool sched ctx paths s).
Proof.
  assert (H : download_inv paths s (download_pool sched ctx paths s)
              /\ reading_inv contents paths s (download_pool sched ctx paths s));
    [|apply H].
  unfold download_pool. apply run_pool_ind.
  - intros p e [Hd Hr]. split; [now apply download_inv_step|now apply reading_inv_step].
  - split; [apply (download_inv_run [] ctx paths s)|].
    split; [reflexivity|]. simpl. unfold since. simpl. rewrite drop_all. intros i path val [].
Qed.

Lemma reads_of_In i x evs : In x (reads_of i evs) -> In (EvRead i x.1 x.2) evs.
Proof.
  induction evs as [|ev evs IH]; simpl; [auto|].
  destruct ev as [j path r| | | |]; try (intros H; right; now apply IH).
  destruct (Nat.eqb_spec j i) as [->|Hne]; [|intros H; right; now apply IH].
  intros [<-|H]; [now left|right; now apply IH].
Qed.

(** What a download that succeeds returns, and what it leaves. *)
Lemma download_contents sched ctx (paths : list string) (s s' : state W A) resp err :
  download sched ctx paths s = (Returned (Some resp, err), s') ->
  contents (store s') = contents (store s)
  /\ length resp = length paths
  /\ forall i path, paths !! i = Some path ->
       exists val, contents (store s) !! path = Some val
                   /\ resp !! i = Some (Some (blob_of val)).
Proof.
  intros H. destruct (decide (paths = [])) as [->|Hne].
  - injection H as <- <- <-. split; [reflexivity|]. split; [reflexivity|].
    intros i path Hi. now rewrite lookup_nil in Hi.
  - rewrite download_state in H by exact Hne. injection H as Hres <-.
    destruct (reading_inv_run sched ctx paths s) as [Hsame Hreads].
    split; [exact Hsame|].
    apply await_blobs_ok in Hres as (_ & Hlen & _ & Hfs).
    rewrite length_replicate in Hlen, Hfs. split; [exact Hlen|].
    intros i path Hi.
    destruct (download_inv_run sched ctx paths s) as (_ & _ & _ & Htasks).
    destruct (Htasks i path Hi) as (f & Hf & Hinv).
    destruct (Hfs i f Hf) as (val & -> & Hout). exists val. split.
    + destruct Hinv as (rs' & Hrs & _). apply (Hreads i path val).
      apply (reads_of_In i (path, Ok val)). rewrite Hrs.
      apply in_or_app. right. now left.
    + apply Hout. simpl. now apply lookup_lt_Some in Hi.
Qed.

End StoreFacts.

Section StoreTheorems.
Context {W A : Type} {cm : ChunkManager W} {merr : Merr}.

(** X5: On a store that keeps what is written, an upload that returns nil
    leaves the store holding the whole batch, and everything else as it
    was. *)
Theorem upload_stores_batch (contents : W -> gmap string bytes)
    sch ctx CollectionID segID (kvs : gmap string bytes) (s s' : state W A) :
  lawful contents ->
  uploadSegmentFiles sch ctx CollectionID segID kvs s = (Returned None, s') ->
  contents (store s') = kvs ∪ contents (store s).
Proof. intros Hlaw. now apply upload_contents_ok. Qed.

(** X6: Whatever an upload returns, also the error of a cancellation half
    way, nothing is rolled back and nothing else is touched: a path outside
    the batch holds what it held; a pair whose write succeeded is a pair of
    the batch and the store holds its value; and a pair of the batch no
    write of which succeeded is left as it was. *)
Theorem upload_partial_writes (contents : W -> gmap string bytes)
    sch ctx CollectionID segID (kvs : gmap string bytes) (s : state W A) :
  lawful contents ->
  let s' := (uploadSegmentFiles sch ctx CollectionID segID kvs s).2 in
  (forall key, kvs !! key = None ->
     contents (store s') !! key = contents (store s) !! key)
  /\ (forall i k v, In (k, v, None) (writes_of i (since s s')) ->
        kvs !! k = Some v /\ contents (store s') !! k = Some v)
  /\ (forall k v, kvs !! k = Some v ->
        (forall i, ~ In (k, v, None) (writes_of i (since s s'))) ->
        contents (store s') !! k = contents (store s) !! k).
Proof.
  intros Hlaw s'. subst s'. split.
  - intros key Hnone.
    destruct (upload_contents_any contents Hlaw sch ctx CollectionID segID kvs s key)
      as [H|(v & Hv & _)]; [exact H|congruence].
  - apply (upload_contents_written contents Hlaw).
Qed.

(** X7: On a store that keeps what is written, a download that succeeds
    returns at every index what the store held under the path of that
    index when the call began, and leaves the store holding the same. *)
Theorem download_returns_contents (contents : W -> gmap string bytes)
    sched ctx (paths : list string) (s s' : state W A) resp err :
  lawful contents ->
  download sched ctx paths s = (Returned (Some resp, err), s') ->
  contents (store s') = contents (store s)
  /\ length resp = length paths
  /\ forall i path, paths !! i = Some path ->
       exists val, contents (store s) !! path = Some val
                   /\ resp !! i = Some (Some (blob_of val)).
Proof. intros Hlaw. now apply download_contents. Qed.

(** X8: Round trip: after an upload that returned nil, a download that
    succeeds gives back, for every path of the batch, the bytes of the
    batch. *)
Theorem upload_download_roundtrip (contents : W -> gmap string bytes)
    sch ctx CollectionID segID (kvs : gmap string bytes) (s s1 s2 : state W A)
    sched ctx' (paths : list string) resp err :
  lawful contents ->
  uploadSegmentFiles sch ctx CollectionID segID kvs s = (Returned None, s1) ->
  download sched ctx' paths s1 = (Returned (Some resp, err), s2) ->
  forall i path v, paths !! i = Some path -> kvs !! path = Some v ->
    resp !! i = Some (Some (blob_of v)).
Proof.
  intros Hlaw Hup Hdown i path v Hi Hv.
  apply (upload_contents_ok contents Hlaw) in Hup.
  apply (download_contents contents Hlaw) in Hdown as (_ & _ & Hdown).
  destruct (Hdown i path Hi) as (val & Hval & Hresp).
  rewrite Hup, (lookup_union_Some_l kvs _ path v Hv) in Hval. congruence.
Qed.

End StoreTheorems.

(** ** More on download *)

Section DownloadMore.
Context {W A : Type} {cm : ChunkManager W} {merr : Merr}.

Lemma download_events_run sched ctx paths (s : state W A) :
  exists evs, trace (st (download_pool sched ctx paths s)) = trace s ++ evs
              /\ Forall (download_event paths) evs.
Proof.
  assert (H : download_inv paths s (download_pool sched ctx paths s)
              /\ exists evs, trace (st (download_pool sched ctx paths s)) = trace s ++ evs
                             /\ Forall (download_event paths) evs); [|apply H].
  unfold download_pool. apply run_pool_ind.
  - intros p e [Hd (evs & Hevs & Hall)]. split; [now apply download_inv_step|].
    destruct Hd as (Hlen & _ & _ & Htasks).
    destruct e as [i|]; simpl; [|eauto].
    destruct (futures p !! i) as [[t|r]|] eqn:Hfi; eauto.
    assert (Hi : (i < length paths)%nat)
      by (rewrite <- Hlen; eapply lookup_lt_Some; eassumption).
    destruct (lookup_lt_is_Some_2 paths i Hi) as [path Hpath].
    destruct (Htasks i path Hpath) as (f & Hf & Hinv).
    rewrite Hfi in Hf. injection Hf as <-. destruct Hinv as (Hp & _).
    pose proof (read_step_state (ctxDone p) i t (st p)) as Hst.
    destruct (read_step (ctxDone p) i t (st p)) as [f' s'']. simpl in Hst. subst s''.
    simpl. eexists. split; [rewrite Hevs, <- app_assoc; reflexivity|].
    apply Forall_app. split; [exact Hall|]. repeat constructor. simpl. now rewrite Hp.
  - split; [apply (download_inv_run [] ctx paths s)|].
    exists []. split; [simpl; now rewrite app_nil_r|constructor].
Qed.

(** X9: A download, whatever it returns, writes nothing and asks nothing of
    the allocator: all it does is read, task [i] the path at index [i]. *)
Theorem download_only_reads sched ctx (paths : list string) (s : state W A) :
  let s' := (download sched ctx paths s).2 in
  ids s' = ids s
  /\ exists evs,
       trace s' = trace s ++ evs
       /\ forall ev, In ev evs ->
            exists i path r, ev = EvRead i path r /\ paths !! i = Some path.
Proof.
  destruct (decide (paths = [])) as [->|Hne].
  { simpl. split; [reflexivity|]. exists []. split; [now rewrite app_nil_r|].
    intros ev []. }
  rewrite download_state by exact Hne. simpl.
  destruct (download_inv_run sched ctx paths s) as (_ & _ & Hids & _).
  destruct (download_events_run sched ctx paths s) as (evs & Hevs & Hall).
  split; [exact Hids|]. exists evs. split; [exact Hevs|].
  intros ev Hin. rewrite Forall_forall in Hall.
  specialize (Hall ev). rewrite list_elem_of_In in Hall. specialize (Hall Hin).
  destruct ev as [i path r| | | |]; simpl in Hall; try contradiction.
  now exists i, path, r.
Qed.

(** One round of a read task ends it, or leaves it with one more call
    made and fewer than three in all. *)
Lemma read_step_future done i t (s : state W A) :
  (exists r, (read_step done i t s).1 = Done r)
  \/ ((read_step done i t s).1
      = Pending {| rt_path := rt_path t; rt_tried := S (rt_tried t) |}
      /\ (S (rt_tried t) < Attempts)%nat).
Proof.
  unfold read_step. destruct (Read done (rt_path t) (store s)) as [[val|e] w']; simpl.
  - left. eauto.
  - destruct (IsRetryableErr e); simpl; [|left; eauto].
    destruct (Nat.ltb_spec (S (rt_tried t)) Attempts); simpl; [right; auto|left; eauto].
Qed.

Lemma read_rounds_end sched :
  forall (p : pool read_task bytes (state W A)) i t,
  futures p !! i = Some (Pending t) ->
  (rt_tried t < Attempts)%nat ->
  (Attempts <= rt_tried t + count_run i sched)%nat ->
  exists r, futures (run_pool read_step sched p) !! i = Some (Done r).
Proof.
  induction sched as [|e sched IH]; intros p i t Hi Hlt Hge; [simpl in Hge; lia|].
  simpl. destruct e as [j|]; [|now apply (IH _ i t)].
  simpl in Hge. destruct (Nat.eqb_spec j i) as [->|Hne].
  - simpl. rewrite Hi.
    destruct (read_step_future (ctxDone p) i t (st p)) as [[r Hr]|[Hr Hlt']];
      destruct (read_step (ctxDone p) i t (st p)) as [f' s'']; simpl in Hr; subst f'.
    + exists r. apply done_stable. simpl. apply list_lookup_insert_eq.
      eapply lookup_lt_Some. exact Hi.
    + eapply IH.
      * simpl. apply list_lookup_insert_eq. eapply lookup_lt_Some. exact Hi.
      * exact Hlt'.
      * simpl. lia.
  - apply (IH _ i t); [|exact Hlt|simpl in Hge; lia].
    simpl. destruct (futures p !! j) as [[tj|rj]|] eqn:Hj; try exact Hi.
    destruct (read_step (ctxDone p) j tj (st p)). simpl.
    now rewrite list_lookup_insert_ne.
Qed.

Lemma await_blobs_all_done (fs : list (future read_task bytes)) :
  forall i resp,
  (forall k f, fs !! k = Some f -> exists r, f = Done r) ->
  exists r, await_blobs fs i resp = Returned r.
Proof.
  induction fs as [|f fs IH]; intros i resp Hall; simpl; [eauto|].
  destruct (Hall 0%nat f eq_refl) as [[val|e] ->]; [|eauto].
  apply IH. intros k g Hk. apply (Hall (S k) g Hk).
Qed.

(** X10: A download returns once every task has had three rounds: the caller
    never waits for more than three reads of a path. *)
Theorem download_returns_after_three_rounds sched ctx (paths : list string)
    (s : state W A) :
  (forall i, (i < length paths)%nat -> (3 <= count_run i sched)%nat) ->
  exists r, (download sched ctx paths s).1 = Returned r.
Proof.
  intros Hfair. destruct (decide (paths = [])) as [->|Hne]; [simpl; eauto|].
  rewrite download_state by exact Hne. simpl. apply await_blobs_all_done.
  intros k f Hk.
  assert (Hlt : (k < length paths)%nat).
  { unfold download_pool in Hk. apply lookup_lt_Some in Hk.
    rewrite run_pool_length in Hk. simpl in Hk. now rewrite length_map in Hk. }
  destruct (lookup_lt_is_Some_2 paths k Hlt) as [path Hpath].
  unfold download_pool in *.
  destruct (read_rounds_end sched
              {| ctxDone := ctx;
                 futures := map (fun path => Pending {| rt_path := path; rt_tried := 0 |}) paths;
                 st := s |} k {| rt_path := path; rt_tried := 0 |}) as [r Hr].
  - simpl. now rewrite list_lookup_fmap, Hpath.
  - unfold Attempts. simpl. lia.
  - unfold Attempts. simpl. now apply Hfair.
  - rewrite Hr in Hk. injection Hk as <-. eauto.
Qed.

End DownloadMore.

(** ** More on the three uploads *)

Section UploadLogMore.
Context {W A InsertData PrimaryKeyStats : Type}.
Context {cm : ChunkManager W} {al : Allocator A}.
Context {codec : Codec InsertData PrimaryKeyStats} {lp : LogPaths}.

Lemma quiet_refl (s : state W A) : quiet s s.
Proof. split; [reflexivity|]. exists []. split; [now rewrite app_nil_r|reflexivity]. Qed.

Lemma quiet_trans (s s1 s2 : state W A) : quiet s s1 -> quiet s1 s2 -> quiet s s2.
Proof.
  intros [H1 (e1 & Ht1 & Hw1)] [H2 (e2 & Ht2 & Hw2)]. split; [congruence|].
  exists (e1 ++ e2). split; [rewrite Ht2, Ht1; now rewrite <- app_assoc|].
  intros i. now rewrite writes_of_app, Hw1, Hw2.
Qed.

Lemma quiet_since (s s1 : state W A) :
  quiet s s1 -> store s1 = store s /\ forall i, writes_of i (since s s1) = [].
Proof.
  intros [H (evs & Ht & Hw)]. split; [exact H|]. intros i.
  now rewrite (since_app s s1 evs Ht).
Qed.

Lemma allocOne_quiet (s : state W A) : quiet s (allocOne s).2.
Proof.
  unfold allocOne. destruct (AllocOne (ids s)) as [[idx|e] a']; simpl;
    (split; [reflexivity|]; eexists; split; [reflexivity|reflexivity]).
Qed.

Lemma getGenerator_quiet count (s : state W A) : quiet s (getGenerator count s).2.
Proof.
  unfold getGenerator. destruct (GetGenerator count (ids s)) as [[g|e] a']; simpl;
    (split; [reflexivity|]; eexists; split; [reflexivity|reflexivity]).
Qed.

Lemma genInsertBlobs_quiet (data : InsertData) partID segID meta kvs (s : state W A) :
  quiet s (genInsertBlobs data partID segID meta kvs s).2.
Proof.
  unfold genInsertBlobs. destruct (Serialize meta partID segID data) as [inlogs|e];
    [|apply quiet_refl].
  pose proof (getGenerator_quiet (length inlogs) s) as Hq.
  destruct (getGenerator (length inlogs) s) as [[g|e] s1]; [|exact Hq].
  now destruct (insert_loop meta partID segID inlogs g kvs ∅).
Qed.

Lemma genStatBlobs_quiet (stats : PrimaryKeyStats) partID segID meta kvs totRows
    (s : state W A) :
  quiet s (genStatBlobs stats partID segID meta kvs totRows s).2.
Proof.
  unfold genStatBlobs. destruct (SerializePkStats meta stats totRows) as [b|e];
    [|apply quiet_refl].
  pose proof (allocOne_quiet s) as Hq.
  destruct (allocOne s) as [[idx|e] s1]; exact Hq.
Qed.

Lemma genDeltaBlobs_quiet (data : DeleteData) collID partID segID (s : state W A) :
  quiet s (genDeltaBlobs (codec := codec) data collID partID segID s).2.
Proof.
  unfold genDeltaBlobs. destruct (DeleteSerialize collID partID segID data) as [b|e];
    [|apply quiet_refl].
  pose proof (allocOne_quiet s) as Hq.
  destruct (allocOne s) as [[idx|e] s1]; exact Hq.
Qed.

(** X11: An upload that returns an error returns no logs; and unless the error
    is [errUploadToBlobStorage], the error of a cancelled context, it was
    returned before anything was written: an error of the codec or of the
    allocator aborts the call before the first write. *)
Theorem upload_errors_abort :
  (forall sch ctx segID partID (iData : InsertData) meta (s s' : state W A) r e,
      uploadInsertLog sch ctx segID partID iData meta s = (Returned (r, Some e), s') ->
      r = None
      /\ (e <> errUploadToBlobStorage ->
          store s' = store s /\ forall i, writes_of i (since s s') = []))
  /\ (forall sch ctx segID partID (iData : InsertData) (stats : PrimaryKeyStats)
        totRows meta (s s' : state W A) r1 r2 e,
      uploadStatsLog sch ctx segID partID iData stats totRows meta s
      = (Returned (r1, r2, Some e), s') ->
      r1 = None /\ r2 = None
      /\ (e <> errUploadToBlobStorage ->
          store s' = store s /\ forall i, writes_of i (since s s') = []))
  /\ (forall sch ctx segID partID (dData : DeleteData) meta (s s' : state W A) r e,
      uploadDeltaLog (codec := codec) sch ctx segID partID dData meta s
      = (Returned (r, Some e), s') ->
      r = None
      /\ (e <> errUploadToBlobStorage ->
          store s' = store s /\ forall i, writes_of i (since s s') = [])).
Proof.
  split; [|split].
  - intros sch ctx segID partID iData meta s s' r e. unfold uploadInsertLog.
    destruct (IsEmpty iData); [discriminate|].
    pose proof (genInsertBlobs_quiet iData partID segID meta ∅ s) as Hq.
    destruct (genInsertBlobs iData partID segID meta ∅ s) as [[[m|e0] kvs1] s1].
    + pose proof (upload_error_cause sch ctx (ID meta) segID kvs1 s1) as Hc.
      destruct (uploadSegmentFiles sch ctx (ID meta) segID kvs1 s1) as [[|[e1|]] s2];
        try discriminate.
      intros H. injection H as <- <- <-. split; [reflexivity|].
      intros Hne. destruct (Hc e1 eq_refl) as [-> _]. congruence.
    + intros H. injection H as <- <- <-. split; [reflexivity|].
      intros _. now apply quiet_since.
  - intros sch ctx segID partID iData stats totRows meta s s' r1 r2 e.
    unfold uploadStatsLog. cbv zeta.
    assert (Hq1 : quiet s (if negb (IsEmpty iData)
                           then let '(r, kvs1, s1) := genInsertBlobs iData partID segID meta ∅ s in
                                match r with
                                | Ok inPaths => (Ok (Some inPaths), kvs1, s1)
                                | Err e => (Err e, kvs1, s1)
                                end
                           else (Ok None, ∅, s)).2).
    { destruct (negb (IsEmpty iData)); [|apply quiet_refl].
      pose proof (genInsertBlobs_quiet iData partID segID meta ∅ s) as Hq.
      now destruct (genInsertBlobs iData partID segID meta ∅ s) as [[[m|e0] kvs1] s1]. }
    destruct (if negb (IsEmpty iData) then _ else _) as [[[r|e0] kvs1] s1].
    + pose proof (genStatBlobs_quiet stats partID segID meta kvs1 totRows s1) as Hq2.
      destruct (genStatBlobs stats partID segID meta kvs1 totRows s1) as [[[sp|e1] kvs2] s2].
      * pose proof (upload_error_cause sch ctx (ID meta) segID kvs2 s2) as Hc.
        destruct (uploadSegmentFiles sch ctx (ID meta) segID kvs2 s2) as [[|[e2|]] s3];
          try discriminate.
        intros H. injection H as <- <- <- <-. split; [reflexivity|]. split; [reflexivity|].
        intros Hne. destruct (Hc e2 eq_refl) as [-> _]. congruence.
      * intros H. injection H as <- <- <- <-. split; [reflexivity|]. split; [reflexivity|].
        intros _. apply quiet_since. now apply (quiet_trans s s1 s2).
    + intros H. injection H as <- <- <- <-. split; [reflexivity|]. split; [reflexivity|].
      intros _. now apply quiet_since.
  - intros sch ctx segID partID dData meta s s' r e. unfold uploadDeltaLog.
    destruct (0 <? RowCount dData)%Z; [|discriminate].
    pose proof (genDeltaBlobs_quiet dData (ID meta) partID segID s) as Hq.
    destruct (genDeltaBlobs dData (ID meta) partID segID s) as [[[k v]|e0] s1].
    + cbv zeta.
      pose proof (upload_error_cause sch ctx (ID meta) segID (<[k:=v]> ∅) s1) as Hc.
      destruct (uploadSegmentFiles sch ctx (ID meta) segID (<[k:=v]> ∅) s1) as [[|[e1|]] s2];
        try discriminate.
      intros H. injection H as <- <- <-. split; [reflexivity|].
      intros Hne. destruct (Hc e1 eq_refl) as [-> _]. congruence.
    + intros H. injection H as <- <- <-. split; [reflexivity|].
      intros _. now apply quiet_since.
Qed.

End UploadLogMore.

Section InsertMore.
Context {W A InsertData PrimaryKeyStats : Type}.
Context {cm : ChunkManager W} {al : Allocator A} {merr : Merr}.
Context {codec : Codec InsertData PrimaryKeyStats} {lp : LogPaths}.

(** With identifiers that differ, one for each blob, every blob gets a
    path of its own. *)
Lemma insert_loop_size meta partID segID :
  Path.plain SegmentInsertLogPath = true ->
  forall inlogs generator kvs inpaths,
  NoDup generator -> (length inlogs <= length generator)%nat ->
  (forall f idx, idx ∈ generator ->
     kvs !! binlogKey RootPath SegmentInsertLogPath [ID meta; partID; segID; f; idx] = None) ->
  size (insert_loop meta partID segID inlogs generator kvs inpaths).1
  = (size kvs + length inlogs)%nat.
Proof.
  intros Hplain. induction inlogs as [|blob rest IH];
    intros generator kvs inpaths Hnd Hlen Hfresh; [simpl; lia|].
  destruct generator as [|x g]; [simpl in Hlen; lia|].
  simpl. apply NoDup_cons in Hnd as [Hx Hnd].
  fold (binlogKey RootPath SegmentInsertLogPath
          [ID meta; partID; segID; ParseInt (Key blob); x]).
  rewrite IH.
  - rewrite map_size_insert_None by (apply Hfresh; apply list_elem_of_here). lia.
  - exact Hnd.
  - simpl in Hlen. lia.
  - intros f idx Hidx. rewrite lookup_insert_ne.
    + apply Hfresh. now apply list_elem_of_further.
    + intros E. apply binlogKey_inj in E as [_ E]; try assumption; try discriminate.
      injection E as _ E. subst idx. contradiction.
Qed.

(** X12: When the generator delivers identifiers that differ, one for each
    blob, the batch of [genInsertBlobs] has one pair for each blob of the
    codec: no blob takes the path of another, also when two blobs are of
    the same field. *)
Theorem genInsertBlobs_one_pair_per_blob (data : InsertData) partID segID meta
    (s s1 : state W A) inpaths kvs' inlogs generator a' :
  Path.plain SegmentInsertLogPath = true ->
  Serialize meta partID segID data = Ok inlogs ->
  GetGenerator (length inlogs) (ids s) = (Ok generator, a') ->
  NoDup generator -> (length inlogs <= length generator)%nat ->
  genInsertBlobs data partID segID meta ∅ s = (Ok inpaths, kvs', s1) ->
  size kvs' = length inlogs.
Proof.
  intros Hplain Hser Hgen Hnd Hlen. unfold genInsertBlobs, getGenerator.
  rewrite Hser, Hgen.
  pose proof (insert_loop_size meta partID segID Hplain inlogs generator ∅ ∅ Hnd Hlen) as Hsz.
  destruct (insert_loop meta partID segID inlogs generator ∅ ∅) as [k i].
  intros H. injection H as <- <- <-. simpl in Hsz. rewrite Hsz.
  - now rewrite map_size_empty.
  - intros f idx _. apply lookup_empty.
Qed.

Lemma insert_loop_blob_inv blobs meta partID segID :
  Path.plain SegmentInsertLogPath = true ->
  forall inlogs generator kvs inpaths,
  (forall b, b ∈ inlogs -> b ∈ blobs) ->
  insert_blob_inv blobs meta partID segID kvs inpaths ->
  insert_blob_inv blobs meta partID segID
    (insert_loop meta partID segID inlogs generator kvs inpaths).1
    (insert_loop meta partID segID inlogs generator kvs inpaths).2.
Proof.
  intros Hplain. induction inlogs as [|blob rest IH];
    intros generator kvs inpaths Hsub Hinv; [exact Hinv|].
  simpl. destruct (recv generator) as [idx generator'].
  apply IH; [intros b Hb; apply Hsub; now apply list_elem_of_further|].
  intros f fb Hf.
  fold (binlogKey RootPath SegmentInsertLogPath
          [ID meta; partID; segID; ParseInt (Key blob); idx]) in *.
  destruct (decide (ParseInt (Key blob) = f)) as [<-|Hne].
  - rewrite lookup_insert_eq in Hf. injection Hf as <-.
    exists blob, idx. split; [apply Hsub, list_elem_of_here|].
    split; [reflexivity|]. split; [reflexivity|]. apply lookup_insert_eq.
  - rewrite lookup_insert_ne in Hf by exact Hne.
    destruct (Hinv f fb Hf) as (b & idx' & Hb & Hkey & -> & Hv).
    exists b, idx'. split; [exact Hb|]. split; [exact Hkey|]. split; [reflexivity|].
    rewrite lookup_insert_ne; [exact Hv|].
    intros E. apply binlogKey_inj in E as [_ E]; try assumption; try discriminate.
    congruence.
Qed.

(** X13: Round trip of an insert log.  When [uploadInsertLog] returns the log
    of a field, the log has one entry, made of a blob that the codec gave
    for that field: its rows, the length of its payload, and a path; and on
    a store that keeps what is written, a download of that path that
    succeeds returns the payload of the blob, byte for byte. *)
Theorem insert_log_roundtrip (contents : W -> gmap string bytes)
    sch ctx segID partID (iData : InsertData) meta (s s1 : state W A) inpaths err f fb :
  Path.plain SegmentInsertLogPath = true ->
  lawful contents ->
  uploadInsertLog sch ctx segID partID iData meta s = (Returned (Some inpaths, err), s1) ->
  inpaths !! f = Some fb ->
  exists inlogs blob path,
    Serialize meta partID segID iData = Ok inlogs
    /\ blob ∈ inlogs /\ ParseInt (Key blob) = f
    /\ fb = {| FieldID := f;
               Binlogs := [{| EntriesNum := RowNum blob; LogPath := path;
                              LogSize := Z.of_nat (length (Value blob)) |}] |}
    /\ forall sched ctx' resp err' s2,
         download sched ctx' [path] s1 = (Returned (Some resp, err'), s2) ->
         resp = [Some (blob_of (Value blob))].
Proof.
  intros Hplain Hlaw. unfold uploadInsertLog.
  destruct (IsEmpty iData); [discriminate|].
  destruct (genInsertBlobs iData partID segID meta ∅ s) as [[[m|e] kvs1] s0] eqn:Hg;
    [|discriminate].
  destruct (uploadSegmentFiles sch ctx (ID meta) segID kvs1 s0) as [[|[e|]] s2] eqn:Hu;
    try discriminate.
  intros H Hf. injection H as <- <- <-.
  apply genInsertBlobs_ok in Hg as (inlogs & generator & Hser & _ & Hl).
  pose proof (insert_loop_blob_inv inlogs meta partID segID Hplain inlogs generator ∅ ∅
                ltac:(auto)) as Hinv.
  rewrite Hl in Hinv. simpl in Hinv.
  destruct (Hinv ltac:(intros ? ? H'; now rewrite lookup_empty in H') f fb Hf)
    as (blob & idx & Hb & Hkey & -> & Hv).
  exists inlogs, blob,
    (binlogKey RootPath SegmentInsertLogPath [ID meta; partID; segID; f; idx]).
  split; [exact Hser|]. split; [exact Hb|]. split; [exact Hkey|]. split; [reflexivity|].
  intros sched ctx' resp err' s3 Hd.
  apply (upload_contents_ok contents Hlaw) in Hu.
  apply (download_contents contents Hlaw) in Hd as (_ & Hlen & Hd).
  destruct (Hd 0%nat _ eq_refl) as (val & Hval & Hresp).
  rewrite Hu, (lookup_union_Some_l kvs1 _ _ _ Hv) in Hval. injection Hval as <-.
  destruct resp as [|x [|y resp]]; simpl in Hlen; try discriminate.
  simpl in Hresp. now injection Hresp as ->.
Qed.

(** X14: [uploadDeltaLog] returns logs only for a row count above 0, a count
    below 0 being a no-op like 0; the logs are then one log, of field 0,
    with one entry: the row count, the delta key made with the one
    identifier taken from the allocator, and the length of the payload of
    the codec.  On a store that keeps what is written, a download of that
    key that succeeds returns that payload. *)
Theorem delta_log_roundtrip (contents : W -> gmap string bytes)
    sch ctx segID partID (dData : DeleteData) meta (s : state W A) :
  lawful contents ->
  ((RowCount dData <= 0)%Z ->
   uploadDeltaLog (codec := codec) sch ctx segID partID dData meta s
   = (Returned (None, None), s))
  /\ forall deltaInfo err s1,
       uploadDeltaLog (codec := codec) sch ctx segID partID dData meta s
       = (Returned (Some deltaInfo, err), s1) ->
       (0 < RowCount dData)%Z /\ err = None
       /\ exists blob idx a',
            DeleteSerialize (ID meta) partID segID dData = Ok blob
            /\ AllocOne (ids s) = (Ok idx, a') /\ ids s1 = a'
            /\ deltaInfo
               = [{| FieldID := 0;
                     Binlogs := [{| EntriesNum := RowCount dData;
                                    LogPath := binlogKey RootPath SegmentDeltaLogPath
                                                 [ID meta; partID; segID; idx];
                                    LogSize := Z.of_nat (length (Value blob)) |}] |}]
            /\ forall sched ctx' resp err' s2,
                 download sched ctx'
                   [binlogKey RootPath SegmentDeltaLogPath [ID meta; partID; segID; idx]] s1
                 = (Returned (Some resp, err'), s2) ->
                 resp = [Some (blob_of (Value blob))].
Proof.
  intros Hlaw. split.
  - intros Hle. unfold uploadDeltaLog.
    destruct (Z.ltb_spec 0 (RowCount dData)); [lia|reflexivity].
  - intros deltaInfo err s1. unfold uploadDeltaLog.
    destruct (Z.ltb_spec 0 (RowCount dData)) as [Hpos|]; [|discriminate].
    destruct (genDeltaBlobs dData (ID meta) partID segID s) as [[[k v]|e] s0] eqn:Hg;
      [|discriminate].
    cbv zeta.
    destruct (uploadSegmentFiles sch ctx (ID meta) segID (<[k:=v]> ∅) s0) as [[|[e|]] s2] eqn:Hu;
      try discriminate.
    intros H. injection H as <- <- <-.
    split; [exact Hpos|]. split; [reflexivity|].
    apply genDeltaBlobs_ok in Hg as (blob & idx & a' & Hser & Ha & -> & -> & ->).
    exists blob, idx, a'. split; [exact Hser|]. split; [exact Ha|].
    split.
    { pose proof (upload_inv_run sch ctx (<[binlogKey RootPath SegmentDeltaLogPath
                    [ID meta; partID; segID; idx] := Value blob]> ∅)
                    {| store := store s; ids := a';
                       trace := trace s ++ [EvAllocOne (Ok idx)] |}) as (_ & Hids & _).
      rewrite upload_result in Hu by apply insert_non_empty.
      injection Hu as _ <-. exact Hids. }
    split; [reflexivity|].
    intros sched ctx' resp err' s3 Hd.
    apply (upload_contents_ok contents Hlaw) in Hu.
    apply (download_contents contents Hlaw) in Hd as (_ & Hlen & Hd).
    destruct (Hd 0%nat _ eq_refl) as (val & Hval & Hresp).
    rewrite Hu in Hval. erewrite lookup_union_Some_l in Hval by apply lookup_insert_eq.
    injection Hval as <-.
    destruct resp as [|x [|y resp]]; simpl in Hlen; try discriminate.
    simpl in Hresp. now injection Hresp as ->.
Qed.

End InsertMore.

(** ** Field identifiers written and read back *)

Section FieldIDs.

Lemma digits_value_acc d : forall acc,
  digits_value d (Npos acc) = Npos (Pos.of_uint_acc d acc).
Proof.
  induction d; intros acc; simpl; try reflexivity;
    match goal with
    | |- digits_value _ ?n = _ =>
        match goal with
        | |- _ = Npos (Pos.of_uint_acc _ ?q) =>
            replace n with (Npos q) by lia; apply IHd
        end
    end.
Qed.

Lemma digits_value_0 d : digits_value d 0 = Pos.of_uint d.
Proof.
  induction d; simpl; try reflexivity; try exact IHd;
    match goal with
    | |- digits_value _ ?n = Npos (Pos.of_uint_acc _ ?q) =>
        change n with (Npos q); apply digits_value_acc
    end.
Qed.

Lemma digits_value_ge d : forall acc, (acc <= digits_value d acc)%N.
Proof.
  induction d; intros acc; cbn [digits_value]; [lia|..];
    (etransitivity; [|apply IHd]); lia.
Qed.

Lemma maxUint64_eq : maxUint64 = 18446744073709551615%N.
Proof. reflexivity. Qed.

(** A digit that keeps the number within 64 bits is read, and the loop
    goes on: neither test of overflow fires. *)
Lemma parse_digits_step c d s n :
  digit_of c = Some d -> (n * 10 + d <= maxUint64)%N ->
  parse_digits (String c s) n = parse_digits s (n * 10 + d).
Proof.
  intros Hd Hle. cbn [parse_digits]. rewrite Hd. cbv zeta.
  assert (Hcut : (maxUint64 / 10 + 1 = 1844674407370955162)%N) by reflexivity.
  rewrite Hcut. rewrite maxUint64_eq in *.
  destruct (N.leb_spec 1844674407370955162 n) as [H|H]; [lia|].
  destruct (N.ltb_spec 18446744073709551615 (n * 10 + d)) as [H'|H']; [lia|reflexivity].
Qed.

Lemma parse_digits_uint d : forall acc,
  (digits_value d acc <= maxUint64)%N ->
  parse_digits (NilEmpty.string_of_uint d) acc = (digits_value d acc, None).
Proof.
  induction d; intros acc H; cbn [NilEmpty.string_of_uint digits_value] in *;
    [reflexivity|..];
    (erewrite parse_digits_step;
     [apply IHd; exact H
     |reflexivity
     |match type of H with
      | (digits_value ?d' ?n <= _)%N => pose proof (digits_value_ge d' n); lia
      end]).
Qed.

Lemma uint_first_char d :
  d <> Decimal.Nil ->
  exists c rest, NilEmpty.string_of_uint d = String c rest
                 /\ Ascii.eqb c "-" = false /\ Ascii.eqb c "+" = false.
Proof. destruct d; [congruence| ..]; intros _; simpl; eauto. Qed.

Lemma ParseInt_digits d :
  d <> Decimal.Nil -> (digits_value d 0 <= maxUint64)%N ->
  ParseInt (NilEmpty.string_of_uint d)
  = (if (2 ^ 63 <=? Z.of_N (digits_value d 0))%Z then (2 ^ 63 - 1)%Z
     else Z.of_N (digits_value d 0)).
Proof.
  intros Hne Hle. destruct (uint_first_char d Hne) as (c & rest & Hs & Hm & Hp).
  unfold ParseInt. rewrite Hs, Hm, Hp. simpl orb. cbv iota zeta.
  cbn [ParseUint]. rewrite <- Hs, parse_digits_uint by exact Hle. reflexivity.
Qed.

Lemma ParseInt_minus_digits d :
  d <> Decimal.Nil -> (digits_value d 0 <= maxUint64)%N ->
  ParseInt (String "-" (NilEmpty.string_of_uint d))
  = (if (2 ^ 63 <? Z.of_N (digits_value d 0))%Z then (- 2 ^ 63)%Z
     else (- Z.of_N (digits_value d 0))%Z).
Proof.
  intros Hne Hle. destruct (uint_first_char d Hne) as (c & rest & Hs & _).
  unfold ParseInt. change (Ascii.eqb "-" "-") with true.
  change (Ascii.eqb "-" "+" || true) with true. cbv iota zeta.
  rewrite Hs at 1. cbn [ParseUint]. rewrite <- Hs, parse_digits_uint by exact Hle.
  reflexivity.
Qed.

(** X17: The field identifier of a blob is read back from its key: the decimal
    of an identifier of 64 bits parses to that identifier. *)
Theorem ParseInt_FormatInt id :
  (- 2 ^ 63 <= id < 2 ^ 63)%Z -> ParseInt (FormatInt id) = id.
Proof.
  intros Hrange. unfold FormatInt. destruct id as [|p|p]; [reflexivity| |].
  - simpl Z.to_int. simpl NilZero.string_of_int.
    pose proof (DecimalPos.Unsigned.to_uint_nonnil p) as Hnn.
    assert (Hs : NilZero.string_of_uint (Pos.to_uint p)
                 = NilEmpty.string_of_uint (Pos.to_uint p))
      by (destruct (Pos.to_uint p); [congruence|reflexivity..]).
    assert (Hv : digits_value (Pos.to_uint p) 0 = N.pos p)
      by (now rewrite digits_value_0, DecimalPos.Unsigned.of_to).
    rewrite Hs, ParseInt_digits, Hv; [|exact Hnn|rewrite Hv, maxUint64_eq; lia].
    destruct (Z.leb_spec (2 ^ 63) (Z.of_N (N.pos p))); [lia|reflexivity].
  - simpl Z.to_int. simpl NilZero.string_of_int.
    pose proof (DecimalPos.Unsigned.to_uint_nonnil p) as Hnn.
    assert (Hs : NilZero.string_of_uint (Pos.to_uint p)
                 = NilEmpty.string_of_uint (Pos.to_uint p))
      by (destruct (Pos.to_uint p); [congruence|reflexivity..]).
    assert (Hv : digits_value (Pos.to_uint p) 0 = N.pos p)
      by (now rewrite digits_value_0, DecimalPos.Unsigned.of_to).
    rewrite Hs, ParseInt_minus_digits, Hv; [|exact Hnn|rewrite Hv, maxUint64_eq; lia].
    destruct (Z.ltb_spec (2 ^ 63) (Z.of_N (N.pos p))); [lia|reflexivity].
Qed.

End FieldIDs.

Section StatsMore.
Context {W A InsertData PrimaryKeyStats : Type}.
Context {cm : ChunkManager W} {al : Allocator A} {merr : Merr}.
Context {codec : Codec InsertData PrimaryKeyStats} {lp : LogPaths}.

(** A download of one path that the store holds. *)
Lemma download_one (contents : W -> gmap string bytes) sched ctx path v
    (s s' : state W A) resp err :
  lawful contents ->
  contents (store s) !! path = Some v ->
  download sched ctx [path] s = (Returned (Some resp, err), s') ->
  resp = [Some (blob_of v)].
Proof.
  intros Hlaw Hv Hd.
  apply (download_contents contents Hlaw) in Hd as (_ & Hlen & Hd).
  destruct (Hd 0%nat _ eq_refl) as (val & Hval & Hresp).
  rewrite Hv in Hval. injection Hval as <-.
  destruct resp as [|x [|y resp]]; simpl in Hlen; try discriminate.
  simpl in Hresp. now injection Hresp as ->.
Qed.

(** X15: Round trip of a stats log, and of the insert logs uploaded with it.
    When [uploadStatsLog] returns its logs, the stats logs are one log with
    one entry, the total row count, the length of the payload that the
    codec gave for the statistics, and a path; on a store that keeps what
    is written, a download of that path that succeeds returns that payload,
    and a download of the path of an insert log returned by the same call
    returns the payload of its blob: the stats blob took the place of no
    insert blob. *)
Theorem stats_log_roundtrip (contents : W -> gmap string bytes)
    sch ctx segID partID (iData : InsertData) (stats : PrimaryKeyStats) totRows meta
    (s s1 : state W A) inPaths statPaths err :
  Path.plain SegmentInsertLogPath = true ->
  Path.plain SegmentStatslogPath = true ->
  SegmentInsertLogPath <> SegmentStatslogPath ->
  lawful contents ->
  uploadStatsLog sch ctx segID partID iData stats totRows meta s
  = (Returned (inPaths, Some statPaths, err), s1) ->
  (exists statBlob path,
     SerializePkStats meta stats totRows = Ok statBlob
     /\ statPaths
        = {[ ParseInt (Key statBlob)
             := {| FieldID := ParseInt (Key statBlob);
                   Binlogs := [{| EntriesNum := totRows; LogPath := path;
                                  LogSize := Z.of_nat (length (Value statBlob)) |}] |} ]}
     /\ forall sched ctx' resp err' s2,
          download sched ctx' [path] s1 = (Returned (Some resp, err'), s2) ->
          resp = [Some (blob_of (Value statBlob))])
  /\ forall m f fb, inPaths = Some m -> m !! f = Some fb ->
       exists inlogs blob path,
         Serialize meta partID segID iData = Ok inlogs
         /\ blob ∈ inlogs /\ ParseInt (Key blob) = f
         /\ fb = {| FieldID := f;
                    Binlogs := [{| EntriesNum := RowNum blob; LogPath := path;
                                   LogSize := Z.of_nat (length (Value blob)) |}] |}
         /\ forall sched ctx' resp err' s2,
              download sched ctx' [path] s1 = (Returned (Some resp, err'), s2) ->
              resp = [Some (blob_of (Value blob))].
Proof.
  intros Hi Hs Hne Hlaw. unfold uploadStatsLog. cbv zeta.
  assert (Hphase :
    forall r kvs1 s0,
      (if negb (IsEmpty iData)
       then let '(r, kvs1, s1) := genInsertBlobs iData partID segID meta ∅ s in
            match r with
            | Ok inPaths => (Ok (Some inPaths), kvs1, s1)
            | Err e => (Err e, kvs1, s1)
            end
       else (Ok None, ∅, s)) = (Ok r, kvs1, s0) ->
      forall m, r = Some m ->
        exists inlogs, Serialize meta partID segID iData = Ok inlogs
                       /\ insert_blob_inv inlogs meta partID segID kvs1 m).
  { intros r kvs1 s0. destruct (negb (IsEmpty iData)).
    - destruct (genInsertBlobs iData partID segID meta ∅ s) as [[[m0|e] k] s0'] eqn:Hg;
        [|discriminate].
      intros H. injection H as <- <- <-. intros m Hm. injection Hm as <-.
      apply genInsertBlobs_ok in Hg as (inlogs & generator & Hser & _ & Hl).
      exists inlogs. split; [exact Hser|].
      pose proof (insert_loop_blob_inv inlogs meta partID segID Hi inlogs generator ∅ ∅
                    ltac:(auto)) as Hinv.
      rewrite Hl in Hinv. simpl in Hinv. apply Hinv.
      intros f' fb' H'. now rewrite lookup_empty in H'.
    - intros H. injection H as <- <- <-. discriminate. }
  destruct (if negb (IsEmpty iData) then _ else _) as [[[r|e] kvs1] s0] eqn:Hp;
    [|discriminate].
  specialize (Hphase r kvs1 s0 eq_refl).
  destruct (genStatBlobs stats partID segID meta kvs1 totRows s0) as [[[sp|e] kvs2] s2] eqn:Hg;
    [|discriminate].
  destruct (uploadSegmentFiles sch ctx (ID meta) segID kvs2 s2) as [[|[e|]] s3] eqn:Hu;
    try discriminate.
  intros H. injection H as <- <- <- <-.
  apply genStatBlobs_ok in Hg as (statBlob & idx & a' & Hser & _ & _ & -> & ->).
  apply (upload_contents_ok contents Hlaw) in Hu.
  split.
  - eexists statBlob, _. split; [exact Hser|]. split; [reflexivity|].
    intros sched ctx' resp err' s4. apply (download_one contents); [exact Hlaw|].
    rewrite Hu. erewrite lookup_union_Some_l; [reflexivity|apply lookup_insert_eq].
  - intros m f fb Hm Hf. destruct (Hphase m Hm) as (inlogs & Hins & Hinv).
    destruct (Hinv f fb Hf) as (blob & idx' & Hb & Hkey & -> & Hv).
    exists inlogs, blob. eexists. split; [exact Hins|]. split; [exact Hb|].
    split; [exact Hkey|]. split; [reflexivity|].
    intros sched ctx' resp err' s4. apply (download_one contents); [exact Hlaw|].
    rewrite Hu. erewrite lookup_union_Some_l; [reflexivity|].
    rewrite lookup_insert_ne; [exact Hv|].
    intros E. apply binlogKey_inj in E as [E _]; try assumption; try discriminate.
    congruence.
Qed.

(** X16: Keys never collide: under one root, two keys are the same only for the
    same kind of log and the same identifiers, so a field flushed again
    with another allocated identifier gets another key. *)
Theorem key_scheme_injective (l1 l2 : string) (ids1 ids2 : list Z) :
  Path.plain l1 = true -> Path.plain l2 = true -> ids1 <> [] -> ids2 <> [] ->
  Path.Join [RootPath; l1; JoinIDPath ids1] = Path.Join [RootPath; l2; JoinIDPath ids2] ->
  l1 = l2 /\ ids1 = ids2.
Proof. apply binlogKey_inj. Qed.

End StatsMore.

(** ** The theorems at work on the store in memory *)

Import Demo.

Lemma download_keeps_order_witness :
  download sched0 false paths0 (state0 store0)
  = (Returned (Some [Some (blob_of [Byte.x0b; Byte.x0b]); Some (blob_of [Byte.x0a])], None),
     (download sched0 false paths0 (state0 store0)).2)
  /\ (length [Some (blob_of [Byte.x0b; Byte.x0b]); Some (blob_of [Byte.x0a])]
      = length paths0
      /\ forall i path, paths0 !! i = Some path ->
           exists val,
             [Some (blob_of [Byte.x0b; Byte.x0b]); Some (blob_of [Byte.x0a])] !! i
             = Some (Some (blob_of val))
             /\ last (reads_of i (since (state0 store0)
                                    (download sched0 false paths0 (state0 store0)).2))
                = Some (path, Ok val)).
Proof.
  split; [vm_compute; reflexivity|].
  apply (download_keeps_order sched0 false paths0 (state0 store0)
           (download sched0 false paths0 (state0 store0)).2).
  vm_compute. reflexivity.
Defined.

Lemma download_attempts_witness :
  ["a"] !! 0%nat = Some "a"
  /\ (let p := download_pool sched3 false ["a"] (state0 flaky) in
      let rs := reads_of 0 (since (state0 flaky)
                              (download sched3 false ["a"] (state0 flaky)).2) in
      (length rs <= 3)%nat
      /\ (forall k x, rs !! k = Some x -> (S k < length rs)%nat ->
            exists e, x = ("a", Err e) /\ IsRetryableErr e = true)
      /\ (forall k e, rs !! k = Some ("a", Err e) -> IsRetryableErr e = false ->
            S k = length rs /\ futures p !! 0%nat = Some (Done (Err (errExternal e))))).
Proof.
  split; [reflexivity|].
  apply (download_attempts sched3 false ["a"] (state0 flaky) 0 "a"). reflexivity.
Defined.

Lemma download_fails_whole_witness :
  let fs := futures (download_pool sched2 false paths2 (state0 store0)) in
  let result := (download sched2 false paths2 (state0 store0)).1 in
  fs !! 1%nat = Some (Done (Err (errExternal "not found")))
  /\ ((forall blobs err, result <> Returned (Some blobs, err))
      /\ ((forall k, (k < 1)%nat -> exists r, fs !! k = Some (Done r)) ->
          exists i e', (i <= 1)%nat /\ fs !! i = Some (Done (Err e'))
                       /\ (forall k, (k < i)%nat ->
                             exists val, fs !! k = Some (Done (Ok val)))
                       /\ result = Returned (None, Some e'))
      /\ ((forall k, (k < 1)%nat -> exists val, fs !! k = Some (Done (Ok val))) ->
          result = Returned (None, Some (errExternal "not found")))).
Proof.
  intros fs result. split; [vm_compute; reflexivity|].
  apply (download_fails_whole sched2 false paths2 (state0 store0) 1
           (errExternal "not found")).
  vm_compute. reflexivity.
Defined.

(** C7 as it is stated fails when an earlier task fails too: the read of
    "missing" by task 1 fails for good, not found, before task 0 has run;
    the three reads of task 0 time out; both tasks have failed, and the
    download returns the error of task 0, not the error of task 1. *)
Lemma download_error_of_earlier_task :
  let fs := futures (download_pool sched_late false paths_late (state0 slow)) in
  let result := (download sched_late false paths_late (state0 slow)).1 in
  fs !! 1%nat = Some (Done (Err (errExternal "not found")))
  /\ fs !! 0%nat = Some (Done (Err (errExternal "timeout")))
  /\ reads_of 1 (since (state0 slow)
                   (download sched_late false paths_late (state0 slow)).2)
     = [("missing", Err "not found")]
  /\ result = Returned (None, Some (errExternal "timeout"))
  /\ result <> Returned (None, Some (errExternal "not found")).
Proof.
  intros fs result.
  assert (Hres : result = Returned (None, Some (errExternal "timeout")))
    by (vm_compute; reflexivity).
  split; [vm_compute; reflexivity|]. split; [vm_compute; reflexivity|].
  split; [vm_compute; reflexivity|]. split; [exact Hres|].
  rewrite Hres. discriminate.
Qed.

Lemma write_task_retries_witness :
  futures pool0 !! 0%nat = Some (Pending task0)
  /\ wt_err task0 = Some (errExternal "read-only")
  /\ pool_step write_step pool0 (Run 0)
     = {| ctxDone := false;
          futures := [Pending task0];
          st := {| store := Sealed; ids := ids sealed0;
                   trace := [EvSleep 0 50;
                             EvWrite 0 "k" [Byte.x01] (Some "read-only")] |} |}
  /\ (forall n,
        length (writes_of 0
                  (since sealed0
                     (st (upload_pool {| range_order := []; steps := replicate n (Run 0) |}
                            false {[ "k" := [Byte.x01] ]} sealed0)))) = n).
Proof.
  destruct (write_task_retries pool0 0 task0 "read-only" eq_refl eq_refl)
    as (_ & Hretry & Hrounds).
  split; [reflexivity|]. split; [reflexivity|]. split.
  - rewrite (Hretry eq_refl). reflexivity.
  - intros n.
    apply (Hrounds n [] {[ "k" := [Byte.x01] ]} sealed0 0%nat).
    + rewrite map_size_singleton. lia.
    + intros d path val w. discriminate.
Defined.

Lemma upload_cancelled_before_start_witness :
  batch1 <> ∅
  /\ (let r := uploadSegmentFiles {| range_order := []; steps := [Run 0] |} true 1 3
                 batch1 (state0 store0) in
      r.2 = state0 store0
      /\ r.1 <> Returned None
      /\ (forall e, r.1 = Returned (Some e) -> e = errUploadToBlobStorage)
      /\ ((forall i, (i < size batch1)%nat -> In (Run i) [Run 0]) ->
          r.1 = Returned (Some errUploadToBlobStorage))).
Proof.
  assert (Hne : batch1 <> ∅) by apply insert_non_empty.
  split; [exact Hne|].
  apply (upload_cancelled_before_start {| range_order := []; steps := [Run 0] |} 1 3
           batch1 (state0 store0) Hne).
Defined.

Lemma uploadInsertLog_empty_witness :
  IsEmpty ([(100%Z, [])] : columns) = true
  /\ (let r := uploadInsertLog sch0 false 3 2 ([(100%Z, [])] : columns) meta0
                 (state0 store0) in
      r = (Returned (None, None), state0 store0)
      /\ ids r.2 = ids (state0 store0) /\ store r.2 = store (state0 store0)
      /\ trace r.2 = trace (state0 store0)).
Proof.
  split; [reflexivity|].
  apply (uploadInsertLog_empty sch0 false 3 2 ([(100%Z, [])] : columns) meta0
           (state0 store0)).
  reflexivity.
Defined.

Lemma uploadDeltaLog_empty_witness :
  RowCount no_rows = 0%Z
  /\ (let r := uploadDeltaLog sch0 false 3 2 no_rows meta0 (state0 store0) in
      r = (Returned (None, None), state0 store0)
      /\ ids r.2 = ids (state0 store0) /\ store r.2 = store (state0 store0)
      /\ trace r.2 = trace (state0 store0)).
Proof.
  split; [reflexivity|].
  apply (uploadDeltaLog_empty (codec := column_codec) sch0 false 3 2 no_rows meta0
           (state0 store0)).
  reflexivity.
Defined.

Lemma binlog_sizes_witness :
  Path.plain SegmentInsertLogPath = true
  /\ Path.plain SegmentStatslogPath = true
  /\ SegmentInsertLogPath <> SegmentStatslogPath
  /\ exists inPaths statPaths s' kvs s2,
       uploadStatsLog sch0 false 3 2 batch0 (Some [Byte.x09]) 5 meta0 (state0 store0)
       = (Returned (Some inPaths, Some statPaths, None), s')
       /\ size inPaths = 2%nat /\ size statPaths = 1%nat
       /\ uploadSegmentFiles sch0 false (ID meta0) 3 kvs s2 = (Returned None, s')
       /\ forall m f fb, Some inPaths = Some m \/ Some statPaths = Some m ->
            m !! f = Some fb -> sized_in kvs fb.
Proof.
  split; [reflexivity|]. split; [reflexivity|]. split; [discriminate|].
  destruct (binlog_sizes (cm := mem_store) (al := counter_alloc)
              (codec := column_codec) (lp := log_paths)
              eq_refl eq_refl ltac:(discriminate)) as (_ & Hstats & _).
  match eval vm_compute in
        (uploadStatsLog sch0 false 3 2 batch0 (Some [Byte.x09]) 5 meta0 (state0 store0))
  with
  | (Returned (Some ?a, Some ?b, ?c), ?s) =>
      assert (Hrun : uploadStatsLog sch0 false 3 2 batch0 (Some [Byte.x09]) 5 meta0
                       (state0 store0)
                     = (Returned (Some a, Some b, c), s))
        by (vm_compute; reflexivity);
      destruct (Hstats _ _ _ _ _ _ _ _ _ _ _ _ _ Hrun ltac:(left; eexists; reflexivity))
        as (kvs1 & s1 & sp & kvs & s2 & _ & _ & _ & Hu & Hsz);
      exists a, b, s, kvs, s2
  end.
  split; [vm_compute; reflexivity|]. split; [vm_compute; reflexivity|].
  split; [vm_compute; reflexivity|]. split; [exact Hu|exact Hsz].
Defined.

Lemma key_composition_witness :
  Path.plain SegmentInsertLogPath = true
  /\ Path.plain SegmentStatslogPath = true
  /\ Path.plain SegmentDeltaLogPath = true
  /\ genDeltaBlobs delete0 1 2 3 (state0 store0)
     = (Ok ("files/delta_log/1/2/3/7", [Byte.x01; Byte.x01]),
        (genDeltaBlobs delete0 1 2 3 (state0 store0)).2)
  /\ exists idx a',
       AllocOne (ids (state0 store0)) = (Ok idx, a')
       /\ "files/delta_log/1/2/3/7"
          = key_of_segments RootPath
              [SegmentDeltaLogPath; FormatInt 1; FormatInt 2; FormatInt 3; FormatInt idx].
Proof.
  split; [reflexivity|]. split; [reflexivity|]. split; [reflexivity|].
  assert (Hrun : genDeltaBlobs delete0 1 2 3 (state0 store0)
                 = (Ok ("files/delta_log/1/2/3/7", [Byte.x01; Byte.x01]),
                    (genDeltaBlobs delete0 1 2 3 (state0 store0)).2))
    by (vm_compute; reflexivity).
  split; [exact Hrun|].
  destruct (key_composition (cm := mem_store) (al := counter_alloc)
              (codec := column_codec) (lp := log_paths)
              eq_refl eq_refl eq_refl) as (_ & _ & Hdelta).
  exact (Hdelta delete0 1%Z 2%Z 3%Z (state0 store0) _ _ _ Hrun).
Defined.

(** C3 as it is stated fails on a delta log: its key has the identifiers
    of collection, partition and segment and the allocated identifier, and
    whatever the field and the last identifier, it is not a key with a
    segment for the field. *)
Lemma delta_key_without_field :
  exists v s1,
    genDeltaBlobs delete0 1 2 3 (state0 store0)
    = (Ok ("files/delta_log/1/2/3/7", v), s1)
    /\ forall fID idx,
         "files/delta_log/1/2/3/7"
         <> key_of_segments RootPath
              [SegmentDeltaLogPath; FormatInt 1; FormatInt 2; FormatInt 3;
               FormatInt fID; FormatInt idx].
Proof.
  exists [Byte.x01; Byte.x01], (genDeltaBlobs delete0 1 2 3 (state0 store0)).2.
  split; [vm_compute; reflexivity|].
  intros fID idx E.
  change "files/delta_log/1/2/3/7"
    with (binlogKey RootPath SegmentDeltaLogPath [1; 2; 3; 7]%Z) in E.
  change [SegmentDeltaLogPath; FormatInt 1; FormatInt 2; FormatInt 3;
          FormatInt fID; FormatInt idx]
    with (SegmentDeltaLogPath :: map FormatInt [1; 2; 3; fID; idx]%Z) in E.
  rewrite <- binlogKey_segments in E by (reflexivity || discriminate).
  apply binlogKey_inj in E as [_ E]; try reflexivity; discriminate.
Qed.

Lemma uploadStatsLog_one_stats_blob_witness :
  SerializePkStats meta0 (Some [Byte.x09]) 5
  = Ok {| Key := "100"; Value := [Byte.x09]; RowNum := 5 |}
  /\ IsEmpty ([] : columns) = true
  /\ AllocOne (ids (state0 store0)) = (Ok 7%Z, {| next_id := 8; broken := false |})
  /\ (uploadStatsLog sch1 false 3 2 ([] : columns) (Some [Byte.x09]) 5 meta0
        (state0 store0)).1
     = Returned (None,
                 Some {[ 100%Z := {| FieldID := 100;
                                     Binlogs := [{| EntriesNum := 5;
                                                    LogPath := "files/stats_log/1/2/3/100/7";
                                                    LogSize := 1 |}] |} ]},
                 None).
Proof.
  split; [reflexivity|]. split; [reflexivity|]. split; [reflexivity|].
  destruct (uploadStatsLog_one_stats_blob (cm := mem_store) (al := counter_alloc)
              (codec := column_codec) (lp := log_paths) sch1 false 3 2 ([] : columns)
              (Some [Byte.x09]) 5 meta0 (state0 store0) (state0 store0)
              {| Key := "100"; Value := [Byte.x09]; RowNum := 5 |}
              None ∅ 7 {| next_id := 8; broken := false |}
              eq_refl (or_introl (conj eq_refl (conj eq_refl (conj eq_refl eq_refl))))
              eq_refl) as (Hcall & _).
  rewrite Hcall. vm_compute. reflexivity.
Defined.

(** C5 as it is stated fails when the codec cannot serialize the
    statistics: with an empty insert batch the call returns
    (nil, nil, error), and no stats logs. *)
Lemma uploadStatsLog_codec_error :
  IsEmpty ([] : columns) = true
  /\ uploadStatsLog sch1 false 3 2 ([] : columns) None 5 meta0 (state0 store0)
     = (Returned (None, None, Some (errExternal "no stats")), state0 store0)
  /\ ~ exists statsLogs s',
         uploadStatsLog sch1 false 3 2 ([] : columns) None 5 meta0 (state0 store0)
         = (Returned (None, Some statsLogs, None), s')
         /\ statsLogs <> ∅.
Proof.
  split; [reflexivity|]. split; [reflexivity|].
  intros (statsLogs & s' & H & _). discriminate H.
Qed.

(** ** More runs on the store in memory *)

(** The store in memory keeps what is written. *)
Lemma mem_lawful : lawful (cm := mem_store) objects.
Proof.
  unfold lawful. simpl. unfold mem_write, mem_read, next_fault.
  split; [|split; [|split]].
  - intros _ k v w w'. destruct (faults w) as [|[e|] rest]; simpl;
      intros H; try discriminate; now injection H as <-.
  - intros _ k v w e w'. destruct (faults w) as [|[e0|] rest]; simpl;
      intros H; try discriminate; now injection H as _ <-.
  - intros _ k w v w'. destruct (faults w) as [|[e0|] rest]; simpl;
      try discriminate;
      (destruct (objects w !! k) as [v0|] eqn:Hk; intros H; [|discriminate];
       injection H as <- <-; now split).
  - intros _ k w e w'. destruct (faults w) as [|[e0|] rest]; simpl;
      try (destruct (objects w !! k)); intros H; try discriminate;
      now injection H as _ <-.
Qed.

Lemma upload_fails_only_when_cancelled_witness :
  (uploadSegmentFiles sch_cancel false 1 3 batch1 (state0 flaky)).1
  = Returned (Some errUploadToBlobStorage)
  /\ (errUploadToBlobStorage = errUploadToBlobStorage
      /\ (false = true \/ In Cancel (steps sch_cancel))).
Proof.
  assert (Hrun : (uploadSegmentFiles sch_cancel false 1 3 batch1 (state0 flaky)).1
                 = Returned (Some errUploadToBlobStorage)) by (vm_compute; reflexivity).
  split; [exact Hrun|].
  exact (upload_fails_only_when_cancelled sch_cancel false 1 3 batch1 (state0 flaky)
           errUploadToBlobStorage Hrun).
Defined.

Lemma upload_success_wrote_batch_witness :
  uploadSegmentFiles sch_five false 1 3 batch1 (state0 flaky)
  = (Returned None, (uploadSegmentFiles sch_five false 1 3 batch1 (state0 flaky)).2)
  /\ forall k v, batch1 !! k = Some v ->
       exists i, last (writes_of i (since (state0 flaky)
                                       (uploadSegmentFiles sch_five false 1 3 batch1
                                          (state0 flaky)).2))
                 = Some (k, v, None).
Proof.
  split; [vm_compute; reflexivity|].
  apply (upload_success_wrote_batch sch_five false 1 3 batch1 (state0 flaky)).
  vm_compute. reflexivity.
Defined.

Lemma upload_returns_after_cancel_witness :
  steps sch_cancel = [Run 0; Cancel] ++ [Run 0]
  /\ (false = true \/ In Cancel [Run 0; Cancel])
  /\ (forall i, (i < size batch1)%nat -> In (Run i) [Run 0])
  /\ exists r, (uploadSegmentFiles sch_cancel false 1 3 batch1 (state0 flaky)).1
               = Returned r.
Proof.
  assert (H1 : steps sch_cancel = [Run 0; Cancel] ++ [Run 0]) by reflexivity.
  assert (H2 : false = true \/ In Cancel [Run 0; Cancel]) by (right; simpl; auto).
  assert (H3 : forall i, (i < size batch1)%nat -> In (Run i) [Run 0]).
  { intros i Hi. unfold batch1 in Hi. rewrite map_size_singleton in Hi.
    assert (i = 0%nat) as -> by lia. now left. }
  split; [exact H1|]. split; [exact H2|]. split; [exact H3|].
  exact (upload_returns_after_cancel sch_cancel false 1 3 batch1 (state0 flaky)
           [Run 0; Cancel] [Run 0] H1 H2 H3).
Defined.

Lemma upload_stores_batch_witness :
  lawful (cm := mem_store) objects
  /\ uploadSegmentFiles sch_five false 1 3 batch1 (state0 flaky)
     = (Returned None, (uploadSegmentFiles sch_five false 1 3 batch1 (state0 flaky)).2)
  /\ objects (store (uploadSegmentFiles sch_five false 1 3 batch1 (state0 flaky)).2)
     = batch1 ∪ objects (store (state0 flaky)).
Proof.
  assert (Hrun : uploadSegmentFiles sch_five false 1 3 batch1 (state0 flaky)
                 = (Returned None,
                    (uploadSegmentFiles sch_five false 1 3 batch1 (state0 flaky)).2))
    by (vm_compute; reflexivity).
  split; [exact mem_lawful|]. split; [exact Hrun|].
  exact (upload_stores_batch objects sch_five false 1 3 batch1 (state0 flaky) _
           mem_lawful Hrun).
Defined.

Lemma upload_partial_writes_witness :
  lawful (cm := mem_store) objects
  /\ (let r := uploadSegmentFiles sch_half false 1 3 batch3 (state0 half) in
      r.1 = Returned (Some errUploadToBlobStorage)
      /\ writes_of 0 (since (state0 half) r.2) = [("k", [Byte.x01], None)]
      /\ writes_of 1 (since (state0 half) r.2) = [("m", [Byte.x02], Some "boom")]
      /\ objects (store (state0 half)) !! "k" = None
      /\ (batch3 !! "k" = Some [Byte.x01]
          /\ objects (store r.2) !! "k" = Some [Byte.x01])
      /\ objects (store r.2) !! "m" = objects (store (state0 half)) !! "m"
      /\ objects (store r.2) !! "a" = objects (store (state0 half)) !! "a").
Proof.
  split; [exact mem_lawful|].
  destruct (upload_partial_writes (cm := mem_store) objects sch_half false 1 3 batch3
              (state0 half) mem_lawful) as (Hout & Hyes & Hno).
  assert (H0 : writes_of 0 (since (state0 half)
                              (uploadSegmentFiles sch_half false 1 3 batch3
                                 (state0 half)).2)
               = [("k", [Byte.x01], None)]) by (vm_compute; reflexivity).
  assert (H1 : writes_of 1 (since (state0 half)
                              (uploadSegmentFiles sch_half false 1 3 batch3
                                 (state0 half)).2)
               = [("m", [Byte.x02], Some "boom")]) by (vm_compute; reflexivity).
  split; [vm_compute; reflexivity|]. split; [exact H0|]. split; [exact H1|].
  split; [vm_compute; reflexivity|]. split; [|split].
  - apply (Hyes 0%nat). rewrite H0. now left.
  - apply (Hno "m" [Byte.x02]); [vm_compute; reflexivity|].
    intros [|[|i]] Hin.
    + rewrite H0 in Hin. destruct Hin as [Hin|[]]. discriminate Hin.
    + rewrite H1 in Hin. destruct Hin as [Hin|[]]. discriminate Hin.
    + revert Hin. vm_compute. intros [].
  - apply Hout. vm_compute. reflexivity.
Defined.

Lemma download_returns_contents_witness :
  lawful (cm := mem_store) objects
  /\ download sched0 false paths0 (state0 store0)
     = (Returned (Some [Some (blob_of [Byte.x0b; Byte.x0b]); Some (blob_of [Byte.x0a])], None),
        (download sched0 false paths0 (state0 store0)).2)
  /\ (objects (store (download sched0 false paths0 (state0 store0)).2)
      = objects (store (state0 store0))
      /\ length [Some (blob_of [Byte.x0b; Byte.x0b]); Some (blob_of [Byte.x0a])]
         = length paths0
      /\ forall i path, paths0 !! i = Some path ->
           exists val, objects (store (state0 store0)) !! path = Some val
                       /\ [Some (blob_of [Byte.x0b; Byte.x0b]); Some (blob_of [Byte.x0a])] !! i
                          = Some (Some (blob_of val))).
Proof.
  assert (Hrun : download sched0 false paths0 (state0 store0)
                 = (Returned (Some [Some (blob_of [Byte.x0b; Byte.x0b]);
                                    Some (blob_of [Byte.x0a])], None),
                    (download sched0 false paths0 (state0 store0)).2))
    by (vm_compute; reflexivity).
  split; [exact mem_lawful|]. split; [exact Hrun|].
  exact (download_returns_contents objects sched0 false paths0 (state0 store0) _ _ _
           mem_lawful Hrun).
Defined.

Lemma upload_download_roundtrip_witness :
  lawful (cm := mem_store) objects
  /\ uploadSegmentFiles sch_five false 1 3 batch1 (state0 flaky)
     = (Returned None, (uploadSegmentFiles sch_five false 1 3 batch1 (state0 flaky)).2)
  /\ download [Run 0] false ["k"]
       (uploadSegmentFiles sch_five false 1 3 batch1 (state0 flaky)).2
     = (Returned (Some [Some (blob_of [Byte.x01])], None),
        (download [Run 0] false ["k"]
           (uploadSegmentFiles sch_five false 1 3 batch1 (state0 flaky)).2).2)
  /\ forall i path v, ["k"] !! i = Some path -> batch1 !! path = Some v ->
       [Some (blob_of [Byte.x01])] !! i = Some (Some (blob_of v)).
Proof.
  assert (Hup : uploadSegmentFiles sch_five false 1 3 batch1 (state0 flaky)
                = (Returned None,
                   (uploadSegmentFiles sch_five false 1 3 batch1 (state0 flaky)).2))
    by (vm_compute; reflexivity).
  assert (Hdown : download [Run 0] false ["k"]
                    (uploadSegmentFiles sch_five false 1 3 batch1 (state0 flaky)).2
                  = (Returned (Some [Some (blob_of [Byte.x01])], None),
                     (download [Run 0] false ["k"]
                        (uploadSegmentFiles sch_five false 1 3 batch1 (state0 flaky)).2).2))
    by (vm_compute; reflexivity).
  split; [exact mem_lawful|]. split; [exact Hup|]. split; [exact Hdown|].
  exact (upload_download_roundtrip objects sch_five false 1 3 batch1 (state0 flaky) _ _
           [Run 0] false ["k"] _ _ mem_lawful Hup Hdown).
Defined.

Lemma download_returns_after_three_rounds_witness :
  (forall i, (i < length ["a"])%nat -> (3 <= count_run i sched3)%nat)
  /\ exists r, (download sched3 false ["a"] (state0 flaky)).1 = Returned r.
Proof.
  assert (H : forall i, (i < length ["a"])%nat -> (3 <= count_run i sched3)%nat).
  { intros i Hi. simpl in Hi. assert (i = 0%nat) as -> by lia. simpl. lia. }
  split; [exact H|].
  exact (download_returns_after_three_rounds sched3 false ["a"] (state0 flaky) H).
Defined.

Lemma genInsertBlobs_one_pair_per_blob_witness :
  Path.plain SegmentInsertLogPath = true
  /\ Serialize meta0 2 3 batch2
     = Ok [{| Key := "100"; Value := [Byte.x01]; RowNum := 1 |};
           {| Key := "100"; Value := [Byte.x02; Byte.x03]; RowNum := 2 |}]
  /\ GetGenerator 2 (ids (state0 store0))
     = (Ok [7; 8]%Z, {| next_id := 9; broken := false |})
  /\ NoDup [7; 8]%Z
  /\ size (genInsertBlobs batch2 2 3 meta0 ∅ (state0 store0)).1.2 = 2%nat.
Proof.
  assert (Hnd : NoDup [7; 8]%Z) by (apply (bool_decide_unpack _); vm_compute; reflexivity).
  split; [reflexivity|]. split; [reflexivity|]. split; [reflexivity|].
  split; [exact Hnd|].
  eapply (genInsertBlobs_one_pair_per_blob (cm := mem_store) (al := counter_alloc)
            (codec := column_codec) (lp := log_paths) batch2 2 3 meta0 (state0 store0)
            (genInsertBlobs batch2 2 3 meta0 ∅ (state0 store0)).2
            (match (genInsertBlobs batch2 2 3 meta0 ∅ (state0 store0)).1.1 with
             | Ok m => m | Err _ => ∅ end)
            _ _ [7; 8]%Z {| next_id := 9; broken := false |} eq_refl eq_refl eq_refl Hnd).
  - simpl. lia.
  - vm_compute. reflexivity.
Defined.

Lemma insert_log_roundtrip_witness :
  Path.plain SegmentInsertLogPath = true
  /\ lawful (cm := mem_store) objects
  /\ exists inpaths s1 fb,
       uploadInsertLog sch0 false 3 2 batch0 meta0 (state0 store0)
       = (Returned (Some inpaths, None), s1)
       /\ inpaths !! 101%Z = Some fb
       /\ fb = {| FieldID := 101;
                  Binlogs := [{| EntriesNum := 1;
                                 LogPath := "files/insert_log/1/2/3/101/8";
                                 LogSize := 1 |}] |}
       /\ forall sched ctx' resp err' s2,
            download sched ctx' ["files/insert_log/1/2/3/101/8"] s1
            = (Returned (Some resp, err'), s2) ->
            resp = [Some (blob_of [Byte.x03])].
Proof.
  split; [reflexivity|]. split; [exact mem_lawful|].
  match eval vm_compute in (uploadInsertLog sch0 false 3 2 batch0 meta0 (state0 store0)) with
  | (Returned (Some ?m, None), ?s) =>
      assert (Hrun : uploadInsertLog sch0 false 3 2 batch0 meta0 (state0 store0)
                     = (Returned (Some m, None), s)) by (vm_compute; reflexivity);
      exists m, s
  end.
  eexists. split; [exact Hrun|].
  match type of Hrun with
  | _ = (Returned (Some ?m, None), ?s) =>
      assert (Hf : m !! 101%Z
                   = Some {| FieldID := 101;
                             Binlogs := [{| EntriesNum := 1;
                                            LogPath := "files/insert_log/1/2/3/101/8";
                                            LogSize := 1 |}] |})
        by (vm_compute; reflexivity);
      destruct (insert_log_roundtrip (cm := mem_store) (al := counter_alloc)
                  (codec := column_codec) (lp := log_paths) objects
                  sch0 false 3 2 batch0 meta0 (state0 store0) s m None 101 _
                  eq_refl mem_lawful Hrun Hf)
        as (inlogs & blob & path & Hser & Hin & Hkey & Hfb & Hdown)
  end.
  split; [exact Hf|]. split; [reflexivity|].
  injection Hfb as Hrows Hpath Hsize.
  simpl in Hser. injection Hser as <-.
  apply list_elem_of_In in Hin. simpl in Hin.
  destruct Hin as [<-|[<-|[]]]; [discriminate Hkey|].
  subst path. exact Hdown.
Defined.

Lemma delta_log_roundtrip_witness :
  lawful (cm := mem_store) objects
  /\ ((RowCount no_rows <= 0)%Z ->
      uploadDeltaLog sch1 false 3 2 no_rows meta0 (state0 store0)
      = (Returned (None, None), state0 store0))
  /\ (uploadDeltaLog sch1 false 3 2 delete0 meta0 (state0 store0)).1
     = Returned (Some [{| FieldID := 0;
                          Binlogs := [{| EntriesNum := 2;
                                         LogPath := "files/delta_log/1/2/3/7";
                                         LogSize := 2 |}] |}], None).
Proof.
  split; [exact mem_lawful|].
  destruct (delta_log_roundtrip (cm := mem_store) (al := counter_alloc)
              (codec := column_codec) (lp := log_paths) objects
              sch1 false 3 2 no_rows meta0 (state0 store0) mem_lawful) as [Hnone _].
  split; [exact Hnone|]. vm_compute. reflexivity.
Defined.

Lemma ParseInt_FormatInt_witness :
  (- 2 ^ 63 <= -42 < 2 ^ 63)%Z /\ ParseInt (FormatInt (-42)) = (-42)%Z.
Proof.
  assert (H : (- 2 ^ 63 <= -42 < 2 ^ 63)%Z) by lia.
  split; [exact H|]. exact (ParseInt_FormatInt (-42) H).
Defined.

Lemma stats_log_roundtrip_witness :
  Path.plain SegmentInsertLogPath = true
  /\ Path.plain SegmentStatslogPath = true
  /\ SegmentInsertLogPath <> SegmentStatslogPath
  /\ lawful (cm := mem_store) objects
  /\ exists inPaths statPaths s1,
       uploadStatsLog sch0 false 3 2 batch0 (Some [Byte.x09]) 5 meta0 (state0 store0)
       = (Returned (Some inPaths, Some statPaths, None), s1)
       /\ exists statBlob path,
            SerializePkStats meta0 (Some [Byte.x09]) 5 = Ok statBlob
            /\ statPaths
               = {[ ParseInt (Key statBlob)
                    := {| FieldID := ParseInt (Key statBlob);
                          Binlogs := [{| EntriesNum := 5; LogPath := path;
                                         LogSize := Z.of_nat (length (Value statBlob)) |}] |} ]}
            /\ forall sched ctx' resp err' s2,
                 download sched ctx' [path] s1 = (Returned (Some resp, err'), s2) ->
                 resp = [Some (blob_of (Value statBlob))].
Proof.
  split; [reflexivity|]. split; [reflexivity|]. split; [discriminate|].
  split; [exact mem_lawful|].
  match eval vm_compute in
        (uploadStatsLog sch0 false 3 2 batch0 (Some [Byte.x09]) 5 meta0 (state0 store0))
  with
  | (Returned (Some ?a, Some ?b, None), ?s) =>
      assert (Hrun : uploadStatsLog sch0 false 3 2 batch0 (Some [Byte.x09]) 5 meta0
                       (state0 store0)
                     = (Returned (Some a, Some b, None), s)) by (vm_compute; reflexivity);
      exists a, b, s; split; [exact Hrun|];
      exact (proj1 (stats_log_roundtrip (cm := mem_store) (al := counter_alloc)
                      (codec := column_codec) (lp := log_paths) objects
                      sch0 false 3 2 batch0 (Some [Byte.x09]) 5 meta0 (state0 store0) s
                      (Some a) b None eq_refl eq_refl ltac:(discriminate) mem_lawful Hrun))
  end.
Defined.

Lemma key_scheme_injective_witness :
  Path.plain "insert_log" = true /\ Path.plain "stats_log" = true
  /\ [1; 2; 3; 100; 7]%Z <> [] /\ [1; 2; 3; 100; 8]%Z <> []
  /\ Path.Join [RootPath; "insert_log"; JoinIDPath [1; 2; 3; 100; 7]%Z]
     = Path.Join [RootPath; "insert_log"; JoinIDPath [1; 2; 3; 100; 7]%Z]
  /\ ("insert_log" = "insert_log" /\ [1; 2; 3; 100; 7]%Z = [1; 2; 3; 100; 7]%Z)
  /\ Path.Join [RootPath; "insert_log"; JoinIDPath [1; 2; 3; 100; 7]%Z]
     <> Path.Join [RootPath; "stats_log"; JoinIDPath [1; 2; 3; 100; 7]%Z]
  /\ Path.Join [RootPath; "insert_log"; JoinIDPath [1; 2; 3; 100; 7]%Z]
     <> Path.Join [RootPath; "insert_log"; JoinIDPath [1; 2; 3; 100; 8]%Z].
Proof.
  split; [reflexivity|]. split; [reflexivity|].
  split; [discriminate|]. split; [discriminate|]. split; [reflexivity|]. split.
  { exact (key_scheme_injective (cm := mem_store) "insert_log" "insert_log"
             [1; 2; 3; 100; 7]%Z [1; 2; 3; 100; 7]%Z eq_refl eq_refl
             ltac:(discriminate) ltac:(discriminate) eq_refl). }
  split.
  - intros E.
    destruct (key_scheme_injective (cm := mem_store) "insert_log" "stats_log"
                [1; 2; 3; 100; 7]%Z [1; 2; 3; 100; 7]%Z eq_refl eq_refl
                ltac:(discriminate) ltac:(discriminate) E) as [H _].
    discriminate H.
  - intros E.
    destruct (key_scheme_injective (cm := mem_store) "insert_log" "insert_log"
                [1; 2; 3; 100; 7]%Z [1; 2; 3; 100; 8]%Z eq_refl eq_refl
                ltac:(discriminate) ltac:(discriminate) E) as [_ H].
    discriminate H.
Defined.
